(** * Tensor-Chess: a shallow embedding of [tensor_chess_fixed-4.py]

    The rules engine of the program (move generation, the special moves,
    the body of the game loop and the win check) is embedded here as Rocq
    functions, and the properties stated for it are proved about them.

    - The board is the 8x8 [int32] tensor of the program, here a [tensor]: a
      list of rows of piece codes.  [get_piece] and [set_piece] index it the
      way TensorFlow does: an index in [0, 8) is used as it is, an index in
      [-8, 0) counts from the end, and any other index raises
      [InvalidArgumentError].
    - The generator [get_possible_moves] takes the lookup it reads the board
      with as an argument; the program's is [get_piece board].
    - Python exceptions are results: [Raise e].  The game loop catches
      [ValueError] and [IndexError] only.
    - The module-level globals (the six castling flags and
      [en_passant_target]) and the locals [board] and [white_to_move] of
      [play_game] are the fields of one record, threaded through a state and
      exception monad in which a raise keeps the state reached so far.
    - Console output and the score table are not part of the embedding. *)

From Stdlib Require Import ZArith List Bool Lia.
Import ListNotations.
Open Scope Z_scope.

(** ** Results and exceptions *)

Inductive exn : Type :=
| ValueError
| IndexError
| InvalidArgumentError.

(** [OutOfFuel] is the result of a [while] loop that was cut off by the
    iteration bound of the embedding; it is shown never to occur. *)
Inductive res (A : Type) : Type :=
| Ok (a : A)
| Raise (e : exn)
| OutOfFuel.

Arguments Ok {A} a.
Arguments Raise {A} e.
Arguments OutOfFuel {A}.

Definition bind_res {A B : Type} (m : res A) (k : A -> res B) : res B :=
  match m with
  | Ok a => k a
  | Raise e => Raise e
  | OutOfFuel => OutOfFuel
  end.

Declare Scope res_scope.
Delimit Scope res_scope with res.
Notation "x <- m ;; k" := (bind_res m (fun x => k))
  (at level 100, m at next level, right associativity) : res_scope.

(** A [for] loop over a tuple or list with one loop-carried variable. *)
Fixpoint for_each {A S : Type} (xs : list A) (body : A -> S -> res S) (s : S)
  : res S :=
  match xs with
  | [] => Ok s
  | x :: xs' => bind_res (body x s) (for_each xs' body)
  end.

(** ** Squares and the board tensor *)

Definition square : Type := (Z * Z)%type.

Definition tensor : Type := list (list Z).

(** The shape [8, 8] of the tensor, which no assignment changes. *)
Definition wf_board (b : tensor) : bool :=
  (length b =? 8)%nat && forallb (fun row => (length row =? 8)%nat) b.

Definition cell (b : tensor) (i j : nat) : Z := nth j (nth i b []) 0.

Fixpoint update {A : Type} (n : nat) (v : A) (l : list A) : list A :=
  match l, n with
  | [], _ => []
  | _ :: t, O => v :: t
  | x :: t, S k => x :: update k v t
  end.

Definition set_cell (b : tensor) (i j : nat) (v : Z) : tensor :=
  update i (update j v (nth i b [])) b.

(** One index of [board[r, c]] along an axis of size 8. *)
Definition tf_index (i : Z) : res nat :=
  if (0 <=? i) && (i <? 8) then Ok (Z.to_nat i)
  else if (-8 <=? i) && (i <? 0) then Ok (Z.to_nat (i + 8))
  else Raise InvalidArgumentError.

Definition get_piece (b : tensor) (r c : Z) : res Z :=
  (i <- tf_index r ;;
   j <- tf_index c ;;
   Ok (cell b i j))%res.

Definition set_piece (b : tensor) (r c : Z) (code : Z) : res tensor :=
  (i <- tf_index r ;;
   j <- tf_index c ;;
   Ok (set_cell b i j code))%res.

Definition in_bounds (r c : Z) : bool :=
  (0 <=? r) && (r <? 8) && ((0 <=? c) && (c <? 8)).

(** The occupant of an in-bounds square, without the index conversion. *)
Definition occupant (b : tensor) (r c : Z) : Z :=
  cell b (Z.to_nat r) (Z.to_nat c).

Definition create_initial_board_tf : tensor :=
  [ [ 8;  9; 10; 11; 12; 10;  9;  8];
    [ 7;  7;  7;  7;  7;  7;  7;  7];
    [ 0;  0;  0;  0;  0;  0;  0;  0];
    [ 0;  0;  0;  0;  0;  0;  0;  0];
    [ 0;  0;  0;  0;  0;  0;  0;  0];
    [ 0;  0;  0;  0;  0;  0;  0;  0];
    [ 1;  1;  1;  1;  1;  1;  1;  1];
    [ 2;  3;  4;  5;  6;  4;  3;  2] ].

(** [king_exists]: the two nested [for] loops with their early [return]. *)
Definition king_exists (b : tensor) (white : bool) : res bool :=
  let target := if white then 6 else 12 in
  for_each (map Z.of_nat (seq 0 8))
    (fun (r : Z) (found : bool) =>
       for_each (map Z.of_nat (seq 0 8))
         (fun (c : Z) (found : bool) =>
            if found then Ok true
            else (t <- get_piece b r c ;; Ok (t =? target))%res)
         found)
    false.

(** ** Castling rights and the en-passant target *)

Record castling_rights : Type := {
  white_king_moved : bool;
  black_king_moved : bool;
  white_rook_moved_k : bool;
  white_rook_moved_q : bool;
  black_rook_moved_k : bool;
  black_rook_moved_q : bool
}.

Definition no_rights_used : castling_rights :=
  {| white_king_moved := false; black_king_moved := false;
     white_rook_moved_k := false; white_rook_moved_q := false;
     black_rook_moved_k := false; black_rook_moved_q := false |}.

(** ** Move generation

    The generator reads the board only through [get_piece]; that lookup is
    the section variable [lookup], so that the same code can be run with the
    program's [get_piece] and with a lookup that faults on every coordinate
    outside the board. *)

Section Generator.

Variable lookup : Z -> Z -> res Z.
Variable rights : castling_rights.
Variable en_passant_target : option square.

Local Open Scope res_scope.

Definition is_enemy (white : bool) (r c : Z) : res bool :=
  t <- lookup r c ;;
  Ok (negb (t =? 0) && negb (Bool.eqb (t <=? 6) white)).

Definition pawn_moves (white : bool) (row col : Z) : res (list square) :=
  let d := if white then -1 else 1 in
  let start_row := if white then 6 else 1 in
  moves <-
    (if in_bounds (row + d) col then
       t <- lookup (row + d) col ;;
       if t =? 0 then
         let moves := [(row + d, col)] in
         if row =? start_row then
           t2 <- lookup (row + 2 * d) col ;;
           Ok (if t2 =? 0 then moves ++ [(row + 2 * d, col)] else moves)
         else Ok moves
       else Ok []
     else Ok []) ;;
  moves <-
    for_each [-1; 1]
      (fun dc moves =>
         let r := row + d in
         let c := col + dc in
         if in_bounds r c then
           e <- is_enemy white r c ;;
           Ok (if e then moves ++ [(r, c)] else moves)
         else Ok moves)
      moves ;;
  Ok (match en_passant_target with
      | Some (er, ec) =>
          if (row =? (if white then 3 else 4))
             && (Z.abs (ec - col) =? 1) && (er =? row + d)
          then moves ++ [(er, ec)]
          else moves
      | None => moves
      end).

(** The [while in_bounds(r, c)] loop of one ray. *)
Fixpoint ray_loop (fuel : nat) (white : bool) (dr dc r c : Z)
  (moves : list square) : res (list square) :=
  match fuel with
  | O => OutOfFuel
  | S fuel' =>
      if in_bounds r c then
        t <- lookup r c ;;
        if t =? 0 then
          ray_loop fuel' white dr dc (r + dr) (c + dc) (moves ++ [(r, c)])
        else
          Ok (if negb (Bool.eqb (t <=? 6) white)
              then moves ++ [(r, c)] else moves)
      else Ok moves
  end.

(** A ray starts on the board or leaves it at once, and leaves it after at
    most eight steps: nine tests of the loop condition are enough. *)
Definition ray_fuel : nat := 9.

Definition slide (white : bool) (row col : Z) (dirs : list (Z * Z))
  : res (list square) :=
  for_each dirs
    (fun '(dr, dc) moves =>
       ray_loop ray_fuel white dr dc (row + dr) (col + dc) moves)
    [].

Definition rook_dirs : list (Z * Z) := [(-1, 0); (1, 0); (0, -1); (0, 1)].
Definition bishop_dirs : list (Z * Z) := [(-1, -1); (-1, 1); (1, -1); (1, 1)].
Definition queen_dirs : list (Z * Z) :=
  [(-1, 0); (1, 0); (0, -1); (0, 1); (-1, -1); (-1, 1); (1, -1); (1, 1)].

(** A single target of a king or knight: empty or opposing. *)
Definition step_to (white : bool) (r c : Z) (moves : list square)
  : res (list square) :=
  if in_bounds r c then
    t <- lookup r c ;;
    Ok (if (t =? 0) || negb (Bool.eqb (t <=? 6) white)
        then moves ++ [(r, c)] else moves)
  else Ok moves.

Definition king_steps (white : bool) (row col : Z) : res (list square) :=
  for_each [-1; 0; 1]
    (fun dr moves =>
       for_each [-1; 0; 1]
         (fun dc moves =>
            if (dr =? 0) && (dc =? 0) then Ok moves
            else step_to white (row + dr) (col + dc) moves)
         moves)
    [].

(** Lines 159-168: the castling candidates of the king branch. *)
Definition castling_candidates (white : bool) (sr : Z)
  (moves : list square) : res (list square) :=
  let side (rook_k rook_q : bool) (rook : Z) :=
    moves <-
      (if negb rook_k then
         a <- lookup sr 7 ;;
         if a =? rook then
           f <- lookup sr 5 ;;
           if f =? 0 then
             g <- lookup sr 6 ;;
             Ok (if g =? 0 then moves ++ [(sr, 6)] else moves)
           else Ok moves
         else Ok moves
       else Ok moves) ;;
    (if negb rook_q then
       a <- lookup sr 0 ;;
       if a =? rook then
         b <- lookup sr 1 ;;
         if b =? 0 then
           c <- lookup sr 2 ;;
           if c =? 0 then
             d <- lookup sr 3 ;;
             Ok (if d =? 0 then moves ++ [(sr, 2)] else moves)
           else Ok moves
         else Ok moves
       else Ok moves
     else Ok moves)
  in
  if white && negb (white_king_moved rights) then
    side (white_rook_moved_k rights) (white_rook_moved_q rights) 2
  else if negb white && negb (black_king_moved rights) then
    side (black_rook_moved_k rights) (black_rook_moved_q rights) 8
  else Ok moves.

Definition king_moves (white : bool) (row col : Z) : res (list square) :=
  moves <- king_steps white row col ;;
  (* the two lookups of the debugging print *)
  _ <- lookup row 7 ;;
  _ <- lookup row 0 ;;
  castling_candidates white row moves.

Definition knight_offsets : list (Z * Z) :=
  [(-2, -1); (-2, 1); (-1, -2); (-1, 2); (1, -2); (1, 2); (2, -1); (2, 1)].

Definition knight_moves (white : bool) (row col : Z) : res (list square) :=
  for_each knight_offsets
    (fun '(dr, dc) moves => step_to white (row + dr) (col + dc) moves)
    [].

Definition get_possible_moves (row col : Z) : res (list square) :=
  code <- lookup row col ;;
  if code =? 0 then Ok []
  else
    let white := code <=? 6 in
    let ptype := if white then code else code - 6 in
    if ptype =? 1 then pawn_moves white row col
    else if ptype =? 2 then slide white row col rook_dirs
    else if ptype =? 4 then slide white row col bishop_dirs
    else if ptype =? 5 then slide white row col queen_dirs
    else if ptype =? 6 then king_moves white row col
    else if ptype =? 3 then knight_moves white row col
    else Ok [].

End Generator.

(** ** Special moves: eligibility *)

Section Eligibility.

Variable b : tensor.
Variable rights : castling_rights.
Variable en_passant_target : option square.

Local Open Scope res_scope.

Definition is_castling_move (sr sc er ec : Z) (white_to_move : bool)
  : res bool :=
  let side (king_moved rook_k rook_q : bool) (rook : Z) :=
    if king_moved then Ok false
    else if ec =? 6 then
      if rook_k then Ok false
      else
        f <- get_piece b sr 5 ;;
        if negb (f =? 0) then Ok false
        else
          g <- get_piece b sr 6 ;;
          if negb (g =? 0) then Ok false
          else a <- get_piece b sr 7 ;; Ok (a =? rook)
    else if ec =? 2 then
      if rook_q then Ok false
      else
        x <- get_piece b sr 1 ;;
        if negb (x =? 0) then Ok false
        else
          y <- get_piece b sr 2 ;;
          if negb (y =? 0) then Ok false
          else
            z <- get_piece b sr 3 ;;
            if negb (z =? 0) then Ok false
            else a <- get_piece b sr 0 ;; Ok (a =? rook)
    else Ok false
  in
  if negb (sr =? (if white_to_move then 7 else 0)) || negb (sc =? 4)
  then Ok false
  else if negb (er =? sr) || negb (Z.abs (ec - sc) =? 2) then Ok false
  else if white_to_move then
    side (white_king_moved rights) (white_rook_moved_k rights)
         (white_rook_moved_q rights) 2
  else
    side (black_king_moved rights) (black_rook_moved_k rights)
         (black_rook_moved_q rights) 8.

Definition is_en_passant (sr sc er ec : Z) (white_to_move : bool)
  : res bool :=
  piece <- get_piece b sr sc ;;
  if negb (piece =? (if white_to_move then 1 else 7)) then Ok false
  else
    Ok (match en_passant_target with
        | Some (tr, tc) => (er =? tr) && (ec =? tc)
        | None => false
        end).

End Eligibility.

(** ** The state of one game and its monad *)

Record game : Type := {
  board : tensor;
  rights : castling_rights;
  en_passant_target : option square;
  white_to_move : bool
}.

Definition M (A : Type) : Type := game -> res A * game.

Definition ret {A : Type} (a : A) : M A := fun g => (Ok a, g).

Definition bind {A B : Type} (m : M A) (k : A -> M B) : M B :=
  fun g =>
    match m g with
    | (Ok a, g') => k a g'
    | (Raise e, g') => (Raise e, g')
    | (OutOfFuel, g') => (OutOfFuel, g')
    end.

Declare Scope game_scope.
Delimit Scope game_scope with game.
Notation "x <- m ;; k" := (bind m (fun x => k))
  (at level 100, m at next level, right associativity) : game_scope.
Notation "m ;;; k" := (bind m (fun _ => k))
  (at level 100, right associativity) : game_scope.

(** A computation that only reads the state. *)
Definition reading {A : Type} (f : game -> res A) : M A := fun g => (f g, g).

(** A value that does not depend on the state (an input, an index). *)
Definition lift {A : Type} (r : res A) : M A := fun g => (r, g).

Definition modify (f : game -> game) : M unit := fun g => (Ok tt, f g).

(** [try: m  except (ValueError, IndexError): h]. *)
Definition try_except {A : Type} (m : M A) (h : M A) : M A :=
  fun g =>
    match m g with
    | (Raise ValueError, g') => h g'
    | (Raise IndexError, g') => h g'
    | other => other
    end.

Definition with_board (b : tensor) (g : game) : game :=
  {| board := b; rights := rights g;
     en_passant_target := en_passant_target g;
     white_to_move := white_to_move g |}.

Definition with_rights (f : castling_rights -> castling_rights) (g : game)
  : game :=
  {| board := board g; rights := f (rights g);
     en_passant_target := en_passant_target g;
     white_to_move := white_to_move g |}.

Definition with_en_passant_target (t : option square) (g : game) : game :=
  {| board := board g; rights := rights g;
     en_passant_target := t;
     white_to_move := white_to_move g |}.

Definition with_white_to_move (w : bool) (g : game) : game :=
  {| board := board g; rights := rights g;
     en_passant_target := en_passant_target g;
     white_to_move := w |}.

Definition mark_white_king (cr : castling_rights) : castling_rights :=
  {| white_king_moved := true; black_king_moved := black_king_moved cr;
     white_rook_moved_k := white_rook_moved_k cr;
     white_rook_moved_q := white_rook_moved_q cr;
     black_rook_moved_k := black_rook_moved_k cr;
     black_rook_moved_q := black_rook_moved_q cr |}.

Definition mark_black_king (cr : castling_rights) : castling_rights :=
  {| white_king_moved := white_king_moved cr; black_king_moved := true;
     white_rook_moved_k := white_rook_moved_k cr;
     white_rook_moved_q := white_rook_moved_q cr;
     black_rook_moved_k := black_rook_moved_k cr;
     black_rook_moved_q := black_rook_moved_q cr |}.

Definition mark_white_rook_k (cr : castling_rights) : castling_rights :=
  {| white_king_moved := white_king_moved cr;
     black_king_moved := black_king_moved cr;
     white_rook_moved_k := true;
     white_rook_moved_q := white_rook_moved_q cr;
     black_rook_moved_k := black_rook_moved_k cr;
     black_rook_moved_q := black_rook_moved_q cr |}.

Definition mark_white_rook_q (cr : castling_rights) : castling_rights :=
  {| white_king_moved := white_king_moved cr;
     black_king_moved := black_king_moved cr;
     white_rook_moved_k := white_rook_moved_k cr;
     white_rook_moved_q := true;
     black_rook_moved_k := black_rook_moved_k cr;
     black_rook_moved_q := black_rook_moved_q cr |}.

Definition mark_black_rook_k (cr : castling_rights) : castling_rights :=
  {| white_king_moved := white_king_moved cr;
     black_king_moved := black_king_moved cr;
     white_rook_moved_k := white_rook_moved_k cr;
     white_rook_moved_q := white_rook_moved_q cr;
     black_rook_moved_k := true;
     black_rook_moved_q := black_rook_moved_q cr |}.

Definition mark_black_rook_q (cr : castling_rights) : castling_rights :=
  {| white_king_moved := white_king_moved cr;
     black_king_moved := black_king_moved cr;
     white_rook_moved_k := white_rook_moved_k cr;
     white_rook_moved_q := white_rook_moved_q cr;
     black_rook_moved_k := black_rook_moved_k cr;
     black_rook_moved_q := true |}.

(** The statements of the program that touch the state. *)

Definition piece_at (r c : Z) : M Z :=
  reading (fun g => get_piece (board g) r c).

Definition put_piece (r c code : Z) : M unit :=
  fun g =>
    match set_piece (board g) r c code with
    | Ok b' => (Ok tt, with_board b' g)
    | Raise e => (Raise e, g)
    | OutOfFuel => (OutOfFuel, g)
    end.

Definition possible_moves (row col : Z) : M (list square) :=
  reading (fun g =>
    get_possible_moves (get_piece (board g)) (rights g)
      (en_passant_target g) row col).

(** ** Special moves: application *)

Section Appliers.

Local Open Scope game_scope.

Definition handle_castling (sr sc er ec : Z) : M unit :=
  p <- piece_at sr sc ;;
  let white := p <=? 6 in
  k <- piece_at sr sc ;;
  put_piece er ec k ;;;
  put_piece sr sc 0 ;;;
  (if ec >? sc then
     rook <- piece_at sr 7 ;;
     put_piece sr 5 rook ;;;
     put_piece sr 7 0 ;;;
     modify (with_rights
               (if white then mark_white_rook_k else mark_black_rook_k))
   else
     rook <- piece_at sr 0 ;;
     put_piece sr 3 rook ;;;
     put_piece sr 0 0 ;;;
     modify (with_rights
               (if white then mark_white_rook_q else mark_black_rook_q))) ;;;
  modify (with_rights (if white then mark_white_king else mark_black_king)).

Definition handle_en_passant (sr sc er ec : Z) (white_to_move : bool)
  : M unit :=
  p <- piece_at sr sc ;;
  put_piece er ec p ;;;
  put_piece sr sc 0 ;;;
  put_piece sr ec 0.

Definition handle_promotion (r c : Z) : M unit :=
  piece <- piece_at r c ;;
  if (piece =? 1) && (r =? 0) then put_piece r c 5
  else if (piece =? 7) && (r =? 7) then put_piece r c 11
  else ret tt.

(** Lines 333-358: the ordinary move and its flag updates. *)
Definition simple_move (sr sc scode er ec : Z) : M unit :=
  put_piece er ec scode ;;;
  put_piece sr sc 0 ;;;
  (if scode =? 2 then
     if (sr =? 7) && (sc =? 0) then modify (with_rights mark_white_rook_q)
     else if (sr =? 7) && (sc =? 7) then
       modify (with_rights mark_white_rook_k)
     else ret tt
   else if scode =? 8 then
     if (sr =? 0) && (sc =? 0) then modify (with_rights mark_black_rook_q)
     else if (sr =? 0) && (sc =? 7) then
       modify (with_rights mark_black_rook_k)
     else ret tt
   else ret tt) ;;;
  (if scode =? 6 then modify (with_rights mark_white_king)
   else if scode =? 12 then modify (with_rights mark_black_king)
   else if (scode =? 2) && (sr =? 7) && (sc =? 0) then
     modify (with_rights mark_white_rook_q)
   else if (scode =? 2) && (sr =? 7) && (sc =? 7) then
     modify (with_rights mark_white_rook_k)
   else if (scode =? 8) && (sr =? 0) && (sc =? 0) then
     modify (with_rights mark_black_rook_q)
   else if (scode =? 8) && (sr =? 0) && (sc =? 7) then
     modify (with_rights mark_black_rook_k)
   else ret tt).

End Appliers.

(** ** The game loop *)

(** What one pass through the loop body of [play_game] comes to. *)
Inductive outcome : Type :=
| NotYourPiece    (* "That square doesn't contain your piece." *)
| NoLegalMoves    (* "No legal moves for this piece." *)
| InvalidInput    (* "Invalid input, try again." *)
| Moved           (* the move was made and the side to move flipped *)
| Won (white : bool).  (* the move was made and [play_game] returned *)

Definition accepted (o : outcome) : bool :=
  match o with
  | Moved | Won _ => true
  | _ => false
  end.

(** The two lines a player types, after their conversion: [start] is the
    result of [pos_to_coord(start)] and [choice] the result of
    [int(input("Choose move # "))], [None] when the conversion raised (a
    [ValueError] or an [IndexError], which the loop treats alike). *)
Record proposal : Type := {
  start : option square;
  choice : option Z
}.

Definition converted {A : Type} (line : option A) : res A :=
  match line with
  | Some a => Ok a
  | None => Raise ValueError
  end.

(** [moves[idx]] on a Python list: a negative index counts from the end. *)
Definition py_index {A : Type} (l : list A) (idx : Z) : res A :=
  let n := Z.of_nat (length l) in
  let i := if idx <? 0 then idx + n else idx in
  if (0 <=? i) && (i <? n) then
    match nth_error l (Z.to_nat i) with
    | Some x => Ok x
    | None => Raise IndexError
    end
  else Raise IndexError.

Section Turn.

Local Open Scope game_scope.

(** Lines 300-315: either the pass ends with a message, or an origin, its
    occupant and a destination have been chosen. *)
Definition select (p : proposal)
  : M (outcome + (square * Z * square)) :=
  origin <- lift (converted (start p)) ;;
  let '(sr, sc) := origin in
  scode <- piece_at sr sc ;;
  white_to_move <- reading (fun g => Ok (white_to_move g)) ;;
  if (scode =? 0) || negb (Bool.eqb (scode <=? 6) white_to_move)
  then ret (inl NotYourPiece)
  else
    moves <- possible_moves sr sc ;;
    match moves with
    | [] => ret (inl NoLegalMoves)
    | _ :: _ =>
        n <- lift (converted (choice p)) ;;
        let idx := n - 1 in
        dest <- lift (py_index moves idx) ;;
        ret (inr (origin, scode, dest))
    end.

(** Lines 326-358: castling, en passant or the ordinary move. *)
Definition relocate (sr sc scode er ec : Z) : M unit :=
  white_to_move <- reading (fun g => Ok (white_to_move g)) ;;
  castling <-
    reading (fun g =>
      is_castling_move (board g) (rights g) sr sc er ec white_to_move) ;;
  if castling then handle_castling sr sc er ec
  else
    en_passant <-
      reading (fun g =>
        is_en_passant (board g) (en_passant_target g)
          sr sc er ec white_to_move) ;;
    if en_passant then handle_en_passant sr sc er ec white_to_move
    else simple_move sr sc scode er ec.

(** Lines 366-369. *)
Definition update_en_passant_target (sr sc scode er : Z) : M unit :=
  modify (with_en_passant_target
            (if ((scode =? 1) || (scode =? 7)) && (Z.abs (er - sr) =? 2)
             then Some ((sr + er) / 2, sc)
             else None)).

(** Lines 371-382. *)
Definition finish : M outcome :=
  white_to_move <- reading (fun g => Ok (white_to_move g)) ;;
  alive <- reading (fun g => king_exists (board g) (negb white_to_move)) ;;
  if negb alive then ret (Won white_to_move)
  else
    modify (with_white_to_move (negb white_to_move)) ;;;
    ret Moved.

(** Lines 317-382. *)
Definition apply_move (sr sc scode er ec : Z) : M outcome :=
  target_piece <- piece_at er ec ;;
  relocate sr sc scode er ec ;;;
  before <- piece_at er ec ;;
  handle_promotion er ec ;;;
  after <- piece_at er ec ;;
  update_en_passant_target sr sc scode er ;;;
  finish.

Definition attempt (p : proposal) : M outcome :=
  s <- select p ;;
  match s with
  | inl o => ret o
  | inr ((sr, sc), scode, (er, ec)) => apply_move sr sc scode er ec
  end.

(** One pass through the body of [while True]. *)
Definition turn (p : proposal) : M outcome :=
  try_except (attempt p) (ret InvalidInput).

End Turn.

Definition new_game : game :=
  {| board := create_initial_board_tf;
     rights := no_rights_used;
     en_passant_target := None;
     white_to_move := true |}.

(** [play_game] on the proposals typed so far: [Ok (Some w)] when the
    function returned with side [w] the winner, [Ok None] when it waits for
    the next line, [Raise e] when an exception left the loop. *)
Fixpoint play_loop (inputs : list proposal) (g : game)
  : res (option bool) * game :=
  match inputs with
  | [] => (Ok None, g)
  | p :: rest =>
      match turn p g with
      | (Ok (Won w), g') => (Ok (Some w), g')
      | (Ok _, g') => play_loop rest g'
      | (Raise e, g') => (Raise e, g')
      | (OutOfFuel, g') => (OutOfFuel, g')
      end
  end.

Definition play_game (inputs : list proposal) : res (option bool) * game :=
  play_loop inputs new_game.

(** * Definitions used in the statements *)

(** The board after [set_piece] at an in-bounds square. *)
Definition place (b : tensor) (r c v : Z) : tensor :=
  set_cell b (Z.to_nat r) (Z.to_nat c) v.

(** An occupant of the other side: [t != 0 and (t <= 6) != white]. *)
Definition opposing (white : bool) (t : Z) : bool :=
  negb (t =? 0) && negb (Bool.eqb (t <=? 6) white).

(** The [k]-th square outward from [(row, col)] in direction [(dr, dc)]. *)
Definition ray_square (row col dr dc k : Z) : square :=
  (row + k * dr, col + k * dc).

(** What the specification asks of the candidates of one ray: they are the
    [n] consecutive empty squares outward from the origin, followed by
    square [n + 1], the first one that is occupied, exactly when it is on
    the board and holds an opposing occupant; nothing lies beyond it. *)
Definition ray_candidates (f : Z -> Z -> Z) (white : bool)
  (row col dr dc : Z) (cands : list square) : Prop :=
  exists n : nat,
    (forall k, 1 <= k <= Z.of_nat n ->
       in_bounds (row + k * dr) (col + k * dc) = true /\
       f (row + k * dr) (col + k * dc) = 0) /\
    let r := row + (Z.of_nat n + 1) * dr in
    let c := col + (Z.of_nat n + 1) * dc in
    (in_bounds r c = true -> f r c <> 0) /\
    cands =
      map (ray_square row col dr dc) (map Z.of_nat (seq 1 n)) ++
      (if in_bounds r c && opposing white (f r c) then [(r, c)] else []).

(** How many squares of the board lie ahead on a ray, the current one
    included. *)
Definition room (dr dc r c : Z) : Z :=
  if negb (in_bounds r c) then 0
  else if dr =? 1 then 8 - r
  else if dr =? -1 then r + 1
  else if dc =? 1 then 8 - c
  else c + 1.

Ltac eqb_cases :=
  repeat match goal with
         | |- context [?a =? ?b] => destruct (Z.eqb_spec a b)
         end.

(** The ray directions of the sliding pieces, by piece code: rooks move
    orthogonally, bishops diagonally, queens both ways. *)
Definition sliding_dirs (code : Z) : option (list (Z * Z)) :=
  if (code =? 2) || (code =? 8) then Some rook_dirs
  else if (code =? 4) || (code =? 10) then Some bishop_dirs
  else if (code =? 5) || (code =? 11) then Some queen_dirs
  else None.

(** A position used to try the statements: White has castled neither way
    and stands ready to do both; a white queen stands on d4, black pawns on
    d6 and g4, a black pawn on b7 and a white pawn on a2. *)
Definition sample_board : tensor :=
  [ [ 8;  0;  0;  0; 12;  0;  0;  8];
    [ 0;  7;  0;  0;  0;  0;  0;  0];
    [ 0;  0;  0;  7;  0;  0;  0;  0];
    [ 0;  0;  0;  0;  0;  0;  0;  0];
    [ 0;  0;  0;  5;  0;  0;  7;  0];
    [ 0;  0;  0;  0;  0;  0;  0;  0];
    [ 1;  0;  0;  0;  0;  0;  0;  0];
    [ 2;  0;  0;  0;  6;  0;  0;  2] ].

(** A square of the board. *)
Definition on_board (s : square) : Prop := in_bounds (fst s) (snd s) = true.

(** The en-passant target is a square of the board whenever it is set. *)
Definition target_on_board (ep : option square) : Prop :=
  match ep with
  | Some s => on_board s
  | None => True
  end.

(** A candidate is a square of the board, or it is the en-passant target
    handed on as it is stored. *)
Definition on_board_or_target (ep : option square) (s : square) : Prop :=
  on_board s \/ ep = Some s.

(** [get_piece] made to fault on every coordinate outside the board, the
    negative indices that TensorFlow would wrap around included. *)
Definition checked_get_piece (b : tensor) (r c : Z) : res Z :=
  if in_bounds r c then get_piece b r c else Raise InvalidArgumentError.

Definition king_code (white : bool) : Z := if white then 6 else 12.
Definition rook_code (white : bool) : Z := if white then 2 else 8.
Definition home_rank (white : bool) : Z := if white then 7 else 0.

(** The preconditions of castling on rank [sr], as the specification lists
    them: the king-moved flag is false, the flag of the rook is false, the
    rook stands on its corner and the squares between king and rook are
    empty. *)
Definition kingside_ready (f : Z -> Z -> Z) (cr : castling_rights)
  (white : bool) (sr : Z) : bool :=
  negb (if white then white_king_moved cr else black_king_moved cr)
  && negb (if white then white_rook_moved_k cr else black_rook_moved_k cr)
  && (f sr 7 =? rook_code white)
  && (f sr 5 =? 0) && (f sr 6 =? 0).

Definition queenside_ready (f : Z -> Z -> Z) (cr : castling_rights)
  (white : bool) (sr : Z) : bool :=
  negb (if white then white_king_moved cr else black_king_moved cr)
  && negb (if white then white_rook_moved_q cr else black_rook_moved_q cr)
  && (f sr 0 =? rook_code white)
  && (f sr 1 =? 0) && (f sr 2 =? 0) && (f sr 3 =? 0).

(** Generation and eligibility are consistent for the king of side [white]
    on [(sr, sc)] and the destination [(er, ec)]: the generator offers the
    destination if and only if [is_castling_move] holds for the pair with
    that side to move. *)
Definition castling_consistent (b : tensor) (cr : castling_rights)
  (ep : option square) (white : bool) (sr sc er ec : Z) : Prop :=
  exists moves : list square,
    get_possible_moves (get_piece b) cr ep sr sc = Ok moves /\
    (In (er, ec) moves <->
     is_castling_move b cr sr sc er ec white = Ok true).

(** A white king on e4 with a white rook on h4 and nothing between them. *)
Definition king_off_home_board : tensor :=
  [ [ 0;  0;  0;  0; 12;  0;  0;  0];
    [ 0;  0;  0;  0;  0;  0;  0;  0];
    [ 0;  0;  0;  0;  0;  0;  0;  0];
    [ 0;  0;  0;  0;  0;  0;  0;  0];
    [ 0;  0;  0;  0;  6;  0;  0;  2];
    [ 0;  0;  0;  0;  0;  0;  0;  0];
    [ 0;  0;  0;  0;  0;  0;  0;  0];
    [ 0;  0;  0;  0;  0;  0;  0;  0] ].

(** A result that is a value or TensorFlow's error: no [ValueError], no
    [IndexError], and the iteration bound was not hit. *)
Definition faults_only {A : Type} (r : res A) : Prop :=
  match r with
  | Ok _ => True
  | Raise e => e = InvalidArgumentError
  | OutOfFuel => False
  end.

Definition faulting_only {A : Type} (m : M A) : Prop :=
  forall g, faults_only (fst (m g)).

(** Side [white] has no king anywhere on the 8x8 board. *)
Definition no_king (b : tensor) (white : bool) : Prop :=
  forall r c, 0 <= r < 8 -> 0 <= c < 8 -> occupant b r c <> king_code white.

(** A lone white king on e1, and nothing else on the board. *)
Definition lone_king_board : tensor :=
  [ [ 0;  0;  0;  0;  0;  0;  0;  0];
    [ 0;  0;  0;  0;  0;  0;  0;  0];
    [ 0;  0;  0;  0;  0;  0;  0;  0];
    [ 0;  0;  0;  0;  0;  0;  0;  0];
    [ 0;  0;  0;  0;  0;  0;  0;  0];
    [ 0;  0;  0;  0;  0;  0;  0;  0];
    [ 0;  0;  0;  0;  0;  0;  0;  0];
    [ 0;  0;  0;  0;  6;  0;  0;  0] ].

Definition lone_king_game : game :=
  {| board := lone_king_board;
     rights := no_rights_used;
     en_passant_target := None;
     white_to_move := true |}.

(** A computation that leaves a component of the state as it found it,
    however it ends. *)
Definition keeps {A T : Type} (proj : game -> T) (m : M A) : Prop :=
  forall g r g', m g = (r, g') -> proj g' = proj g.

(** What the appliers never write: the side to move and the en-passant
    target. *)
Definition turn_fields (g : game) : bool * option square :=
  (white_to_move g, en_passant_target g).

(** The moved occupant was a pawn that advanced exactly two rows from its
    start rank: a white pawn from row 6 to row 4, or a black pawn from row 1
    to row 3. *)
Definition double_step (scode sr er : Z) : bool :=
  ((scode =? 1) && (sr =? 6) && (er =? 4))
  || ((scode =? 7) && (sr =? 1) && (er =? 3)).

(** The castling flags of one side. *)
Definition king_moved (white : bool) (cr : castling_rights) : bool :=
  if white then white_king_moved cr else black_king_moved cr.

Definition rook_moved (white kingside : bool) (cr : castling_rights) : bool :=
  match white, kingside with
  | true, true => white_rook_moved_k cr
  | true, false => white_rook_moved_q cr
  | false, true => black_rook_moved_k cr
  | false, false => black_rook_moved_q cr
  end.

(** The opening proposal 1. e2-e4. *)
Definition opening_proposal : proposal :=
  {| start := Some (6, 4); choice := Some 2 |}.

(** A proposal that names the empty square a3. *)
Definition empty_square_proposal : proposal :=
  {| start := Some (5, 0); choice := Some 1 |}.

(** The lone king steps from e1 to d2. *)
Definition lone_king_proposal : proposal :=
  {| start := Some (7, 4); choice := Some 1 |}.

Definition sample_game : game :=
  {| board := sample_board;
     rights := no_rights_used;
     en_passant_target := None;
     white_to_move := true |}.

(** 1. e4 a6 2. e5 d5: White may now capture en passant on d6. *)
Definition en_passant_line : list proposal :=
  [ opening_proposal;
    {| start := Some (1, 0); choice := Some 1 |};
    {| start := Some (4, 4); choice := Some 1 |};
    {| start := Some (1, 3); choice := Some 2 |} ].

Definition en_passant_game : game := snd (play_game en_passant_line).

(** A white pawn on a7 about to take the black king on b8, which is the
    only black piece. *)
Definition promotion_board : tensor :=
  [ [ 0; 12;  0;  0;  0;  0;  0;  0];
    [ 1;  0;  0;  0;  0;  0;  0;  0];
    [ 0;  0;  0;  0;  0;  0;  0;  0];
    [ 0;  0;  0;  0;  0;  0;  0;  0];
    [ 0;  0;  0;  0;  0;  0;  0;  0];
    [ 0;  0;  0;  0;  0;  0;  0;  0];
    [ 0;  0;  0;  0;  0;  0;  0;  0];
    [ 0;  0;  0;  0;  6;  0;  0;  0] ].

Definition promotion_game : game :=
  {| board := promotion_board;
     rights := no_rights_used;
     en_passant_target := None;
     white_to_move := true |}.

Definition promotion_proposal : proposal :=
  {| start := Some (1, 0); choice := Some 2 |}.

(** The en-passant target, when set, is an empty square of the board. *)
Definition target_empty (g : game) : Prop :=
  forall r c,
    en_passant_target g = Some (r, c) ->
    in_bounds r c = true /\ get_piece (board g) r c = Ok 0.

(** A computation that is not cut off by the iteration bound. *)
Definition halting {A : Type} (m : M A) : Prop :=
  forall g, fst (m g) <> OutOfFuel.

(** No cell of the 8x8 tensor holds the code [K]. *)
Definition free_of (K : Z) (b : tensor) : Prop :=
  forall i j, (i < 8)%nat -> (j < 8)%nat -> cell b i j <> K.

(** A computation that writes no [K] on a board free of it, and returns a
    value satisfying [Q]. *)
Definition safe (K : Z) {A : Type} (m : M A) (Q : A -> Prop) : Prop :=
  forall g r g',
    free_of K (board g) -> m g = (r, g') ->
    free_of K (board g') /\ forall a, r = Ok a -> Q a.

(** * The rest of the program

    What follows embeds the code around the rules engine: the labels of
    squares, the piece tables, the printing of the board and the score
    table.  A Python string is the list of its code points. *)

From Stdlib Require Import Ascii String.
From Stdlib Require Import List Bool.
Import ListNotations.

Definition pystr : Type := list Z.

(** A string literal of the program. *)
Definition text (s : string) : pystr :=
  map (fun a => Z.of_N (N_of_ascii a)) (list_ascii_of_string s).

(** [chr(n)]: a [ValueError] outside the range of Unicode. *)
Definition chr (n : Z) : res pystr :=
  if (0 <=? n) && (n <=? 1114111) then Ok [n] else Raise ValueError.

(** [str(n)] for an integer: its decimal digits, after a minus sign when it
    is negative. *)
Fixpoint digits (u : Decimal.uint) : pystr :=
  match u with
  | Decimal.Nil => []
  | Decimal.D0 u' => 48 :: digits u'
  | Decimal.D1 u' => 49 :: digits u'
  | Decimal.D2 u' => 50 :: digits u'
  | Decimal.D3 u' => 51 :: digits u'
  | Decimal.D4 u' => 52 :: digits u'
  | Decimal.D5 u' => 53 :: digits u'
  | Decimal.D6 u' => 54 :: digits u'
  | Decimal.D7 u' => 55 :: digits u'
  | Decimal.D8 u' => 56 :: digits u'
  | Decimal.D9 u' => 57 :: digits u'
  end.

Definition str_int (n : Z) : pystr :=
  match Z.to_int n with
  | Decimal.Pos u => digits u
  | Decimal.Neg u => 45 :: digits u
  end.

(** ** Labels of squares *)

Section Labels.

(** The value of a decimal digit outside ASCII, which [int] accepts as it
    accepts ['0'] to ['9']; [None] for every other code point. *)
Variable unicode_decimal : Z -> option Z.

Local Open Scope res_scope.

(** [int(ch)] for a string [ch] of one character. *)
Definition int_of_char (cp : Z) : res Z :=
  if (48 <=? cp) && (cp <=? 57) then Ok (cp - 48)
  else if cp <? 128 then Raise ValueError
  else
    match unicode_decimal cp with
    | Some d => Ok d
    | None => Raise ValueError
    end.

Definition pos_to_coord (pos : pystr) : res square :=
  rank <- py_index pos 1 ;;
  d <- int_of_char rank ;;
  file <- py_index pos 0 ;;
  Ok (8 - d, file - 97).

End Labels.

Definition coord_to_pos (r c : Z) : res pystr :=
  (file <- chr (c + 97) ;;
   Ok (file ++ str_int (8 - r)))%res.

(** The proposal made by a stripped first line and a converted second
    line. *)
Definition proposal_of (unicode_decimal : Z -> option Z) (line : pystr)
  (choice : option Z) : proposal :=
  {| start :=
       match pos_to_coord unicode_decimal line with
       | Ok s => Some s
       | _ => None
       end;
     choice := choice |}.

(** ** Piece encoding *)

(** A dictionary with its keys in insertion order; [None] is the
    [KeyError] of [d[k]]. *)
Fixpoint dict_get {K V : Type} (eqb : K -> K -> bool) (d : list (K * V))
  (k : K) : option V :=
  match d with
  | [] => None
  | (k', v) :: d' => if eqb k' k then Some v else dict_get eqb d' k
  end.

Definition pystr_eqb (s t : pystr) : bool :=
  if list_eq_dec Z.eq_dec s t then true else false.

Definition piece2idx : list (pystr * Z) :=
  [ (text "wP", 1); (text "wR", 2); (text "wN", 3);
    (text "wB", 4); (text "wQ", 5); (text "wK", 6);
    (text "bP", 7); (text "bR", 8); (text "bN", 9);
    (text "bB", 10); (text "bQ", 11); (text "bK", 12) ].

Definition idx2str : list (Z * pystr) :=
  map (fun kv => (snd kv, fst kv)) piece2idx ++ [(0, text "..")].

(** ** Printing the board *)

(** [f"{s:<2}"]: [s] padded with spaces on the right to [width]. *)
Definition ljust (width : nat) (s : pystr) : pystr :=
  s ++ repeat 32 (width - List.length s).

(** [sep.join(parts)]. *)
Fixpoint join (sep : pystr) (parts : list pystr) : pystr :=
  match parts with
  | [] => []
  | [p] => p
  | p :: rest => p ++ sep ++ join sep rest
  end.

Definition header : pystr :=
  text "  " ++ join (text "  ") (map (fun ch => [ch]) (text "abcdefgh")).

(** What [print_board_tf] does: the lines it prints, and the exception that
    stopped it, if one did. *)
Inductive print_failure : Type :=
| KeyError (key : Z)
| TensorFailure (e : exn).

Record printed : Type := {
  lines : list pystr;
  failure : option print_failure
}.

(** The row of rank [8 - i], built cell by cell from [row]. *)
Fixpoint rank_cells (b : tensor) (i : Z) (js : list Z) (row : pystr)
  : pystr + print_failure :=
  match js with
  | [] => inl row
  | j :: js' =>
      match get_piece b i j with
      | Ok code =>
          match dict_get Z.eqb idx2str code with
          | Some name =>
              rank_cells b i js' (row ++ ljust 2 name ++ text " ")
          | None => inr (KeyError code)
          end
      | Raise e => inr (TensorFailure e)
      | OutOfFuel => inr (TensorFailure InvalidArgumentError)
      end
  end.

Fixpoint print_ranks (b : tensor) (rows : list Z) (out : list pystr)
  : printed :=
  match rows with
  | [] => {| lines := out ++ [header]; failure := None |}
  | i :: rows' =>
      let rank := 8 - i in
      match rank_cells b i (map Z.of_nat (seq 0 8))
              (str_int rank ++ text " ") with
      | inl row => print_ranks b rows' (out ++ [row ++ str_int rank])
      | inr f => {| lines := out; failure := Some f |}
      end
  end.

Definition print_board_tf (b : tensor) : printed :=
  print_ranks b (map Z.of_nat (seq 0 8)) [header].

(** ** What the board holds *)

(** A piece code or the code of the empty square. *)
Definition is_code (v : Z) : Prop := 0 <= v <= 12.

Definition cells_all (P : Z -> Prop) (b : tensor) : Prop :=
  forall i j, (i < 8)%nat -> (j < 8)%nat -> P (cell b i j).

(** The tensor has its shape and holds codes only. *)
Definition sound_board (b : tensor) : Prop :=
  wf_board b = true /\ cells_all is_code b.

(** A computation that keeps the board sound and returns a value
    satisfying [Q]. *)
Definition sound {A : Type} (m : M A) (Q : A -> Prop) : Prop :=
  forall g r g',
    sound_board (board g) -> m g = (r, g') ->
    sound_board (board g') /\ forall a, r = Ok a -> Q a.

(** The check that a 8x8 board holds codes only. *)
Definition codes_only (b : tensor) : bool :=
  wf_board b && forallb (forallb (fun v => (0 <=? v) && (v <=? 12))) b.

(** An occupant of the mover's own side: [t != 0 and (t <= 6) == white]. *)
Definition own_piece (white : bool) (t : Z) : bool :=
  negb (t =? 0) && Bool.eqb (t <=? 6) white.

(** A square a piece of side [white] may land on: a square of the board
    that is empty or holds an opposing occupant. *)
Definition landing (f : Z -> Z -> Z) (white : bool) (s : square) : bool :=
  in_bounds (fst s) (snd s) &&
  ((f (fst s) (snd s) =? 0)
   || negb (Bool.eqb (f (fst s) (snd s) <=? 6) white)).

(** The square [d] away from [(row, col)]. *)
Definition shifted (row col : Z) (d : Z * Z) : square :=
  (row + fst d, col + snd d).

(** The eight neighbours of a square, in the order of the two nested loops
    of the king branch. *)
Definition king_offsets : list (Z * Z) :=
  [(-1, -1); (-1, 0); (-1, 1); (0, -1); (0, 1); (1, -1); (1, 0); (1, 1)].

(** A board with a white knight on b1 and white pawns on a3 and d2. *)
Definition knight_board : tensor :=
  [ [ 0;  0;  0;  0; 12;  0;  0;  0];
    [ 0;  0;  0;  0;  0;  0;  0;  0];
    [ 0;  0;  0;  0;  0;  0;  0;  0];
    [ 0;  0;  0;  0;  0;  0;  0;  0];
    [ 0;  0;  0;  0;  0;  0;  0;  0];
    [ 1;  0;  0;  0;  0;  0;  0;  0];
    [ 0;  0;  0;  1;  0;  0;  0;  0];
    [ 0;  3;  0;  0;  6;  0;  0;  0] ].

(** A square holding an opposing occupant that a pawn may capture. *)
Definition capturable (f : Z -> Z -> Z) (white : bool) (s : square) : bool :=
  in_bounds (fst s) (snd s) && opposing white (f (fst s) (snd s)).

(** The row a pawn of side [white] moves towards, its start rank and the
    rank from which it may capture en passant. *)
Definition pawn_dir (white : bool) : Z := if white then -1 else 1.
Definition pawn_start (white : bool) : Z := if white then 6 else 1.
Definition pawn_fifth (white : bool) : Z := if white then 3 else 4.

(** Every castling flag set in [cr] is set in [cr']. *)
Definition rights_le (cr cr' : castling_rights) : Prop :=
  forall w : bool,
    (king_moved w cr = true -> king_moved w cr' = true) /\
    (forall k : bool,
       rook_moved w k cr = true -> rook_moved w k cr' = true).

(** A computation that keeps a property of the state, however it ends. *)
Definition maintains (I : game -> Prop) {A : Type} (m : M A) : Prop :=
  forall g r g', I g -> m g = (r, g') -> I g'.

(** The destination column of castling on the king's or the queen's
    side. *)
Definition castling_column (kingside : bool) : Z :=
  if kingside then 6 else 2.

(** The column of the rook's corner on either side. *)
Definition corner_column (kingside : bool) : Z :=
  if kingside then 7 else 0.

(** What stands on the destination once promotion has been applied. *)
Definition arrived (scode er : Z) : Z :=
  if (scode =? 1) && (er =? 0) then 5
  else if (scode =? 7) && (er =? 7) then 11
  else scode.

(** The knight's opening move b1-c3. *)
Definition knight_proposal : proposal :=
  {| start := Some (7, 1); choice := Some 2 |}.

(** The en-passant target, when set, lies directly behind a pawn of the
    side that has just moved: on row 5 behind a white pawn on row 4 when
    Black is to move, on row 2 behind a black pawn on row 3 when White
    is. *)
Definition target_behind_pawn (g : game) : Prop :=
  forall r c,
    en_passant_target g = Some (r, c) ->
    0 <= c < 8 /\
    ((white_to_move g = false /\ r = 5 /\ occupant (board g) 4 c = 1) \/
     (white_to_move g = true /\ r = 2 /\ occupant (board g) 3 c = 7)).

(** The pawn of side [white]. *)
Definition pawn_code (white : bool) : Z := if white then 1 else 7.

(** White captures en passant from e5 to d6. *)
Definition en_passant_proposal : proposal :=
  {| start := Some (3, 4); choice := Some 2 |}.

(** Every cell of [b'] holds what it held in [b] or a value in [vs]. *)
Definition writes (vs : list Z) (b b' : tensor) : Prop :=
  forall i j, cell b' i j = cell b i j \/ In (cell b' i j) vs.

(** A king whose king-moved flag is unset stands on its start square: no
    other square of the board holds it. *)
Definition unmoved_kings_at_home (g : game) : Prop :=
  forall (w : bool) (r c : Z),
    king_moved w (rights g) = false ->
    in_bounds r c = true ->
    occupant (board g) r c = king_code w ->
    r = home_rank w /\ c = 4.

(** 1. e4 e5 2. Bc4 Nc6 3. Nh3 Nf6: White may castle on the king's
    side. *)
Definition castling_line : list proposal :=
  [ opening_proposal;
    {| start := Some (1, 4); choice := Some 2 |};
    {| start := Some (7, 5); choice := Some 3 |};
    {| start := Some (0, 1); choice := Some 2 |};
    {| start := Some (7, 6); choice := Some 2 |};
    {| start := Some (0, 6); choice := Some 2 |} ].

Definition castling_game : game := snd (play_game castling_line).

(** ** The score table *)

(** The value of [scores[id]]: a dictionary with the keys ["wins"] and
    ["points"]. *)
Record tally : Type := { wins : Z; points : Z }.

(** [scores], keyed by the players' ids. *)
Definition scoreboard : Type := list (pystr * tally).

(** [d[k] = v]: the entry of a key already present is replaced where it
    stands, a new key is added at the end. *)
Fixpoint dict_set {K V : Type} (eqb : K -> K -> bool) (d : list (K * V))
  (k : K) (v : V) : list (K * V) :=
  match d with
  | [] => [(k, v)]
  | (k', v') :: d' =>
      if eqb k' k then (k', v) :: d' else (k', v') :: dict_set eqb d' k v
  end.

Definition piece_score : list (Z * Z) :=
  [ (1, 1); (2, 3); (3, 3); (4, 5); (5, 9); (6, 0);
    (7, 1); (8, 3); (9, 3); (10, 5); (11, 9); (12, 0) ].

(** [piece_score.get(t, 0)]. *)
Definition piece_value (t : Z) : Z :=
  match dict_get Z.eqb piece_score t with
  | Some v => v
  | None => 0
  end.

(** What [play_game] can raise once the score table is part of the
    state: an exception of the rules engine or of the two conversions, or
    the [KeyError] of [scores[id]]. *)
Inductive raised : Type :=
| Builtin (e : exn)
| UnknownId (id : pystr).

Inductive sres (A : Type) : Type :=
| Done (a : A)
| Fails (e : raised)
| Cut.

Arguments Done {A} a.
Arguments Fails {A} e.
Arguments Cut {A}.

(** The state of [play_game]: the position and the score table it was
    handed, which it updates in place. *)
Record session : Type := { position : game; scores : scoreboard }.

Definition SM (A : Type) : Type := session -> sres A * session.

Definition sret {A : Type} (a : A) : SM A := fun s => (Done a, s).

Definition sbind {A B : Type} (m : SM A) (k : A -> SM B) : SM B :=
  fun s =>
    match m s with
    | (Done a, s') => k a s'
    | (Fails e, s') => (Fails e, s')
    | (Cut, s') => (Cut, s')
    end.

Declare Scope score_scope.
Delimit Scope score_scope with score.
Notation "x <- m ;; k" := (sbind m (fun x => k))
  (at level 100, m at next level, right associativity) : score_scope.
Notation "m ;;; k" := (sbind m (fun _ => k))
  (at level 100, right associativity) : score_scope.

Definition with_position (g : game) (s : session) : session :=
  {| position := g; scores := scores s |}.

Definition with_scores (t : scoreboard) (s : session) : session :=
  {| position := position s; scores := t |}.

(** A statement of the rules engine, which does not touch the scores. *)
Definition on_game {A : Type} (m : M A) : SM A :=
  fun s =>
    match m (position s) with
    | (Ok a, g') => (Done a, with_position g' s)
    | (Raise e, g') => (Fails (Builtin e), with_position g' s)
    | (OutOfFuel, g') => (Cut, with_position g' s)
    end.

(** [scores[id]["points"] += n]. *)
Definition add_points (id : pystr) (n : Z) : SM unit :=
  fun s =>
    match dict_get pystr_eqb (scores s) id with
    | Some t =>
        (Done tt,
         with_scores
           (dict_set pystr_eqb (scores s) id
              {| wins := wins t; points := points t + n |}) s)
    | None => (Fails (UnknownId id), s)
    end.

(** [scores[id]["wins"] += n]. *)
Definition add_wins (id : pystr) (n : Z) : SM unit :=
  fun s =>
    match dict_get pystr_eqb (scores s) id with
    | Some t =>
        (Done tt,
         with_scores
           (dict_set pystr_eqb (scores s) id
              {| wins := wins t + n; points := points t |}) s)
    | None => (Fails (UnknownId id), s)
    end.

(** [try: m  except (ValueError, IndexError): h]; a [KeyError] is not
    caught. *)
Definition try_except_s {A : Type} (m : SM A) (h : SM A) : SM A :=
  fun s =>
    match m s with
    | (Fails (Builtin ValueError), s') => h s'
    | (Fails (Builtin IndexError), s') => h s'
    | other => other
    end.

Section Scored.

Variables white_id black_id : pystr.

Local Open Scope score_scope.

(** Lines 326-358, with the bonus of castling and of en passant. *)
Definition relocate_scored (actor : pystr) (sr sc scode er ec : Z)
  : SM unit :=
  white_to_move <- on_game (reading (fun g => Ok (white_to_move g))) ;;
  castling <-
    on_game (reading (fun g =>
      is_castling_move (board g) (rights g) sr sc er ec white_to_move)) ;;
  if castling then
    on_game (handle_castling sr sc er ec) ;;;
    add_points actor 3
  else
    en_passant <-
      on_game (reading (fun g =>
        is_en_passant (board g) (en_passant_target g)
          sr sc er ec white_to_move)) ;;
    if en_passant then
      on_game (handle_en_passant sr sc er ec white_to_move) ;;;
      add_points actor 2
    else on_game (simple_move sr sc scode er ec).

(** Lines 371-382. *)
Definition finish_scored : SM outcome :=
  white_to_move <- on_game (reading (fun g => Ok (white_to_move g))) ;;
  alive <-
    on_game (reading (fun g =>
      king_exists (board g) (negb white_to_move))) ;;
  if negb alive then
    let winner := if white_to_move then white_id else black_id in
    add_wins winner 1 ;;;
    add_points winner 10 ;;;
    sret (Won white_to_move)
  else
    on_game (modify (with_white_to_move (negb white_to_move))) ;;;
    sret Moved.

(** Lines 317-382. *)
Definition apply_move_scored (sr sc scode er ec : Z) : SM outcome :=
  white_to_move <- on_game (reading (fun g => Ok (white_to_move g))) ;;
  let actor := if white_to_move then white_id else black_id in
  target_piece <- on_game (piece_at er ec) ;;
  (if negb (target_piece =? 0)
   then add_points actor (piece_value target_piece)
   else sret tt) ;;;
  relocate_scored actor sr sc scode er ec ;;;
  before <- on_game (piece_at er ec) ;;
  on_game (handle_promotion er ec) ;;;
  after <- on_game (piece_at er ec) ;;
  (if negb (before =? after) then add_points actor 5 else sret tt) ;;;
  on_game (update_en_passant_target sr sc scode er) ;;;
  finish_scored.

Definition attempt_scored (p : proposal) : SM outcome :=
  s <- on_game (select p) ;;
  match s with
  | inl o => sret o
  | inr ((sr, sc), scode, (er, ec)) => apply_move_scored sr sc scode er ec
  end.

(** One pass through the body of [while True], scores included. *)
Definition turn_scored (p : proposal) : SM outcome :=
  try_except_s (attempt_scored p) (sret InvalidInput).

Fixpoint play_loop_scored (inputs : list proposal) (s : session)
  : sres (option bool) * session :=
  match inputs with
  | [] => (Done None, s)
  | p :: rest =>
      match turn_scored p s with
      | (Done (Won w), s') => (Done (Some w), s')
      | (Done _, s') => play_loop_scored rest s'
      | (Fails e, s') => (Fails e, s')
      | (Cut, s') => (Cut, s')
      end
  end.

(** [play_game(white_id, black_id, scores)] on the proposals typed. *)
Definition play_game_scored (table : scoreboard) (inputs : list proposal)
  : sres (option bool) * session :=
  play_loop_scored inputs {| position := new_game; scores := table |}.

End Scored.

(** The result of a run with the score table, seen without it. *)
Definition erased {A : Type} (r : sres A) : option (res A) :=
  match r with
  | Done a => Some (Ok a)
  | Fails (Builtin e) => Some (Raise e)
  | Fails (UnknownId _) => None
  | Cut => Some OutOfFuel
  end.

(** The result of a run of the rules engine, seen with the table. *)
Definition scored {A : Type} (r : res A) : sres A :=
  match r with
  | Ok a => Done a
  | Raise e => Fails (Builtin e)
  | OutOfFuel => Cut
  end.

(** Both players have an entry in the table. *)
Definition enrolled (white_id black_id : pystr) (t : scoreboard) : Prop :=
  dict_get pystr_eqb t white_id <> None /\
  dict_get pystr_eqb t black_id <> None.

(** The player who has the move. *)
Definition mover (white_id black_id : pystr) (g : game) : pystr :=
  if white_to_move g then white_id else black_id.

(** An entry with [dw] more wins and [dp] more points. *)
Definition raise_tally (dw dp : Z) (t : tally) : tally :=
  {| wins := wins t + dw; points := points t + dp |}.

(** Table [t'] is table [t] with [dw] wins and [dp] points added to the
    entry of [id], every other entry and the order of the keys as they
    were. *)
Definition credited (id : pystr) (dw dp : Z) (t t' : scoreboard) : Prop :=
  map fst t' = map fst t /\
  (forall e, dict_get pystr_eqb t id = Some e ->
             dict_get pystr_eqb t' id = Some (raise_tally dw dp e)) /\
  (forall id', id' <> id ->
               dict_get pystr_eqb t' id' = dict_get pystr_eqb t id').

(** The table [main] builds for the players [p1] and [p2]. *)
Definition fresh_scores (p1 p2 : pystr) : scoreboard :=
  dict_set pystr_eqb [(p1, {| wins := 0; points := 0 |})] p2
    {| wins := 0; points := 0 |}.

(** A run with the score table that goes the way of the run without it,
    when side [w] has the move and its player [actor] has an entry in the
    table: the same result, the same position, and a table in which only
    the entry of [actor] has changed, by amounts that are not negative. *)
Definition follows (actor : pystr) (w : bool) {A : Type}
  (m : SM A) (m0 : M A) : Prop :=
  forall g t,
    white_to_move g = w ->
    dict_get pystr_eqb t actor <> None ->
    exists dw dp t',
      m {| position := g; scores := t |} =
        (scored (fst (m0 g)), {| position := snd (m0 g); scores := t' |}) /\
      credited actor dw dp t t' /\ 0 <= dw /\ 0 <= dp.

(** Table [t'] has the keys of [t] in their order, and no entry has fewer
    wins or fewer points than it had. *)
Definition grown (t t' : scoreboard) : Prop :=
  map fst t' = map fst t /\
  forall id e,
    dict_get pystr_eqb t id = Some e ->
    exists e',
      dict_get pystr_eqb t' id = Some e' /\
      wins e <= wins e' /\ points e <= points e'.

(** The bonus of the way a move is carried out: 3 for castling, 2 for en
    passant. *)
Definition move_bonus (g : game) (sr sc er ec : Z) : Z :=
  match is_castling_move (board g) (rights g) sr sc er ec
          (white_to_move g) with
  | Ok true => 3
  | _ =>
      match is_en_passant (board g) (en_passant_target g) sr sc er ec
              (white_to_move g) with
      | Ok true => 2
      | _ => 0
      end
  end.

(** The piece that has arrived on row [er] is a pawn on its far rank. *)
Definition promotes (before er : Z) : bool :=
  ((before =? 1) && (er =? 0)) || ((before =? 7) && (er =? 7)).

Definition won (o : outcome) : bool :=
  match o with
  | Won _ => true
  | _ => false
  end.

(** * Properties *)

(** ** The tensor *)

Lemma length_update {A : Type} (n : nat) (v : A) (l : list A) :
  length (update n v l) = length l.
Proof.
  revert n; induction l as [|x l IH]; intros [|n]; simpl; auto.
Qed.

Lemma nth_update_same {A : Type} (n : nat) (v d : A) (l : list A) :
  (n < length l)%nat -> nth n (update n v l) d = v.
Proof.
  revert n; induction l as [|x l IH]; intros [|n] H; simpl in *;
    try lia; auto.
  apply IH; lia.
Qed.

Lemma nth_update_other {A : Type} (n m : nat) (v d : A) (l : list A) :
  n <> m -> nth m (update n v l) d = nth m l d.
Proof.
  revert n m; induction l as [|x l IH]; intros [|n] [|m] H; simpl;
    try congruence; auto.
Qed.

Lemma wf_board_rows (b : tensor) :
  wf_board b = true ->
  length b = 8%nat /\ forall i, (i < 8)%nat -> length (nth i b []) = 8%nat.
Proof.
  unfold wf_board; intros H.
  apply andb_true_iff in H as [Hl Hr].
  apply Nat.eqb_eq in Hl.
  split; [exact Hl|].
  intros i Hi.
  rewrite forallb_forall in Hr.
  apply Nat.eqb_eq, Hr, nth_In; lia.
Qed.

Lemma wf_set_cell (b : tensor) (i j : nat) (v : Z) :
  wf_board b = true -> wf_board (set_cell b i j v) = true.
Proof.
  intros H.
  destruct (wf_board_rows b H) as [Hl Hr].
  unfold wf_board, set_cell in *.
  rewrite length_update, Hl; simpl.
  apply andb_true_iff in H as [_ H].
  rewrite forallb_forall in *.
  intros row Hin.
  apply In_nth with (d := []) in Hin as (k & Hk & <-).
  rewrite length_update in Hk.
  destruct (Nat.eq_dec i k) as [->|Hne].
  - rewrite nth_update_same by lia.
    rewrite length_update. apply Nat.eqb_eq, Hr; lia.
  - rewrite nth_update_other by exact Hne.
    apply H, nth_In; lia.
Qed.

Lemma cell_set_cell_same (b : tensor) (i j : nat) (v : Z) :
  wf_board b = true -> (i < 8)%nat -> (j < 8)%nat ->
  cell (set_cell b i j v) i j = v.
Proof.
  intros H Hi Hj.
  destruct (wf_board_rows b H) as [Hl Hr].
  unfold cell, set_cell.
  rewrite nth_update_same by lia.
  apply nth_update_same. rewrite Hr; lia.
Qed.

Lemma cell_set_cell_other (b : tensor) (i j i' j' : nat) (v : Z) :
  (i, j) <> (i', j') ->
  cell (set_cell b i j v) i' j' = cell b i' j'.
Proof.
  intros Hne. unfold cell, set_cell.
  destruct (Nat.eq_dec i i') as [<-|Hi].
  - destruct (Nat.lt_ge_cases i (length b)) as [Hlt|Hge].
    + rewrite nth_update_same by exact Hlt.
      apply nth_update_other. congruence.
    + assert (Hu : update i (update j v (nth i b [])) b = b).
      { clear -Hge. revert i Hge.
        induction b as [|x b IH]; intros [|i] H; simpl in *;
          try lia; auto.
        f_equal. apply IH. lia. }
      now rewrite Hu.
  - now rewrite nth_update_other by exact Hi.
Qed.

(** In-bounds coordinates are used as they are. *)

Lemma in_bounds_spec (r c : Z) :
  in_bounds r c = true <-> 0 <= r < 8 /\ 0 <= c < 8.
Proof.
  unfold in_bounds.
  rewrite !andb_true_iff, !Z.leb_le, !Z.ltb_lt. tauto.
Qed.

Lemma in_bounds_false (r c : Z) :
  in_bounds r c = false <-> ~ (0 <= r < 8 /\ 0 <= c < 8).
Proof.
  rewrite <- in_bounds_spec. destruct (in_bounds r c); split;
    congruence.
Qed.

Lemma tf_index_in (i : Z) : 0 <= i < 8 -> tf_index i = Ok (Z.to_nat i).
Proof.
  intros H. unfold tf_index.
  assert (E : (0 <=? i) && (i <? 8) = true)
    by (apply andb_true_iff; split; [apply Z.leb_le | apply Z.ltb_lt]; lia).
  now rewrite E.
Qed.

Lemma get_piece_in (b : tensor) (r c : Z) :
  in_bounds r c = true -> get_piece b r c = Ok (occupant b r c).
Proof.
  intros H. apply in_bounds_spec in H as [Hr Hc].
  unfold get_piece. now rewrite (tf_index_in r Hr), (tf_index_in c Hc).
Qed.

Lemma set_piece_in (b : tensor) (r c v : Z) :
  in_bounds r c = true -> set_piece b r c v = Ok (place b r c v).
Proof.
  intros H. apply in_bounds_spec in H as [Hr Hc].
  unfold set_piece. now rewrite (tf_index_in r Hr), (tf_index_in c Hc).
Qed.

Lemma wf_place (b : tensor) (r c v : Z) :
  wf_board b = true -> wf_board (place b r c v) = true.
Proof. apply wf_set_cell. Qed.

Lemma occupant_place_same (b : tensor) (r c v : Z) :
  wf_board b = true -> in_bounds r c = true ->
  occupant (place b r c v) r c = v.
Proof.
  intros H Hb. apply in_bounds_spec in Hb.
  apply cell_set_cell_same; [exact H|lia|lia].
Qed.

Lemma occupant_place_other (b : tensor) (r c r' c' v : Z) :
  in_bounds r c = true -> in_bounds r' c' = true ->
  (r, c) <> (r', c') ->
  occupant (place b r c v) r' c' = occupant b r' c'.
Proof.
  intros H H' Hne.
  apply in_bounds_spec in H, H'.
  apply cell_set_cell_other.
  intros E. apply Hne.
  injection E as E1 E2.
  apply Z2Nat.inj in E1, E2; try lia. congruence.
Qed.

(** A raise of the tensor operations is TensorFlow's, and they never run
    out of fuel. *)

Lemma tf_index_raise (i : Z) :
  match tf_index i with
  | Ok _ => True
  | Raise e => e = InvalidArgumentError
  | OutOfFuel => False
  end.
Proof.
  unfold tf_index.
  destruct ((0 <=? i) && (i <? 8)); [exact I|].
  destruct ((-8 <=? i) && (i <? 0)); [exact I|reflexivity].
Qed.

(** ** Loops *)

Lemma for_each_inv {A S : Type} (P : S -> Prop) (xs : list A)
  (body : A -> S -> res S) :
  (forall x s, In x xs -> P s -> exists s', body x s = Ok s' /\ P s') ->
  forall s, P s -> exists s', for_each xs body s = Ok s' /\ P s'.
Proof.
  induction xs as [|x xs IH]; intros Hbody s Hs; simpl.
  - eauto.
  - destruct (Hbody x s (or_introl eq_refl) Hs) as (s1 & E & H1).
    rewrite E; simpl.
    apply IH; [|exact H1].
    intros y t Hy. apply Hbody. now right.
Qed.

Lemma Ok_inj {A : Type} (a b : A) : Ok a = Ok b -> a = b.
Proof. intros H. congruence. Qed.

Lemma bind_res_ok_inv {A B : Type} (m : res A) (k : A -> res B) (b : B) :
  bind_res m k = Ok b -> exists a, m = Ok a /\ k a = Ok b.
Proof.
  destruct m as [a|e|]; simpl; intros H; try discriminate. eauto.
Qed.

Lemma bind_res_ext {A B : Type} (m1 m2 : res A) (k1 k2 : A -> res B) :
  m1 = m2 -> (forall a, k1 a = k2 a) -> bind_res m1 k1 = bind_res m2 k2.
Proof.
  intros -> H. destruct m2; simpl; auto.
Qed.

Lemma for_each_pres {A S : Type} (P : S -> Prop) (xs : list A)
  (body : A -> S -> res S) :
  (forall x s s', body x s = Ok s' -> P s -> P s') ->
  forall s s', for_each xs body s = Ok s' -> P s -> P s'.
Proof.
  intros Hbody. induction xs as [|x xs IH]; intros s s' H Hs; simpl in H.
  - apply Ok_inj in H. now subst.
  - apply bind_res_ok_inv in H as (s1 & H1 & H2).
    eapply IH; [exact H2|]. eapply Hbody; eassumption.
Qed.

Lemma for_each_ext {A S : Type} (xs : list A) (body1 body2 : A -> S -> res S) :
  (forall x s, In x xs -> body1 x s = body2 x s) ->
  forall s, for_each xs body1 s = for_each xs body2 s.
Proof.
  induction xs as [|x xs IH]; intros Hbody s; simpl; [reflexivity|].
  rewrite (Hbody x s (or_introl eq_refl)).
  destruct (body2 x s); simpl; auto.
  apply IH. intros y t Hy. apply Hbody. now right.
Qed.

(** ** Move generation *)

Lemma room_bound (dr dc r c : Z) : 0 <= room dr dc r c <= 8.
Proof.
  unfold room.
  destruct (in_bounds r c) eqn:E; cbn [negb]; [|lia].
  apply in_bounds_spec in E.
  eqb_cases; lia.
Qed.

Lemma room_step (dr dc r c : Z) :
  In (dr, dc) queen_dirs -> in_bounds r c = true ->
  room dr dc (r + dr) (c + dc) < room dr dc r c.
Proof.
  intros Hd E. unfold room. rewrite E; cbn [negb].
  apply in_bounds_spec in E.
  destruct (in_bounds (r + dr) (c + dc)) eqn:E'; cbn [negb];
    [apply in_bounds_spec in E' | apply in_bounds_false in E'];
    simpl in Hd;
    repeat (destruct Hd as [Hd|Hd];
            [injection Hd as <- <-; eqb_cases; lia|]);
    contradiction.
Qed.

Lemma on_board_weaken (ep : option square) (moves : list square) :
  Forall on_board moves -> Forall (on_board_or_target ep) moves.
Proof.
  apply Forall_impl. intros s H. now left.
Qed.

Section GeneratorFacts.

Variable lookup : Z -> Z -> res Z.
Variable f : Z -> Z -> Z.
Variable rights : castling_rights.
Variable en_passant_target : option square.

(** On the board the lookup returns the occupant. *)
Hypothesis lookup_in :
  forall r c, in_bounds r c = true -> lookup r c = Ok (f r c).

Lemma ray_loop_spec (white : bool) (dr dc : Z) :
  In (dr, dc) queen_dirs ->
  forall (fuel : nat) (r c : Z) (moves : list square),
    room dr dc r c < Z.of_nat fuel ->
    exists n : nat,
      (forall k, 0 <= k < Z.of_nat n ->
         in_bounds (r + k * dr) (c + k * dc) = true /\
         f (r + k * dr) (c + k * dc) = 0) /\
      let r' := r + Z.of_nat n * dr in
      let c' := c + Z.of_nat n * dc in
      (in_bounds r' c' = true -> f r' c' <> 0) /\
      ray_loop lookup fuel white dr dc r c moves =
        Ok (moves ++
            map (fun k => (r + k * dr, c + k * dc))
                (map Z.of_nat (seq 0 n)) ++
            (if in_bounds r' c' && opposing white (f r' c')
             then [(r', c')] else [])).
Proof.
  intros Hd.
  induction fuel as [|fuel IH]; intros r c moves Hroom.
  - pose proof (room_bound dr dc r c). lia.
  - simpl ray_loop.
    destruct (in_bounds r c) eqn:E.
    + rewrite (lookup_in r c E); simpl bind_res.
      destruct (f r c =? 0) eqn:E0.
      * apply Z.eqb_eq in E0.
        pose proof (room_step dr dc r c Hd E) as Hstep.
        destruct (IH (r + dr) (c + dc) (moves ++ [(r, c)])) as
          (n & Hempty & Hstop & Hres); [lia|].
        exists (S n).
        replace (r + Z.of_nat (S n) * dr) with (r + dr + Z.of_nat n * dr)
          by lia.
        replace (c + Z.of_nat (S n) * dc) with (c + dc + Z.of_nat n * dc)
          by lia.
        split; [|split].
        -- intros k Hk.
           destruct (Z.eq_dec k 0) as [->|Hk0].
           ++ rewrite !Z.mul_0_l, !Z.add_0_r. now split.
           ++ specialize (Hempty (k - 1) ltac:(lia)).
              replace (r + dr + (k - 1) * dr) with (r + k * dr)
                in Hempty by lia.
              replace (c + dc + (k - 1) * dc) with (c + k * dc)
                in Hempty by lia.
              exact Hempty.
        -- exact Hstop.
        -- rewrite Hres, <- app_assoc. f_equal.
           change (seq 0 (S n)) with (0%nat :: seq 1 n).
           cbn [map app]. change (Z.of_nat 0) with 0.
           rewrite !Z.mul_0_l, !Z.add_0_r. f_equal. f_equal.
           rewrite <- seq_shift, !map_map. f_equal.
           apply map_ext. intros k.
           f_equal; lia.
      * exists O. change (Z.of_nat 0) with 0. cbv zeta.
        rewrite !Z.mul_0_l, !Z.add_0_r, E. cbn [seq map app andb].
        split; [intros k Hk; lia|].
        split; [intros _; now apply Z.eqb_neq|].
        unfold opposing. rewrite E0. cbn [negb andb].
        destruct (negb (Bool.eqb (f r c <=? 6) white));
          [reflexivity | now rewrite app_nil_r].
    + exists O. change (Z.of_nat 0) with 0. cbv zeta.
      rewrite !Z.mul_0_l, !Z.add_0_r, E. cbn [seq map app andb].
      split; [intros k Hk; lia|].
      split; [congruence|].
      now rewrite app_nil_r.
Qed.

Lemma ray_from_origin (white : bool) (row col dr dc : Z)
  (moves : list square) :
  In (dr, dc) queen_dirs ->
  exists cands,
    ray_candidates f white row col dr dc cands /\
    ray_loop lookup ray_fuel white dr dc (row + dr) (col + dc) moves =
      Ok (moves ++ cands).
Proof.
  intros Hd.
  destruct (ray_loop_spec white dr dc Hd ray_fuel (row + dr) (col + dc)
              moves) as (n & Hempty & Hstop & Hres).
  { pose proof (room_bound dr dc (row + dr) (col + dc)).
    unfold ray_fuel. lia. }
  cbv zeta in Hstop.
  replace (row + dr + Z.of_nat n * dr) with (row + (Z.of_nat n + 1) * dr)
    in * by lia.
  replace (col + dc + Z.of_nat n * dc) with (col + (Z.of_nat n + 1) * dc)
    in * by lia.
  eexists. split; [|exact Hres].
  exists n. split; [|split].
  - intros k Hk. specialize (Hempty (k - 1) ltac:(lia)).
    replace (row + dr + (k - 1) * dr) with (row + k * dr) in Hempty by lia.
    replace (col + dc + (k - 1) * dc) with (col + k * dc) in Hempty by lia.
    exact Hempty.
  - exact Hstop.
  - rewrite <- seq_shift, !map_map.
    apply (f_equal (fun l => l ++ _)).
    apply map_ext. intros k. unfold ray_square. f_equal; lia.
Qed.

Lemma slide_spec (white : bool) (row col : Z) (dirs : list (Z * Z)) :
  incl dirs queen_dirs ->
  exists css,
    Forall2 (fun d cs => ray_candidates f white row col (fst d) (snd d) cs)
            dirs css /\
    slide lookup white row col dirs = Ok (concat css).
Proof.
  intros Hdirs. unfold slide.
  enough (G : forall moves,
             exists css,
               Forall2 (fun d cs =>
                          ray_candidates f white row col (fst d) (snd d) cs)
                       dirs css /\
               for_each dirs
                 (fun '(dr, dc) moves =>
                    ray_loop lookup ray_fuel white dr dc
                             (row + dr) (col + dc) moves)
                 moves = Ok (moves ++ concat css))
    by exact (G []).
  induction dirs as [|[dr dc] dirs IH]; intros moves.
  - exists []. split; [constructor|]. simpl. now rewrite app_nil_r.
  - destruct (ray_from_origin white row col dr dc moves) as
      (cs & Hcs & Hray); [apply Hdirs; now left|].
    destruct (IH (fun d H => Hdirs d (or_intror H)) (moves ++ cs)) as
      (css & Hcss & Hrest).
    exists (cs :: css). split; [constructor; assumption|].
    cbn [for_each]. rewrite Hray. cbn [bind_res].
    rewrite Hrest. cbn [concat]. now rewrite app_assoc.
Qed.

(** Every candidate is a square of the board. *)

Lemma step_to_on_board (white : bool) (r c : Z) (moves : list square) :
  Forall on_board moves ->
  exists moves',
    step_to lookup white r c moves = Ok moves' /\ Forall on_board moves'.
Proof.
  intros Hm. unfold step_to.
  destruct (in_bounds r c) eqn:E; [|eauto].
  rewrite (lookup_in r c E). cbn [bind_res].
  destruct ((f r c =? 0) || negb (Bool.eqb (f r c <=? 6) white));
    eexists; split; try reflexivity; auto.
  apply Forall_app. split; [exact Hm|]. constructor; [exact E|constructor].
Qed.

Lemma king_steps_on_board (white : bool) (row col : Z) :
  exists moves,
    king_steps lookup white row col = Ok moves /\ Forall on_board moves.
Proof.
  unfold king_steps.
  apply for_each_inv with (P := Forall on_board); [|constructor].
  intros dr moves _ Hm.
  apply for_each_inv with (P := Forall on_board); [|exact Hm].
  intros dc moves' _ Hm'.
  destruct ((dr =? 0) && (dc =? 0)); [eauto|].
  now apply step_to_on_board.
Qed.

Lemma knight_moves_on_board (white : bool) (row col : Z) :
  exists moves,
    knight_moves lookup white row col = Ok moves /\ Forall on_board moves.
Proof.
  unfold knight_moves.
  apply for_each_inv with (P := Forall on_board); [|constructor].
  intros [dr dc] moves _ Hm. now apply step_to_on_board.
Qed.

Lemma castling_candidates_on_board (white : bool) (sr : Z)
  (moves : list square) :
  0 <= sr < 8 -> Forall on_board moves ->
  exists moves',
    castling_candidates lookup rights white sr moves = Ok moves' /\
    Forall on_board moves'.
Proof.
  intros Hsr Hm.
  assert (Hin : forall c, 0 <= c < 8 -> lookup sr c = Ok (f sr c))
    by (intros c Hc; apply lookup_in, in_bounds_spec; lia).
  assert (Hsq : forall c, 0 <= c < 8 -> on_board (sr, c))
    by (intros c Hc; apply in_bounds_spec; simpl; lia).
  unfold castling_candidates.
  rewrite !Hin by lia. cbn [bind_res].
  repeat match goal with
         | |- context [if ?x then _ else _] => destruct x
         end;
    cbn [bind_res]; eexists; (split; [reflexivity|]);
    repeat (apply Forall_app; split);
    try exact Hm; repeat constructor; apply Hsq; lia.
Qed.

Lemma king_moves_on_board (white : bool) (row col : Z) :
  0 <= row < 8 ->
  exists moves,
    king_moves lookup rights white row col = Ok moves /\
    Forall on_board moves.
Proof.
  intros Hrow. unfold king_moves.
  destruct (king_steps_on_board white row col) as (ms & -> & Hms).
  cbn [bind_res].
  rewrite !lookup_in by (apply in_bounds_spec; lia). cbn [bind_res].
  now apply castling_candidates_on_board.
Qed.

Lemma ray_candidates_on_board (white : bool) (row col dr dc : Z)
  (cands : list square) :
  ray_candidates f white row col dr dc cands -> Forall on_board cands.
Proof.
  intros (n & Hempty & _ & ->).
  apply Forall_app. split.
  - apply Forall_forall. intros s Hs.
    apply in_map_iff in Hs as (k & <- & Hk).
    apply in_map_iff in Hk as (i & <- & Hi).
    apply in_seq in Hi.
    apply (Hempty (Z.of_nat i)). lia.
  - destruct (in_bounds _ _) eqn:E; cbn [andb]; [|constructor].
    destruct (opposing _ _); constructor; [exact E|constructor].
Qed.

Lemma slide_on_board (white : bool) (row col : Z) (dirs : list (Z * Z)) :
  incl dirs queen_dirs ->
  exists moves,
    slide lookup white row col dirs = Ok moves /\ Forall on_board moves.
Proof.
  intros Hdirs.
  destruct (slide_spec white row col dirs Hdirs) as (css & Hrays & ->).
  eexists. split; [reflexivity|].
  induction Hrays as [|d cs dirs' css' Hcs _ IH]; cbn [concat].
  - constructor.
  - apply Forall_app. split.
    + eapply ray_candidates_on_board. exact Hcs.
    + apply IH. intros x Hx. apply Hdirs. now right.
Qed.

Lemma pawn_moves_on_board (white : bool) (row col : Z) :
  exists moves,
    pawn_moves lookup en_passant_target white row col = Ok moves /\
    Forall (on_board_or_target en_passant_target) moves.
Proof.
  unfold pawn_moves.
  set (d := if white then -1 else 1).
  set (start_row := if white then 6 else 1).
  assert (Hfwd :
    exists ms,
      (if in_bounds (row + d) col then
         bind_res (lookup (row + d) col) (fun t =>
           if t =? 0 then
             if row =? start_row then
               bind_res (lookup (row + 2 * d) col) (fun t2 =>
                 Ok (if t2 =? 0
                     then [(row + d, col)] ++ [(row + 2 * d, col)]
                     else [(row + d, col)]))
             else Ok [(row + d, col)]
           else Ok [])
       else Ok []) = Ok ms /\ Forall on_board ms).
  { destruct (in_bounds (row + d) col) eqn:E; [|eauto].
    rewrite (lookup_in _ _ E). cbn [bind_res].
    destruct (f (row + d) col =? 0); [|eauto].
    destruct (Z.eqb_spec row start_row) as [Hs|Hs].
    - assert (E2 : in_bounds (row + 2 * d) col = true).
      { apply in_bounds_spec in E. apply in_bounds_spec.
        subst d start_row. destruct white; lia. }
      rewrite (lookup_in _ _ E2). cbn [bind_res].
      destruct (f (row + 2 * d) col =? 0); eexists;
        (split; [reflexivity|]); repeat constructor; assumption.
    - eexists. split; [reflexivity|]. repeat constructor; assumption. }
  destruct Hfwd as (ms & -> & Hms). cbn [bind_res].
  match goal with
  | |- context [@for_each ?A ?S ?xs ?body ms] =>
      destruct (@for_each_inv A S (Forall on_board) xs body) with (s := ms)
        as (ms' & -> & Hms')
  end.
  { intros dc moves _ Hm. cbv zeta.
    destruct (in_bounds (row + d) (col + dc)) eqn:E; [|eauto].
    unfold is_enemy. rewrite (lookup_in _ _ E). cbn [bind_res].
    destruct (negb _ && _); eexists; (split; [reflexivity|]); auto.
    apply Forall_app. split; [exact Hm|].
    constructor; [exact E|constructor]. }
  { exact Hms. }
  cbn [bind_res]. eexists. split; [reflexivity|].
  apply (on_board_weaken en_passant_target) in Hms'.
  destruct en_passant_target as [[er ec]|]; [|exact Hms'].
  destruct (_ && _ && _); [|exact Hms'].
  apply Forall_app. split; [exact Hms'|].
  constructor; [now right|constructor].
Qed.

Lemma get_possible_moves_on_board (row col : Z) :
  in_bounds row col = true ->
  exists moves,
    get_possible_moves lookup rights en_passant_target row col = Ok moves /\
    Forall (on_board_or_target en_passant_target) moves.
Proof.
  intros Hrc. unfold get_possible_moves.
  rewrite (lookup_in _ _ Hrc). cbn [bind_res].
  apply in_bounds_spec in Hrc.
  destruct (f row col =? 0); [eexists; split; [reflexivity|constructor]|].
  set (white := f row col <=? 6).
  set (ptype := if white then f row col else f row col - 6).
  destruct (ptype =? 1); [now apply pawn_moves_on_board|].
  assert (Hweak : forall m : res (list square),
            (exists moves, m = Ok moves /\ Forall on_board moves) ->
            exists moves,
              m = Ok moves /\
              Forall (on_board_or_target en_passant_target) moves).
  { intros m (moves & E & H). exists moves. split; [exact E|].
    now apply on_board_weaken. }
  apply Hweak.
  destruct (ptype =? 2);
    [apply slide_on_board; intros d Hd; simpl in *; tauto|].
  destruct (ptype =? 4);
    [apply slide_on_board; intros d Hd; simpl in *; tauto|].
  destruct (ptype =? 5); [apply slide_on_board; apply incl_refl|].
  destruct (ptype =? 6); [apply king_moves_on_board; lia|].
  destruct (ptype =? 3); [apply knight_moves_on_board|].
  eexists; split; [reflexivity|constructor].
Qed.

(** The king branch. *)

Lemma king_steps_near (white : bool) (row col : Z) :
  exists moves,
    king_steps lookup white row col = Ok moves /\
    Forall (fun s => Z.abs (snd s - col) <= 1) moves.
Proof.
  unfold king_steps.
  apply for_each_inv with (P := Forall (fun s => Z.abs (snd s - col) <= 1));
    [|constructor].
  intros dr moves _ Hm.
  apply for_each_inv with (P := Forall (fun s => Z.abs (snd s - col) <= 1));
    [|exact Hm].
  intros dc moves' Hdc Hm'.
  destruct ((dr =? 0) && (dc =? 0)); [eauto|].
  unfold step_to.
  destruct (in_bounds (row + dr) (col + dc)) eqn:E; [|eauto].
  rewrite (lookup_in _ _ E). cbn [bind_res].
  destruct (_ || _); eexists; (split; [reflexivity|]); auto.
  apply Forall_app. split; [exact Hm'|].
  constructor; [|constructor]. simpl in *. lia.
Qed.

Lemma castling_candidates_eq (white : bool) (sr : Z)
  (moves : list square) :
  0 <= sr < 8 ->
  castling_candidates lookup rights white sr moves =
    Ok (moves
        ++ (if kingside_ready f rights white sr then [(sr, 6)] else [])
        ++ (if queenside_ready f rights white sr then [(sr, 2)] else [])).
Proof.
  intros Hsr.
  assert (Hin : forall c, 0 <= c < 8 -> lookup sr c = Ok (f sr c))
    by (intros c Hc; apply lookup_in, in_bounds_spec; lia).
  unfold castling_candidates, kingside_ready, queenside_ready, rook_code.
  rewrite !Hin by lia. cbn [bind_res].
  destruct white, rights as [wk bk wrk wrq brk brq]; cbn;
    destruct wk, bk, wrk, wrq, brk, brq; cbn;
    repeat match goal with
           | |- context [?a =? ?b] => destruct (a =? b); cbn
           end;
    rewrite ?app_nil_r, <- ?app_assoc; reflexivity.
Qed.

End GeneratorFacts.

Lemma sliding_dirs_incl (code : Z) (dirs : list (Z * Z)) :
  sliding_dirs code = Some dirs -> incl dirs queen_dirs.
Proof.
  unfold sliding_dirs.
  destruct ((code =? 2) || (code =? 8));
    [|destruct ((code =? 4) || (code =? 10));
      [|destruct ((code =? 5) || (code =? 11))]];
    intros E; try discriminate; injection E as <-;
    intros d Hd; simpl in *; tauto.
Qed.

Lemma get_possible_moves_sliding (lookup : Z -> Z -> res Z)
  (cr : castling_rights)
  (ep : option square) (row col code : Z) (dirs : list (Z * Z)) :
  lookup row col = Ok code -> sliding_dirs code = Some dirs ->
  get_possible_moves lookup cr ep row col =
    slide lookup (code <=? 6) row col dirs.
Proof.
  intros Hcode Hdirs. unfold get_possible_moves. rewrite Hcode. cbn [bind_res].
  unfold sliding_dirs in Hdirs.
  destruct (Z.eqb_spec code 2) as [->|N2]; [now injection Hdirs as <-|].
  destruct (Z.eqb_spec code 8) as [->|N8]; [now injection Hdirs as <-|].
  destruct (Z.eqb_spec code 4) as [->|N4]; [now injection Hdirs as <-|].
  destruct (Z.eqb_spec code 10) as [->|N10]; [now injection Hdirs as <-|].
  destruct (Z.eqb_spec code 5) as [->|N5]; [now injection Hdirs as <-|].
  destruct (Z.eqb_spec code 11) as [->|N11]; [now injection Hdirs as <-|].
  discriminate.
Qed.

(** C7. For every board, every origin holding a sliding piece (rook, bishop
    or queen of either side) and every ray direction of that piece, the
    candidates generated along the ray are exactly the consecutive empty
    squares outward from the origin, followed by the first occupied square
    if and only if it holds an opposing occupant; the candidate list of the
    piece is the concatenation of these ray lists, so none lies beyond the
    first occupied square of its ray. *)
Theorem sliding_rays_stop_at_first_occupied
  (b : tensor) (cr : castling_rights) (ep : option square)
  (row col code : Z) (dirs : list (Z * Z)) :
  get_piece b row col = Ok code ->
  sliding_dirs code = Some dirs ->
  exists css : list (list square),
    get_possible_moves (get_piece b) cr ep row col = Ok (concat css) /\
    Forall2
      (fun d cands =>
         ray_candidates (occupant b) (code <=? 6) row col (fst d) (snd d)
                        cands)
      dirs css.
Proof.
  intros Hcode Hdirs.
  rewrite (get_possible_moves_sliding _ cr ep row col code dirs Hcode Hdirs).
  destruct (slide_spec (get_piece b) (occupant b) (get_piece_in b)
              (code <=? 6) row col dirs (sliding_dirs_incl code dirs Hdirs))
    as (css & Hrays & Hres).
  exists css. split; assumption.
Qed.

Lemma sliding_rays_stop_at_first_occupied_witness :
  exists css : list (list square),
    get_possible_moves (get_piece sample_board) no_rights_used None 4 3
      = Ok (concat css) /\
    Forall2
      (fun d cands =>
         ray_candidates (occupant sample_board) true 4 3 (fst d) (snd d)
                        cands)
      queen_dirs css.
Proof.
  apply (sliding_rays_stop_at_first_occupied
           sample_board no_rights_used None 4 3 5 queen_dirs);
    reflexivity.
Defined.

(** Two lookups that agree on the board give the same candidates: every
    lookup of the generator is made under an [in_bounds] test, or at a
    coordinate that is on the board because the origin is. *)

Section Agreement.

Variables lookup1 lookup2 : Z -> Z -> res Z.
Variable rights : castling_rights.
Variable en_passant_target : option square.

Hypothesis agree :
  forall r c, in_bounds r c = true -> lookup1 r c = lookup2 r c.

Lemma step_to_agree (white : bool) (r c : Z) (moves : list square) :
  step_to lookup1 white r c moves = step_to lookup2 white r c moves.
Proof.
  unfold step_to. destruct (in_bounds r c) eqn:E; [|reflexivity].
  now rewrite (agree r c E).
Qed.

Lemma ray_loop_agree (white : bool) (dr dc : Z) (fuel : nat) :
  forall r c moves,
    ray_loop lookup1 fuel white dr dc r c moves =
    ray_loop lookup2 fuel white dr dc r c moves.
Proof.
  induction fuel as [|fuel IH]; intros r c moves; simpl; [reflexivity|].
  destruct (in_bounds r c) eqn:E; [|reflexivity].
  rewrite (agree r c E).
  destruct (lookup2 r c) as [t| |]; cbn [bind_res]; try reflexivity.
  destruct (t =? 0); [apply IH|reflexivity].
Qed.

Lemma slide_agree (white : bool) (row col : Z) (dirs : list (Z * Z)) :
  slide lookup1 white row col dirs = slide lookup2 white row col dirs.
Proof.
  unfold slide. apply for_each_ext.
  intros [dr dc] moves _. apply ray_loop_agree.
Qed.

Lemma king_steps_agree (white : bool) (row col : Z) :
  king_steps lookup1 white row col = king_steps lookup2 white row col.
Proof.
  unfold king_steps. apply for_each_ext. intros dr moves _.
  apply for_each_ext. intros dc moves' _.
  destruct ((dr =? 0) && (dc =? 0)); [reflexivity|apply step_to_agree].
Qed.

Lemma knight_moves_agree (white : bool) (row col : Z) :
  knight_moves lookup1 white row col = knight_moves lookup2 white row col.
Proof.
  unfold knight_moves. apply for_each_ext.
  intros [dr dc] moves _. apply step_to_agree.
Qed.

Lemma castling_candidates_agree (white : bool) (sr : Z)
  (moves : list square) :
  0 <= sr < 8 ->
  castling_candidates lookup1 rights white sr moves =
  castling_candidates lookup2 rights white sr moves.
Proof.
  intros Hsr.
  assert (Hin : forall c, 0 <= c < 8 -> lookup1 sr c = lookup2 sr c)
    by (intros c Hc; apply agree, in_bounds_spec; lia).
  unfold castling_candidates.
  rewrite !Hin by lia. reflexivity.
Qed.

Lemma king_moves_agree (white : bool) (row col : Z) :
  0 <= row < 8 ->
  king_moves lookup1 rights white row col =
  king_moves lookup2 rights white row col.
Proof.
  intros Hrow. unfold king_moves.
  rewrite king_steps_agree.
  rewrite !(agree row) by (apply in_bounds_spec; lia).
  destruct (king_steps lookup2 white row col); cbn [bind_res];
    try reflexivity.
  destruct (lookup2 row 7); cbn [bind_res]; try reflexivity.
  destruct (lookup2 row 0); cbn [bind_res]; try reflexivity.
  now apply castling_candidates_agree.
Qed.

Lemma pawn_moves_agree (white : bool) (row col : Z) :
  pawn_moves lookup1 en_passant_target white row col =
  pawn_moves lookup2 en_passant_target white row col.
Proof.
  unfold pawn_moves.
  set (d := if white then -1 else 1).
  set (start_row := if white then 6 else 1).
  apply bind_res_ext.
  - destruct (in_bounds (row + d) col) eqn:E; [|reflexivity].
    rewrite (agree _ _ E).
    destruct (lookup2 (row + d) col) as [t| |]; cbn [bind_res];
      try reflexivity.
    destruct (t =? 0); [|reflexivity].
    destruct (Z.eqb_spec row start_row) as [Hs|Hs]; [|reflexivity].
    rewrite agree; [reflexivity|].
    apply in_bounds_spec in E. apply in_bounds_spec.
    subst d start_row. destruct white; lia.
  - intros ms. apply bind_res_ext; [|reflexivity].
    apply for_each_ext. intros dc moves _. cbv zeta.
    destruct (in_bounds (row + d) (col + dc)) eqn:E; [|reflexivity].
    unfold is_enemy. now rewrite (agree _ _ E).
Qed.

Lemma get_possible_moves_agree (row col : Z) :
  in_bounds row col = true ->
  get_possible_moves lookup1 rights en_passant_target row col =
  get_possible_moves lookup2 rights en_passant_target row col.
Proof.
  intros Hrc. unfold get_possible_moves. rewrite (agree _ _ Hrc).
  apply in_bounds_spec in Hrc.
  destruct (lookup2 row col) as [code| |]; cbn [bind_res];
    try reflexivity.
  destruct (code =? 0); [reflexivity|].
  set (white := code <=? 6).
  set (ptype := if white then code else code - 6).
  destruct (ptype =? 1); [apply pawn_moves_agree|].
  destruct (ptype =? 2); [apply slide_agree|].
  destruct (ptype =? 4); [apply slide_agree|].
  destruct (ptype =? 5); [apply slide_agree|].
  destruct (ptype =? 6); [apply king_moves_agree; lia|].
  destruct (ptype =? 3); [apply knight_moves_agree|].
  reflexivity.
Qed.

End Agreement.

(** C9. For every board and every in-bounds origin, move generation looks
    up occupants on in-bounds coordinates only: run with a lookup that
    faults outside the board it returns what it returns with the program's
    [get_piece], a list of candidates.  Every candidate it computes is in
    bounds; the one candidate it does not compute, the en-passant target, is
    returned as it is stored, so that all candidates are in bounds when the
    stored target is a square of the board, as every stored square is. *)
Theorem generation_stays_on_board
  (b : tensor) (cr : castling_rights) (ep : option square) (row col : Z) :
  in_bounds row col = true ->
  exists moves : list square,
    get_possible_moves (checked_get_piece b) cr ep row col = Ok moves /\
    get_possible_moves (get_piece b) cr ep row col = Ok moves /\
    (forall r c,
       In (r, c) moves -> (0 <= r < 8 /\ 0 <= c < 8) \/ ep = Some (r, c)) /\
    (target_on_board ep ->
     forall r c, In (r, c) moves -> 0 <= r < 8 /\ 0 <= c < 8).
Proof.
  intros Hrc.
  destruct (get_possible_moves_on_board (get_piece b) (occupant b) cr ep
              (get_piece_in b) row col Hrc) as (moves & Hgen & Hon).
  rewrite Forall_forall in Hon.
  exists moves. split; [|split; [|split]].
  - rewrite <- Hgen. apply get_possible_moves_agree; [|exact Hrc].
    intros r c E. unfold checked_get_piece. now rewrite E.
  - exact Hgen.
  - intros r c Hin.
    destruct (Hon (r, c) Hin) as [H|H]; [left|now right].
    apply in_bounds_spec. exact H.
  - intros Hep r c Hin. apply in_bounds_spec.
    destruct (Hon (r, c) Hin) as [H|H]; [exact H|].
    rewrite H in Hep. exact Hep.
Qed.

Lemma generation_stays_on_board_witness :
  exists moves : list square,
    get_possible_moves (checked_get_piece (board en_passant_game))
             (rights en_passant_game) (en_passant_target en_passant_game)
             3 4 = Ok moves /\
    get_possible_moves (get_piece (board en_passant_game))
             (rights en_passant_game) (en_passant_target en_passant_game)
             3 4 = Ok moves /\
    (forall r c,
       In (r, c) moves ->
       (0 <= r < 8 /\ 0 <= c < 8) \/
       en_passant_target en_passant_game = Some (r, c)) /\
    (target_on_board (en_passant_target en_passant_game) ->
     forall r c, In (r, c) moves -> 0 <= r < 8 /\ 0 <= c < 8).
Proof.
  apply (generation_stays_on_board (board en_passant_game)
           (rights en_passant_game) (en_passant_target en_passant_game)
           3 4).
  reflexivity.
Defined.

(** ** Castling: generation and eligibility *)

Lemma is_castling_move_kingside (b : tensor) (cr : castling_rights)
  (white : bool) :
  is_castling_move b cr (home_rank white) 4 (home_rank white) 6 white =
    Ok (kingside_ready (occupant b) cr white (home_rank white)).
Proof.
  unfold is_castling_move, kingside_ready, rook_code, home_rank.
  destruct white, cr as [wk bk wrk wrq brk brq];
    rewrite !get_piece_in by reflexivity; cbn -[occupant];
    destruct wk, bk, wrk, wrq, brk, brq; cbn -[occupant]; try reflexivity;
    repeat match goal with
           | |- context [occupant ?x ?r ?c =? ?v] =>
               destruct (occupant x r c =? v); cbn -[occupant]
           end;
    reflexivity.
Qed.

Lemma is_castling_move_queenside (b : tensor) (cr : castling_rights)
  (white : bool) :
  is_castling_move b cr (home_rank white) 4 (home_rank white) 2 white =
    Ok (queenside_ready (occupant b) cr white (home_rank white)).
Proof.
  unfold is_castling_move, queenside_ready, rook_code, home_rank.
  destruct white, cr as [wk bk wrk wrq brk brq];
    rewrite !get_piece_in by reflexivity; cbn -[occupant];
    destruct wk, bk, wrk, wrq, brk, brq; cbn -[occupant]; try reflexivity;
    repeat match goal with
           | |- context [occupant ?x ?r ?c =? ?v] =>
               destruct (occupant x r c =? v); cbn -[occupant]
           end;
    reflexivity.
Qed.

Lemma get_possible_moves_king (lookup : Z -> Z -> res Z) (cr : castling_rights)
  (ep : option square) (white : bool) (row col : Z) :
  lookup row col = Ok (king_code white) ->
  get_possible_moves lookup cr ep row col = king_moves lookup cr white row col.
Proof.
  intros E. unfold get_possible_moves. rewrite E. now destruct white.
Qed.

(** C1, as amended. For every board, castling-rights state and side, when
    the king of that side stands on its start square (row 7 for White,
    row 0 for Black, column 4), the king branch of move generation offers
    the destination two columns left or right on the king's rank if and
    only if [is_castling_move] returns true for that origin and destination
    with that side to move. *)
Theorem castling_generation_matches_eligibility
  (b : tensor) (cr : castling_rights) (ep : option square) (white : bool)
  (sr sc er ec : Z) :
  get_piece b sr sc = Ok (king_code white) ->
  sr = home_rank white -> sc = 4 ->
  er = sr -> Z.abs (ec - sc) = 2 ->
  castling_consistent b cr ep white sr sc er ec.
Proof.
  intros Hking -> -> -> Hec.
  assert (Hhome : 0 <= home_rank white < 8) by (destruct white; simpl; lia).
  unfold castling_consistent.
  rewrite (get_possible_moves_king _ cr ep white _ _ Hking).
  unfold king_moves.
  destruct (king_steps_near (get_piece b) (occupant b) (get_piece_in b)
              white (home_rank white) 4) as (ms & -> & Hnear).
  cbn [bind_res].
  rewrite !get_piece_in by (apply in_bounds_spec; lia). cbn [bind_res].
  rewrite (castling_candidates_eq (get_piece b) (occupant b) cr
             (get_piece_in b) white (home_rank white) ms Hhome).
  eexists. split; [reflexivity|].
  assert (Hfar : ~ In (home_rank white, ec) ms).
  { intros Hin. rewrite Forall_forall in Hnear.
    specialize (Hnear _ Hin). simpl in Hnear. lia. }
  assert (Hcases : ec = 6 \/ ec = 2) by lia.
  destruct Hcases as [-> | ->].
  - rewrite is_castling_move_kingside.
    rewrite !in_app_iff.
    destruct (kingside_ready _ _ _ _), (queenside_ready _ _ _ _);
      simpl; split; intros H; try reflexivity; try tauto;
      try discriminate;
      repeat (destruct H as [H|H]); try contradiction;
      injection H; lia.
  - rewrite is_castling_move_queenside.
    rewrite !in_app_iff.
    destruct (kingside_ready _ _ _ _), (queenside_ready _ _ _ _);
      simpl; split; intros H; try reflexivity; try tauto;
      try discriminate;
      repeat (destruct H as [H|H]); try contradiction;
      injection H; lia.
Qed.

Lemma castling_generation_matches_eligibility_witness :
  castling_consistent sample_board no_rights_used None true 7 4 7 6.
Proof.
  apply castling_generation_matches_eligibility; reflexivity.
Defined.

(** C1, as stated, fails off the start square: with no castling flag set, a
    white king on e4 is offered g4, two columns to its right on its rank,
    because a white rook stands on h4 and f4, g4 are empty, while
    [is_castling_move] answers false for that pair, the origin not being
    e1. *)
Lemma castling_generation_off_home_counterexample :
  get_piece king_off_home_board 4 4 = Ok (king_code true) /\
  Z.abs (6 - 4) = 2 /\
  get_possible_moves (get_piece king_off_home_board) no_rights_used None 4 4 =
    Ok [(3, 3); (3, 4); (3, 5); (4, 3); (4, 5); (5, 3); (5, 4); (5, 5);
        (4, 6)] /\
  is_castling_move king_off_home_board no_rights_used 4 4 4 6 true
    = Ok false /\
  ~ castling_consistent king_off_home_board no_rights_used None true
      4 4 4 6.
Proof.
  repeat split; try reflexivity.
  intros (moves & Hgen & Hiff).
  vm_compute in Hgen. injection Hgen as <-.
  assert (Hin : In (4, 6)
                   [(3, 3); (3, 4); (3, 5); (4, 3); (4, 5); (5, 3); (5, 4);
                    (5, 5); (4, 6)]) by (simpl; tauto).
  apply Hiff in Hin. vm_compute in Hin. discriminate.
Qed.

(** ** The state monad *)

Lemma bind_ok_inv {A B : Type} (m : M A) (k : A -> M B) (g g' : game)
  (b : B) :
  bind m k g = (Ok b, g') ->
  exists a g1, m g = (Ok a, g1) /\ k a g1 = (Ok b, g').
Proof.
  unfold bind. destruct (m g) as [[a|e|] g1]; intros H;
    try discriminate. eauto.
Qed.

Lemma reading_inv {A : Type} (f : game -> res A) (g g' : game) (r : res A) :
  reading f g = (r, g') -> r = f g /\ g' = g.
Proof. unfold reading. intros H. injection H as <- <-. auto. Qed.

Lemma piece_at_inv (r c : Z) (g g' : game) (x : res Z) :
  piece_at r c g = (x, g') -> x = get_piece (board g) r c /\ g' = g.
Proof. unfold piece_at. intros H. now apply reading_inv in H. Qed.


(** Only the two lines typed by the player can raise [ValueError] or
    [IndexError]; the tensor operations raise TensorFlow's error, and no
    loop of the embedding is cut off. *)

Lemma faults_only_bind_res {A B : Type} (m : res A) (k : A -> res B) :
  faults_only m -> (forall a, faults_only (k a)) ->
  faults_only (bind_res m k).
Proof. intros Hm Hk. destruct m as [a|e|]; simpl in *; auto. Qed.

Lemma faults_only_get_piece (b : tensor) (r c : Z) :
  faults_only (get_piece b r c).
Proof.
  unfold get_piece.
  apply faults_only_bind_res; [apply tf_index_raise|intros i].
  apply faults_only_bind_res; [apply tf_index_raise|intros j].
  exact I.
Qed.

Lemma faults_only_set_piece (b : tensor) (r c v : Z) :
  faults_only (set_piece b r c v).
Proof.
  unfold set_piece.
  apply faults_only_bind_res; [apply tf_index_raise|intros i].
  apply faults_only_bind_res; [apply tf_index_raise|intros j].
  exact I.
Qed.

Lemma faults_only_for_each {A S : Type} (xs : list A)
  (body : A -> S -> res S) :
  (forall x s, In x xs -> faults_only (body x s)) ->
  forall s, faults_only (for_each xs body s).
Proof.
  induction xs as [|x xs IH]; intros Hbody s; simpl.
  - exact I.
  - apply faults_only_bind_res; [apply Hbody; now left|].
    apply IH. intros y t Hy. apply Hbody. now right.
Qed.

Ltac faults_res :=
  repeat first
    [ exact I
    | apply faults_only_get_piece
    | apply faults_only_set_piece
    | apply faults_only_bind_res; [|intros ?]
    | apply faults_only_for_each; intros ? ? ?
    | match goal with
      | H : forall r c, faults_only (?lookup r c)
        |- faults_only (?lookup _ _) => apply H
      | |- faults_only (if ?b then _ else _) => destruct b
      | |- faults_only (match ?x with _ => _ end) => destruct x
      end ].

Lemma faults_only_king_exists (b : tensor) (white : bool) :
  faults_only (king_exists b white).
Proof. unfold king_exists. faults_res. Qed.

Lemma faults_only_is_castling_move (b : tensor) (cr : castling_rights)
  (sr sc er ec : Z) (w : bool) :
  faults_only (is_castling_move b cr sr sc er ec w).
Proof. unfold is_castling_move. faults_res. Qed.

Lemma faults_only_is_en_passant (b : tensor) (ep : option square)
  (sr sc er ec : Z) (w : bool) :
  faults_only (is_en_passant b ep sr sc er ec w).
Proof. unfold is_en_passant. faults_res. Qed.

(** Generation returns within the iteration bound of its ray loops. *)

Section GeneratorReturns.

Variable lookup : Z -> Z -> res Z.
Variable rights : castling_rights.
Variable en_passant_target : option square.

Hypothesis lookup_faults_only : forall r c, faults_only (lookup r c).

Lemma faults_only_ray_loop (white : bool) (dr dc : Z) :
  In (dr, dc) queen_dirs ->
  forall (fuel : nat) (r c : Z) (moves : list square),
    room dr dc r c < Z.of_nat fuel ->
    faults_only (ray_loop lookup fuel white dr dc r c moves).
Proof.
  intros Hd. induction fuel as [|fuel IH]; intros r c moves Hroom.
  - pose proof (room_bound dr dc r c). lia.
  - simpl. destruct (in_bounds r c) eqn:E; [|exact I].
    apply faults_only_bind_res; [apply lookup_faults_only|intros t].
    destruct (t =? 0); [|exact I].
    apply IH. pose proof (room_step dr dc r c Hd E). lia.
Qed.

Lemma faults_only_slide (white : bool) (row col : Z)
  (dirs : list (Z * Z)) :
  incl dirs queen_dirs ->
  faults_only (slide lookup white row col dirs).
Proof.
  intros Hdirs. unfold slide.
  apply faults_only_for_each. intros [dr dc] moves Hin.
  apply faults_only_ray_loop; [now apply Hdirs|].
  pose proof (room_bound dr dc (row + dr) (col + dc)).
  unfold ray_fuel. lia.
Qed.

Lemma faults_only_generate (row col : Z) :
  faults_only (get_possible_moves lookup rights en_passant_target row col).
Proof.
  unfold get_possible_moves.
  apply faults_only_bind_res; [apply lookup_faults_only|intros code].
  destruct (code =? 0); [exact I|].
  set (white := code <=? 6).
  set (ptype := if white then code else code - 6).
  destruct (ptype =? 1);
    [unfold pawn_moves, is_enemy; faults_res|].
  destruct (ptype =? 2);
    [apply faults_only_slide; intros d Hd; simpl in *; tauto|].
  destruct (ptype =? 4);
    [apply faults_only_slide; intros d Hd; simpl in *; tauto|].
  destruct (ptype =? 5); [apply faults_only_slide; apply incl_refl|].
  destruct (ptype =? 6);
    [unfold king_moves, king_steps, step_to, castling_candidates;
     faults_res|].
  destruct (ptype =? 3);
    [unfold knight_moves, step_to; faults_res|].
  exact I.
Qed.

End GeneratorReturns.

Lemma faulting_only_ret {A : Type} (a : A) : faulting_only (ret a).
Proof. intros g. exact I. Qed.

Lemma faulting_only_bind {A B : Type} (m : M A) (k : A -> M B) :
  faulting_only m -> (forall a, faulting_only (k a)) ->
  faulting_only (bind m k).
Proof.
  intros Hm Hk g. unfold bind.
  specialize (Hm g). destruct (m g) as [[a|e|] g1]; simpl in *; auto.
  apply Hk.
Qed.

Lemma faulting_only_reading {A : Type} (f : game -> res A) :
  (forall g, faults_only (f g)) -> faulting_only (reading f).
Proof. intros H g. apply H. Qed.

Lemma faulting_only_modify (f : game -> game) : faulting_only (modify f).
Proof. intros g. exact I. Qed.

Lemma faulting_only_piece_at (r c : Z) : faulting_only (piece_at r c).
Proof. intros g. apply faults_only_get_piece. Qed.

Lemma faulting_only_put_piece (r c v : Z) :
  faulting_only (put_piece r c v).
Proof.
  intros g. unfold put_piece.
  pose proof (faults_only_set_piece (board g) r c v) as H.
  destruct (set_piece (board g) r c v); exact H.
Qed.

Lemma faulting_only_get_possible_moves (row col : Z) :
  faulting_only (possible_moves row col).
Proof.
  intros g. apply faults_only_generate. apply faults_only_get_piece.
Qed.

Ltac faults_game :=
  repeat first
    [ apply faulting_only_ret
    | apply faulting_only_modify
    | apply faulting_only_piece_at
    | apply faulting_only_put_piece
    | apply faulting_only_bind; [|intros ?]
    | apply faulting_only_reading; intros ?;
      first [ exact I | apply faults_only_king_exists
            | apply faults_only_is_castling_move
            | apply faults_only_is_en_passant ]
    | match goal with
      | |- faulting_only (if ?b then _ else _) => destruct b
      end ].

Lemma faulting_only_apply_move (sr sc scode er ec : Z) :
  faulting_only (apply_move sr sc scode er ec).
Proof.
  unfold apply_move, update_en_passant_target. faults_game.
Qed.

Lemma bind_inv {A B : Type} (m : M A) (k : A -> M B) (g g' : game)
  (r : res B) :
  bind m k g = (r, g') ->
  (exists a g1, m g = (Ok a, g1) /\ k a g1 = (r, g')) \/
  (exists e, m g = (Raise e, g') /\ r = Raise e) \/
  (m g = (OutOfFuel, g') /\ r = OutOfFuel).
Proof.
  unfold bind. destruct (m g) as [[a|e|] g1]; intros H.
  - left. eauto.
  - injection H as <- <-. right. left. eauto.
  - injection H as <- <-. right. right. auto.
Qed.

(** ** Selecting a move *)

Lemma py_index_In {A : Type} (l : list A) (idx : Z) (x : A) :
  py_index l idx = Ok x -> In x l.
Proof.
  unfold py_index.
  destruct (_ && _); [|discriminate].
  destruct (nth_error l _) as [y|] eqn:E; [|discriminate].
  intros H. injection H as <-. eapply nth_error_In. exact E.
Qed.

Ltac break_match H :=
  match type of H with
  | context [match ?x with _ => _ end] => destruct x eqn:?
  end.

Ltac split_pairs :=
  repeat match goal with
         | E : (_, _) = (_, _) |- _ => apply pair_equal_spec in E as [? ?]
         end.

(** [select] only reads the state. *)
Lemma select_reads (p : proposal) (g g' : game)
  (r : res (outcome + (square * Z * square))) :
  select p g = (r, g') -> g' = g.
Proof.
  unfold select, bind, lift, piece_at, possible_moves, reading, ret.
  intros H.
  repeat break_match H; split_pairs; subst; try discriminate;
    reflexivity.
Qed.

Lemma select_rejects (p : proposal) (g g' : game) (o : outcome) :
  select p g = (Ok (inl o), g') -> accepted o = false.
Proof.
  unfold select, bind, lift, piece_at, possible_moves, reading, ret.
  intros H.
  repeat break_match H; split_pairs; subst; try discriminate;
    match goal with
    | E : Ok _ = Ok _ |- _ => injection E as <-
    end; reflexivity.
Qed.

Lemma select_chooses (p : proposal) (g g' : game)
  (sr sc scode er ec : Z) :
  select p g = (Ok (inr ((sr, sc), scode, (er, ec))), g') ->
  start p = Some (sr, sc) /\
  get_piece (board g) sr sc = Ok scode /\
  scode <> 0 /\
  (scode <=? 6) = white_to_move g /\
  exists moves,
    get_possible_moves (get_piece (board g)) (rights g)
      (en_passant_target g) sr sc = Ok moves /\
    In (er, ec) moves.
Proof.
  unfold select, bind, lift, piece_at, possible_moves, reading, ret.
  intros H.
  repeat break_match H; split_pairs; subst; try discriminate.
  injection H as <- <- <- ->.
  match goal with
  | E : _ || _ = false |- _ =>
      apply orb_false_iff in E as [E1 E2];
      apply Z.eqb_neq in E1;
      apply negb_false_iff, eqb_prop in E2
  end.
  repeat split; try assumption.
  - destruct (start p); [now injection Heqr as ->|discriminate].
  - eexists. split; [eassumption|].
    eapply py_index_In. eassumption.
Qed.

(** ** One turn *)

Lemma finish_inv (g g' : game) (o : outcome) :
  finish g = (Ok o, g') ->
  exists alive : bool,
    king_exists (board g) (negb (white_to_move g)) = Ok alive /\
    if alive
    then o = Moved /\ g' = with_white_to_move (negb (white_to_move g)) g
    else o = Won (white_to_move g) /\ g' = g.
Proof.
  unfold finish, bind, reading, modify, ret. intros H.
  destruct (king_exists (board g) (negb (white_to_move g))) as [alive| |];
    try discriminate.
  exists alive. split; [reflexivity|].
  destruct alive; simpl in H; injection H as <- <-; auto.
Qed.

Lemma apply_move_inv (sr sc scode er ec : Z) (g g' : game) (o : outcome) :
  apply_move sr sc scode er ec g = (Ok o, g') ->
  exists g1 g2,
    relocate sr sc scode er ec g = (Ok tt, g1) /\
    handle_promotion er ec g1 = (Ok tt, g2) /\
    finish
      (with_en_passant_target
         (if ((scode =? 1) || (scode =? 7)) && (Z.abs (er - sr) =? 2)
          then Some ((sr + er) / 2, sc) else None) g2) = (Ok o, g').
Proof.
  unfold apply_move. intros H.
  apply bind_ok_inv in H as (target_piece & g0 & H0 & H).
  apply piece_at_inv in H0 as [_ ->].
  apply bind_ok_inv in H as ([] & g1 & H1 & H).
  apply bind_ok_inv in H as (before & g1' & Hb & H).
  apply piece_at_inv in Hb as [_ ->].
  apply bind_ok_inv in H as ([] & g2 & H2 & H).
  apply bind_ok_inv in H as (after & g2' & Ha & H).
  apply piece_at_inv in Ha as [_ ->].
  apply bind_ok_inv in H as ([] & g3 & H3 & H).
  unfold update_en_passant_target, modify in H3.
  injection H3 as <-.
  exists g1, g2. auto.
Qed.

Lemma apply_move_accepted (sr sc scode er ec : Z) (g g' : game)
  (o : outcome) :
  apply_move sr sc scode er ec g = (Ok o, g') -> accepted o = true.
Proof.
  intros H. apply apply_move_inv in H as (g1 & g2 & _ & _ & H).
  apply finish_inv in H as ([|] & _ & -> & _); reflexivity.
Qed.

Lemma turn_accepted_inv (p : proposal) (g g' : game) (o : outcome) :
  turn p g = (Ok o, g') -> accepted o = true ->
  exists sr sc scode er ec,
    select p g = (Ok (inr ((sr, sc), scode, (er, ec))), g) /\
    apply_move sr sc scode er ec g = (Ok o, g').
Proof.
  unfold turn, try_except. intros H Hacc.
  destruct (attempt p g) as [[o1|e|] g1] eqn:Ha.
  - injection H as -> ->.
    unfold attempt in Ha.
    apply bind_ok_inv in Ha as (s & g0 & Hs & Ha).
    pose proof (select_reads _ _ _ _ Hs) as ->.
    destruct s as [o'|[[[sr sc] scode] [er ec]]].
    + apply select_rejects in Hs. unfold ret in Ha.
      injection Ha as -> ->. congruence.
    + exists sr, sc, scode, er, ec. auto.
  - destruct e; try discriminate;
      unfold ret in H; injection H as <- <-; discriminate.
  - discriminate.
Qed.

Lemma turn_rejected_inv (p : proposal) (g g' : game) (o : outcome) :
  turn p g = (Ok o, g') -> accepted o = false -> g' = g.
Proof.
  unfold turn, try_except. intros H Hrej.
  destruct (attempt p g) as [[o1|e|] g1] eqn:Ha.
  - injection H as -> ->.
    unfold attempt in Ha.
    apply bind_ok_inv in Ha as (s & g0 & Hs & Ha).
    pose proof (select_reads _ _ _ _ Hs) as ->.
    destruct s as [o'|[[[sr sc] scode] [er ec]]].
    + unfold ret in Ha. now injection Ha as _ <-.
    + apply apply_move_accepted in Ha. congruence.
  - assert (Hsel : g1 = g).
    { unfold attempt in Ha.
      apply bind_inv in Ha as
          [(s & g0 & Hs & Ha) | [(e' & Hs & _) | [Hs _]]].
      - pose proof (select_reads _ _ _ _ Hs) as ->.
        destruct s as [o'|[[[sr sc] scode] [er ec]]];
          [discriminate|].
        pose proof (faulting_only_apply_move sr sc scode er ec g) as N.
        rewrite Ha in N. simpl in N. subst e. discriminate.
      - now apply select_reads in Hs.
      - now apply select_reads in Hs. }
    subst g1.
    destruct e; try discriminate; unfold ret in H; now injection H as _ <-.
  - discriminate.
Qed.

(** C2. For every game state, a turn proposal that is rejected (the origin
    is empty or holds a piece of the side not on move, the piece has no
    candidate, or a line typed by the player does not select one of the
    candidates) leaves the board, the six castling flags, the en-passant
    target and the side to move equal to what they were before the call:
    the state after the call is the state before it. *)
Theorem rejected_turn_leaves_state_unchanged
  (p : proposal) (g g' : game) (o : outcome) :
  turn p g = (Ok o, g') -> accepted o = false ->
  g' = g /\
  board g' = board g /\ rights g' = rights g /\
  en_passant_target g' = en_passant_target g.
Proof.
  intros Hturn Hrej.
  rewrite (turn_rejected_inv p g g' o Hturn Hrej). auto.
Qed.

Lemma rejected_turn_leaves_state_unchanged_witness :
  snd (turn empty_square_proposal new_game) = new_game /\
  board (snd (turn empty_square_proposal new_game)) = board new_game /\
  rights (snd (turn empty_square_proposal new_game)) = rights new_game /\
  en_passant_target (snd (turn empty_square_proposal new_game)) =
    en_passant_target new_game.
Proof.
  apply (rejected_turn_leaves_state_unchanged
           empty_square_proposal new_game _ NotYourPiece);
    reflexivity.
Defined.

(** Every pass through the loop body ends: with an outcome, or with
    TensorFlow's error leaving the loop. *)

Lemma halting_of_faulting_only {A : Type} (m : M A) :
  faulting_only m -> halting m.
Proof.
  intros H g E. specialize (H g). now rewrite E in H.
Qed.

Lemma halting_bind {A B : Type} (m : M A) (k : A -> M B) :
  halting m -> (forall a, halting (k a)) -> halting (bind m k).
Proof.
  intros Hm Hk g. unfold bind.
  specialize (Hm g). destruct (m g) as [[a|e|] g1]; simpl in *.
  - apply Hk.
  - discriminate.
  - now contradiction Hm.
Qed.

Lemma halting_ret {A : Type} (a : A) : halting (ret a).
Proof. intros g. discriminate. Qed.

Lemma halting_converted {A : Type} (line : option A) :
  halting (lift (converted line)).
Proof. intros g. destruct line; discriminate. Qed.

Lemma halting_py_index {A : Type} (l : list A) (idx : Z) :
  halting (lift (py_index l idx)).
Proof.
  intros g. unfold lift, py_index. simpl.
  destruct (_ && _); [|discriminate].
  destruct (nth_error l _); discriminate.
Qed.

Lemma halting_select (p : proposal) : halting (select p).
Proof.
  unfold select.
  apply halting_bind; [apply halting_converted|intros [sr sc]].
  apply halting_bind;
    [apply halting_of_faulting_only, faulting_only_piece_at|intros scode].
  apply halting_bind;
    [apply halting_of_faulting_only, faulting_only_reading; intros g;
     exact I|intros w].
  destruct (_ || _); [apply halting_ret|].
  apply halting_bind;
    [apply halting_of_faulting_only, faulting_only_get_possible_moves
    |intros moves].
  destruct moves as [|m moves]; [apply halting_ret|].
  apply halting_bind; [apply halting_converted|intros n].
  apply halting_bind; [apply halting_py_index|intros dest].
  apply halting_ret.
Qed.

Lemma halting_attempt (p : proposal) : halting (attempt p).
Proof.
  unfold attempt.
  apply halting_bind; [apply halting_select|].
  intros [o|[[[sr sc] scode] [er ec]]]; [apply halting_ret|].
  apply halting_of_faulting_only, faulting_only_apply_move.
Qed.

Lemma faulting_only_turn (p : proposal) : faulting_only (turn p).
Proof.
  intros g. unfold turn, try_except.
  pose proof (halting_attempt p g) as H.
  destruct (attempt p g) as [[o|e|] g1]; simpl in *.
  - exact I.
  - destruct e; simpl; auto.
  - congruence.
Qed.

Lemma play_loop_faults_only (inputs : list proposal) :
  forall g, faults_only (fst (play_loop inputs g)).
Proof.
  induction inputs as [|p rest IH]; intros g; simpl; [exact I|].
  pose proof (faulting_only_turn p g) as H.
  destruct (turn p g) as [[o|e|] g1]; simpl in *.
  - destruct o; try apply IH. exact I.
  - exact H.
  - exact H.
Qed.

(** ** The win check *)

Lemma In_range8 (x : Z) : In x (map Z.of_nat (seq 0 8)) <-> 0 <= x < 8.
Proof.
  rewrite in_map_iff. split.
  - intros (n & <- & Hn). apply in_seq in Hn. lia.
  - intros Hx. exists (Z.to_nat x). split; [lia|]. apply in_seq. lia.
Qed.

Lemma scan_row (b : tensor) (target r : Z) :
  0 <= r < 8 ->
  forall (cs : list Z) (found : bool),
    (forall c, In c cs -> 0 <= c < 8) ->
    for_each cs
      (fun (c : Z) (found : bool) =>
         if found then Ok true
         else bind_res (get_piece b r c) (fun t => Ok (t =? target)))
      found
    = Ok (found || existsb (fun c => occupant b r c =? target) cs).
Proof.
  intros Hr. induction cs as [|c cs IH]; intros found Hcs; simpl.
  - now rewrite orb_false_r.
  - destruct found; simpl.
    + rewrite IH by (intros; apply Hcs; now right). reflexivity.
    + rewrite get_piece_in
        by (apply in_bounds_spec; split; [lia|apply Hcs; now left]).
      simpl. rewrite IH by (intros; apply Hcs; now right).
      reflexivity.
Qed.

Lemma king_exists_scan (b : tensor) (white : bool) :
  king_exists b white =
    Ok (existsb
          (fun r =>
             existsb (fun c => occupant b r c =? king_code white)
                     (map Z.of_nat (seq 0 8)))
          (map Z.of_nat (seq 0 8))).
Proof.
  unfold king_exists. fold (king_code white).
  enough (G : forall (rs : list Z) (found : bool),
             (forall r, In r rs -> 0 <= r < 8) ->
             for_each rs
               (fun (r : Z) (found : bool) =>
                  for_each (map Z.of_nat (seq 0 8))
                    (fun (c : Z) (found : bool) =>
                       if found then Ok true
                       else bind_res (get_piece b r c)
                              (fun t => Ok (t =? king_code white)))
                    found)
               found
             = Ok (found ||
                   existsb
                     (fun r =>
                        existsb (fun c => occupant b r c =? king_code white)
                                (map Z.of_nat (seq 0 8)))
                     rs)).
  { apply (G _ false). intros r. apply In_range8. }
  induction rs as [|r rs IH]; intros found Hrs.
  - simpl. now rewrite orb_false_r.
  - cbn [for_each existsb].
    rewrite scan_row;
      [|apply Hrs; now left|intros c; apply In_range8].
    cbn [bind_res].
    rewrite IH by (intros; apply Hrs; now right).
    now rewrite orb_assoc.
Qed.

Lemma king_exists_no_king (b : tensor) (white : bool) (alive : bool) :
  king_exists b white = Ok alive -> (alive = false <-> no_king b white).
Proof.
  rewrite king_exists_scan. intros H. apply Ok_inj in H. subst alive.
  unfold no_king. split.
  - intros Hscan r c Hr Hc Hocc.
    apply not_true_iff_false in Hscan. apply Hscan.
    apply existsb_exists. exists r. split; [now apply In_range8|].
    apply existsb_exists. exists c. split; [now apply In_range8|].
    now apply Z.eqb_eq.
  - intros Hnone. apply not_true_iff_false. intros Hscan.
    apply existsb_exists in Hscan as (r & Hr & Hscan).
    apply existsb_exists in Hscan as (c & Hc & Hocc).
    apply In_range8 in Hr, Hc. apply Z.eqb_eq in Hocc.
    exact (Hnone r c Hr Hc Hocc).
Qed.

(** [finish] leaves the board alone. *)
Lemma finish_board (g g' : game) (o : outcome) :
  finish g = (Ok o, g') -> board g' = board g.
Proof.
  intros H. apply finish_inv in H as ([|] & _ & _ & ->); reflexivity.
Qed.

(** The appliers write the board and the castling flags only. *)

Section Frames.

Context {T : Type} (proj : game -> T).
Hypothesis proj_board : forall b g, proj (with_board b g) = proj g.
Hypothesis proj_rights : forall f g, proj (with_rights f g) = proj g.

Lemma keeps_ret {A : Type} (a : A) : keeps proj (ret a).
Proof. intros g r g' H. unfold ret in H. now injection H as _ <-. Qed.

Lemma keeps_bind {A B : Type} (m : M A) (k : A -> M B) :
  keeps proj m -> (forall a, keeps proj (k a)) -> keeps proj (bind m k).
Proof.
  intros Hm Hk g r g' H.
  apply bind_inv in H as [(a & g1 & H1 & H2) | [(e & H1 & _) | [H1 _]]].
  - rewrite (Hk a _ _ _ H2). exact (Hm _ _ _ H1).
  - exact (Hm _ _ _ H1).
  - exact (Hm _ _ _ H1).
Qed.

Lemma keeps_reading {A : Type} (f : game -> res A) :
  keeps proj (reading f).
Proof. intros g r g' H. now apply reading_inv in H as [_ ->]. Qed.

Lemma keeps_piece_at (r c : Z) : keeps proj (piece_at r c).
Proof. apply keeps_reading. Qed.

Lemma keeps_put_piece (r c v : Z) : keeps proj (put_piece r c v).
Proof.
  intros g x g' H. unfold put_piece in H.
  destruct (set_piece (board g) r c v); injection H as _ <-; auto.
Qed.

Lemma keeps_modify_rights (f : castling_rights -> castling_rights) :
  keeps proj (modify (with_rights f)).
Proof. intros g r g' H. unfold modify in H. now injection H as _ <-. Qed.

Ltac keeps_game :=
  repeat first
    [ apply keeps_ret
    | apply keeps_modify_rights
    | apply keeps_piece_at
    | apply keeps_put_piece
    | apply keeps_reading
    | apply keeps_bind; [|intros ?]
    | match goal with
      | |- keeps _ (if ?b then _ else _) => destruct b
      end ].

Lemma keeps_handle_promotion (r c : Z) :
  keeps proj (handle_promotion r c).
Proof. unfold handle_promotion. keeps_game. Qed.

Lemma keeps_relocate (sr sc scode er ec : Z) :
  keeps proj (relocate sr sc scode er ec).
Proof.
  unfold relocate, handle_castling, handle_en_passant, simple_move.
  keeps_game.
Qed.

End Frames.

Lemma relocate_turn_fields (sr sc scode er ec : Z) (g g' : game)
  (r : res unit) :
  relocate sr sc scode er ec g = (r, g') ->
  white_to_move g' = white_to_move g /\
  en_passant_target g' = en_passant_target g.
Proof.
  intros H.
  pose proof (keeps_relocate turn_fields (fun _ _ => eq_refl)
                (fun _ _ => eq_refl) sr sc scode er ec g r g' H) as K.
  unfold turn_fields in K. now injection K.
Qed.

Lemma handle_promotion_turn_fields (r c : Z) (g g' : game) (x : res unit) :
  handle_promotion r c g = (x, g') ->
  white_to_move g' = white_to_move g /\
  en_passant_target g' = en_passant_target g.
Proof.
  intros H.
  pose proof (keeps_handle_promotion turn_fields (fun _ _ => eq_refl)
                r c g x g' H) as K.
  unfold turn_fields in K. now injection K.
Qed.

(** No move puts a king of the other side on the board. *)

Lemma nth_update_cases {A : Type} (n m : nat) (v d : A) (l : list A) :
  nth m (update n v l) d = v \/ nth m (update n v l) d = nth m l d.
Proof.
  revert n m; induction l as [|x l IH]; intros [|n] [|m]; simpl; auto.
Qed.

Lemma cell_set_cell_cases (b : tensor) (i j i' j' : nat) (v : Z) :
  cell (set_cell b i j v) i' j' = v \/
  cell (set_cell b i j v) i' j' = cell b i' j'.
Proof.
  destruct (Nat.eq_dec i i') as [<-|Hi].
  - unfold cell, set_cell.
    destruct (Nat.lt_ge_cases i (length b)) as [Hlt|Hge].
    + rewrite nth_update_same by exact Hlt. apply nth_update_cases.
    + right. f_equal.
      clear -Hge. revert i Hge.
      induction b as [|x b IH]; intros [|i] H; simpl in *;
        try lia; auto.
      apply IH. lia.
  - right. apply cell_set_cell_other. congruence.
Qed.

Lemma tf_index_lt (i : Z) (n : nat) : tf_index i = Ok n -> (n < 8)%nat.
Proof.
  unfold tf_index.
  destruct ((0 <=? i) && (i <? 8)) eqn:E.
  - intros H. apply Ok_inj in H. subst n.
    apply andb_true_iff in E as [E1 E2].
    apply Z.leb_le in E1. apply Z.ltb_lt in E2. lia.
  - destruct ((-8 <=? i) && (i <? 0)) eqn:E'; [|discriminate].
    intros H. apply Ok_inj in H. subst n.
    apply andb_true_iff in E' as [E1 E2].
    apply Z.leb_le in E1. apply Z.ltb_lt in E2. lia.
Qed.

Lemma no_king_free_of (b : tensor) (white : bool) :
  no_king b white <-> free_of (king_code white) b.
Proof.
  unfold no_king, free_of, occupant. split.
  - intros H i j Hi Hj.
    specialize (H (Z.of_nat i) (Z.of_nat j) ltac:(lia) ltac:(lia)).
    now rewrite !Nat2Z.id in H.
  - intros H r c Hr Hc. apply H; lia.
Qed.

Lemma get_piece_free_of (K : Z) (b : tensor) (r c v : Z) :
  free_of K b -> get_piece b r c = Ok v -> v <> K.
Proof.
  intros Hfree H. unfold get_piece in H.
  apply bind_res_ok_inv in H as (i & Hi & H).
  apply bind_res_ok_inv in H as (j & Hj & H).
  apply Ok_inj in H. subst v.
  apply Hfree; eapply tf_index_lt; eassumption.
Qed.

Lemma set_piece_free_of (K : Z) (b b' : tensor) (r c v : Z) :
  free_of K b -> v <> K -> set_piece b r c v = Ok b' -> free_of K b'.
Proof.
  intros Hfree Hv H. unfold set_piece in H.
  apply bind_res_ok_inv in H as (i & Hi & H).
  apply bind_res_ok_inv in H as (j & Hj & H).
  apply Ok_inj in H. subst b'.
  intros i' j' Hi' Hj'.
  destruct (cell_set_cell_cases b i j i' j' v) as [-> | ->]; auto.
Qed.

Section Safe.

Variable K : Z.

Lemma safe_ret {A : Type} (a : A) (Q : A -> Prop) :
  Q a -> safe K (ret a) Q.
Proof.
  intros HQ g r g' Hfree H. unfold ret in H.
  injection H as <- <-. split; [exact Hfree|].
  intros a' E. apply Ok_inj in E. now subst.
Qed.

Lemma safe_bind {A B : Type} (m : M A) (k : A -> M B)
  (Q1 : A -> Prop) (Q2 : B -> Prop) :
  safe K m Q1 -> (forall a, Q1 a -> safe K (k a) Q2) ->
  safe K (bind m k) Q2.
Proof.
  intros Hm Hk g r g' Hfree H.
  apply bind_inv in H as [(a & g1 & H1 & H2) | [(e & H1 & ->) | [H1 ->]]].
  - destruct (Hm _ _ _ Hfree H1) as [Hfree1 HQ1].
    exact (Hk a (HQ1 a eq_refl) _ _ _ Hfree1 H2).
  - destruct (Hm _ _ _ Hfree H1) as [Hfree1 _].
    split; [exact Hfree1|discriminate].
  - destruct (Hm _ _ _ Hfree H1) as [Hfree1 _].
    split; [exact Hfree1|discriminate].
Qed.

Lemma safe_reading {A : Type} (f : game -> res A) :
  safe K (reading f) (fun _ => True).
Proof.
  intros g r g' Hfree H. apply reading_inv in H as [_ ->]. auto.
Qed.

Lemma safe_piece_at (r c : Z) : safe K (piece_at r c) (fun v => v <> K).
Proof.
  intros g x g' Hfree H. apply piece_at_inv in H as [-> ->].
  split; [exact Hfree|].
  intros v E. eapply get_piece_free_of; eassumption.
Qed.

Lemma safe_put_piece (r c v : Z) :
  v <> K -> safe K (put_piece r c v) (fun _ => True).
Proof.
  intros Hv g x g' Hfree H. unfold put_piece in H.
  destruct (set_piece (board g) r c v) as [b'|e|] eqn:E;
    injection H as <- <-; split; auto.
  cbn [board with_board]. eapply set_piece_free_of; eassumption.
Qed.

Lemma safe_modify_rights (f : castling_rights -> castling_rights) :
  safe K (modify (with_rights f)) (fun _ => True).
Proof.
  intros g r g' Hfree H. unfold modify in H. injection H as <- <-. auto.
Qed.

Hypothesis K_not_empty : K <> 0.

Ltac safe_game :=
  repeat first
    [ apply safe_ret; exact I
    | apply safe_modify_rights
    | apply safe_put_piece; assumption
    | eapply safe_bind; [apply safe_piece_at|intros ? ?]
    | eapply safe_bind; [apply safe_reading|intros ? _]
    | eapply safe_bind; [apply safe_put_piece; assumption|intros ? _]
    | eapply safe_bind; [apply safe_modify_rights|intros ? _]
    | match goal with
      | |- safe _ (if ?b then _ else _) _ => destruct b
      end ].

Lemma safe_handle_castling (sr sc er ec : Z) :
  safe K (handle_castling sr sc er ec) (fun _ => True).
Proof.
  assert (H0 : 0 <> K) by congruence.
  unfold handle_castling.
  eapply safe_bind; [apply safe_piece_at|intros p Hp].
  eapply safe_bind; [apply safe_piece_at|intros k Hk].
  eapply safe_bind; [apply safe_put_piece; assumption|intros ? _].
  eapply safe_bind; [apply safe_put_piece; assumption|intros ? _].
  eapply safe_bind with (Q1 := fun _ => True); [|intros ? _; safe_game].
  destruct (ec >? sc); safe_game.
Qed.

Lemma safe_handle_en_passant (sr sc er ec : Z) (w : bool) :
  safe K (handle_en_passant sr sc er ec w) (fun _ => True).
Proof.
  assert (H0 : 0 <> K) by congruence.
  unfold handle_en_passant. safe_game.
Qed.

Lemma safe_simple_move (sr sc scode er ec : Z) :
  scode <> K -> safe K (simple_move sr sc scode er ec) (fun _ => True).
Proof.
  intros Hs. assert (H0 : 0 <> K) by congruence.
  unfold simple_move.
  eapply safe_bind; [apply safe_put_piece; assumption|intros ? _].
  eapply safe_bind; [apply safe_put_piece; assumption|intros ? _].
  eapply safe_bind with (Q1 := fun _ => True); [|intros ? _]; safe_game.
Qed.

Lemma safe_relocate (sr sc scode er ec : Z) :
  scode <> K -> safe K (relocate sr sc scode er ec) (fun _ => True).
Proof.
  intros Hs. unfold relocate.
  eapply safe_bind; [apply safe_reading|intros w _].
  eapply safe_bind; [apply safe_reading|intros [|] _].
  - apply safe_handle_castling.
  - eapply safe_bind; [apply safe_reading|intros [|] _].
    + apply safe_handle_en_passant.
    + now apply safe_simple_move.
Qed.

Lemma safe_handle_promotion (r c : Z) :
  5 <> K -> 11 <> K -> safe K (handle_promotion r c) (fun _ => True).
Proof.
  intros H5 H11. unfold handle_promotion. safe_game.
Qed.

End Safe.

Lemma accepted_turn_keeps_kingless (p : proposal) (g g' : game)
  (o : outcome) :
  turn p g = (Ok o, g') -> accepted o = true ->
  no_king (board g) (negb (white_to_move g)) ->
  no_king (board g') (negb (white_to_move g)).
Proof.
  intros Hturn Hacc Hnone.
  destruct (turn_accepted_inv p g g' o Hturn Hacc) as
    (sr & sc & scode & er & ec & Hsel & Happly).
  apply select_chooses in Hsel as (_ & _ & Hne & Hside & _).
  apply apply_move_inv in Happly as (g1 & g2 & Hrel & Hprom & Hfin).
  apply finish_board in Hfin.
  cbn [board with_en_passant_target] in Hfin.
  apply no_king_free_of. apply no_king_free_of in Hnone.
  set (K := king_code (negb (white_to_move g))) in *.
  assert (HK : K = 6 \/ K = 12)
    by (subst K; destruct (white_to_move g); simpl; auto).
  assert (Hs : scode <> K).
  { subst K. destruct (white_to_move g); simpl.
    - apply Z.leb_le in Hside. lia.
    - apply Z.leb_gt in Hside. lia. }
  rewrite Hfin.
  destruct (safe_relocate K ltac:(lia) sr sc scode er ec Hs
              _ _ _ Hnone Hrel) as [Hfree1 _].
  destruct (safe_handle_promotion K er ec ltac:(lia) ltac:(lia)
              _ _ _ Hfree1 Hprom) as [Hfree2 _].
  exact Hfree2.
Qed.

(** C3. After every accepted move, the game is won by the side that moved
    if and only if the other side has no king anywhere on the 8x8 board;
    when that is so [play_game] returns with that result whatever proposals
    follow, none of which is looked at, and otherwise the other side is to
    move.  In particular, when the side not on move has no king on the
    board, as on a board with a lone king of the side to move, the first
    accepted move wins the game for the side that makes it. *)
Theorem kingless_side_loses_at_once
  (p : proposal) (g g' : game) (o : outcome) :
  turn p g = (Ok o, g') -> accepted o = true ->
  (no_king (board g') (negb (white_to_move g)) <->
   o = Won (white_to_move g)) /\
  (no_king (board g') (negb (white_to_move g)) ->
   forall rest : list proposal,
     play_loop (p :: rest) g = (Ok (Some (white_to_move g)), g')) /\
  (~ no_king (board g') (negb (white_to_move g)) ->
   o = Moved /\ white_to_move g' = negb (white_to_move g)) /\
  (no_king (board g) (negb (white_to_move g)) ->
   o = Won (white_to_move g)).
Proof.
  intros Hturn Hacc.
  pose proof (accepted_turn_keeps_kingless p g g' o Hturn Hacc) as Hkeep.
  destruct (turn_accepted_inv p g g' o Hturn Hacc) as
    (sr & sc & scode & er & ec & _ & Happly).
  apply apply_move_inv in Happly as (g1 & g2 & Hrel & Hprom & Hfin).
  pose proof (finish_board _ _ _ Hfin) as Hboard.
  cbn [board with_en_passant_target] in Hboard.
  apply finish_inv in Hfin as (alive & Hscan & Hcase).
  cbn [white_to_move board with_en_passant_target] in *.
  assert (Hwtm : white_to_move g2 = white_to_move g).
  { apply relocate_turn_fields in Hrel as [<- _].
    now apply handle_promotion_turn_fields in Hprom as [-> _]. }
  rewrite Hwtm in *. rewrite Hboard in *.
  pose proof (king_exists_no_king _ _ _ Hscan) as Hnone.
  destruct alive.
  - destruct Hcase as [-> ->].
    assert (Hk : ~ no_king (board g2) (negb (white_to_move g)))
      by (intros Hn; apply Hnone in Hn; discriminate).
    split; [|split; [|split]].
    + split; [intros Hn; contradiction|discriminate].
    + intros Hn; contradiction.
    + intros _. split; reflexivity.
    + intros Hn. exfalso. apply Hk, Hkeep, Hn.
  - destruct Hcase as [-> ->].
    assert (Hk : no_king (board g2) (negb (white_to_move g)))
      by (now apply Hnone).
    split; [|split; [|split]].
    + split; auto.
    + intros _ rest. cbn [play_loop]. now rewrite Hturn.
    + intros Hn; contradiction.
    + reflexivity.
Qed.

Lemma kingless_side_loses_at_once_witness :
  (no_king (board (snd (turn lone_king_proposal lone_king_game))) false <->
   Won true = Won true) /\
  (no_king (board (snd (turn lone_king_proposal lone_king_game))) false ->
   forall rest : list proposal,
     play_loop (lone_king_proposal :: rest) lone_king_game =
       (Ok (Some true), snd (turn lone_king_proposal lone_king_game))) /\
  (~ no_king (board (snd (turn lone_king_proposal lone_king_game))) false ->
   Won true = Moved /\
   white_to_move (snd (turn lone_king_proposal lone_king_game)) = false) /\
  (no_king (board lone_king_game) false -> Won true = Won true).
Proof.
  exact (kingless_side_loses_at_once lone_king_proposal lone_king_game
           _ (Won true) eq_refl eq_refl).
Defined.

(** ** Pawn candidates *)

Lemma get_possible_moves_pawn (lookup : Z -> Z -> res Z) (cr : castling_rights)
  (ep : option square) (row col code : Z) :
  lookup row col = Ok code -> code = 1 \/ code = 7 ->
  get_possible_moves lookup cr ep row col =
    pawn_moves lookup ep (code =? 1) row col.
Proof.
  intros E [-> | ->]; unfold get_possible_moves; rewrite E; reflexivity.
Qed.

(** A pawn candidate is one row ahead, except the double step, which
    starts on the start rank and passes over an empty square. *)
Lemma pawn_moves_inv (lookup : Z -> Z -> res Z) (ep : option square)
  (white : bool) (row col er ec : Z) (moves : list square) :
  pawn_moves lookup ep white row col = Ok moves ->
  In (er, ec) moves ->
  let d := if white then -1 else 1 in
  er = row + d \/
  (er = row + 2 * d /\ ec = col /\ row = (if white then 6 else 1) /\
   in_bounds (row + d) col = true /\
   lookup (row + d) col = Ok 0 /\ lookup (row + 2 * d) col = Ok 0).
Proof.
  unfold pawn_moves.
  set (d := if white then -1 else 1).
  set (start_row := if white then 6 else 1).
  intros H Hin. cbv zeta.
  set (Q := fun s : square =>
              fst s = row + d \/
              (fst s = row + 2 * d /\ snd s = col /\ row = start_row /\
               in_bounds (row + d) col = true /\
               lookup (row + d) col = Ok 0 /\
               lookup (row + 2 * d) col = Ok 0)).
  enough (HQ : Forall Q moves).
  { rewrite Forall_forall in HQ. exact (HQ (er, ec) Hin). }
  clear Hin.
  apply bind_res_ok_inv in H as (ms0 & H0 & H).
  apply bind_res_ok_inv in H as (ms1 & H1 & H).
  apply Ok_inj in H. subst moves.
  assert (Qa : forall c, Q (row + d, c)) by (intros c; left; reflexivity).
  assert (Q0 : Forall Q ms0).
  { destruct (in_bounds (row + d) col) eqn:Efwd;
      [|apply Ok_inj in H0; subst ms0; apply Forall_nil].
    destruct (lookup (row + d) col) as [t| |] eqn:Et; try discriminate.
    cbn [bind_res] in H0.
    destruct (Z.eqb_spec t 0) as [->|Ht];
      [|apply Ok_inj in H0; subst ms0; apply Forall_nil].
    destruct (Z.eqb_spec row start_row) as [Hs|Hs].
    - destruct (lookup (row + 2 * d) col) as [t2| |] eqn:Et2;
        try discriminate.
      cbn [bind_res] in H0.
      destruct (Z.eqb_spec t2 0) as [->|Ht2];
        apply Ok_inj in H0; subst ms0.
      + apply Forall_cons; [apply Qa|].
        apply Forall_cons; [|apply Forall_nil].
        right. simpl. auto 10.
      + apply Forall_cons; [apply Qa|apply Forall_nil].
    - apply Ok_inj in H0; subst ms0.
      apply Forall_cons; [apply Qa|apply Forall_nil]. }
  assert (Q1 : Forall Q ms1).
  { revert H1 Q0. apply for_each_pres.
    intros dc ms ms' Hbody Hms. cbv zeta in Hbody.
    destruct (in_bounds (row + d) (col + dc));
      [|apply Ok_inj in Hbody; now subst ms'].
    apply bind_res_ok_inv in Hbody as ([|] & _ & Hbody);
      apply Ok_inj in Hbody; subst ms'; [|exact Hms].
    apply Forall_app. split; [exact Hms|].
    apply Forall_cons; [apply Qa|apply Forall_nil]. }
  destruct ep as [[tr tc]|]; [|exact Q1].
  destruct (_ && _ && _) eqn:E; [|exact Q1].
  apply Forall_app. split; [exact Q1|].
  apply andb_true_iff in E as [_ E]. apply Z.eqb_eq in E.
  apply Forall_cons; [left; exact E|apply Forall_nil].
Qed.

(** The test of lines 366-369 singles out the double step. *)
Lemma double_step_test (g : game) (sr sc scode er ec : Z)
  (moves : list square) :
  get_piece (board g) sr sc = Ok scode ->
  get_possible_moves (get_piece (board g)) (rights g)
    (en_passant_target g) sr sc = Ok moves ->
  In (er, ec) moves ->
  ((scode =? 1) || (scode =? 7)) && (Z.abs (er - sr) =? 2)
    = double_step scode sr er /\
  (double_step scode sr er = true ->
   ec = sc /\ in_bounds ((sr + er) / 2) sc = true /\
   get_piece (board g) ((sr + er) / 2) sc = Ok 0).
Proof.
  intros Hcode Hgen Hin. unfold double_step.
  destruct (Z.eqb_spec scode 1) as [->|N1].
  - rewrite (get_possible_moves_pawn _ _ _ _ _ 1 Hcode (or_introl eq_refl))
      in Hgen.
    pose proof (pawn_moves_inv _ _ _ _ _ _ _ _ Hgen Hin) as Hinv.
    cbn in Hinv.
    destruct (Z.eqb_spec (Z.abs (er - sr)) 2),
             (Z.eqb_spec sr 6), (Z.eqb_spec er 4);
      cbn; split; try reflexivity; try discriminate; try lia;
      intros _; subst;
      destruct Hinv as [Hinv|(_ & -> & _ & Hb & H0 & _)]; try lia;
      repeat split; assumption.
  - destruct (Z.eqb_spec scode 7) as [->|N7].
    + rewrite (get_possible_moves_pawn _ _ _ _ _ 7 Hcode
                 (or_intror eq_refl)) in Hgen.
      pose proof (pawn_moves_inv _ _ _ _ _ _ _ _ Hgen Hin) as Hinv.
      cbn in Hinv.
      destruct (Z.eqb_spec (Z.abs (er - sr)) 2),
               (Z.eqb_spec sr 1), (Z.eqb_spec er 3);
        cbn; split; try reflexivity; try discriminate; try lia;
        intros _; subst;
        destruct Hinv as [Hinv|(_ & -> & _ & Hb & H0 & _)]; try lia;
        repeat split; assumption.
    + cbn. split; [reflexivity|discriminate].
Qed.

Lemma finish_en_passant_target (g g' : game) (o : outcome) :
  finish g = (Ok o, g') -> en_passant_target g' = en_passant_target g.
Proof.
  intros H. apply finish_inv in H as ([|] & _ & _ & ->); reflexivity.
Qed.

(** C6. For every accepted turn, the en-passant target at the end of the
    turn is set, to the square between origin and destination, if and only
    if the moved occupant was a pawn that advanced exactly two rows from its
    start rank; after every other accepted move it is none. *)
Theorem en_passant_target_set_by_double_step_only
  (p : proposal) (g g' : game) (o : outcome) :
  turn p g = (Ok o, g') -> accepted o = true ->
  exists sr sc scode er ec,
    select p g = (Ok (inr ((sr, sc), scode, (er, ec))), g) /\
    if double_step scode sr er
    then ec = sc /\ en_passant_target g' = Some ((sr + er) / 2, sc)
    else en_passant_target g' = None.
Proof.
  intros Hturn Hacc.
  destruct (turn_accepted_inv p g g' o Hturn Hacc) as
    (sr & sc & scode & er & ec & Hsel & Happly).
  exists sr, sc, scode, er, ec. split; [exact Hsel|].
  apply select_chooses in Hsel as
      (_ & Hcode & _ & _ & moves & Hgen & Hin).
  destruct (double_step_test g sr sc scode er ec moves Hcode Hgen Hin)
    as [Htest Hdouble].
  apply apply_move_inv in Happly as (g1 & g2 & _ & _ & Hfin).
  apply finish_en_passant_target in Hfin.
  cbn [en_passant_target with_en_passant_target] in Hfin.
  rewrite Htest in Hfin.
  destruct (double_step scode sr er); [|exact Hfin].
  split; [apply Hdouble; reflexivity|exact Hfin].
Qed.

Lemma en_passant_target_set_by_double_step_only_witness :
  exists sr sc scode er ec,
    select opening_proposal new_game =
      (Ok (inr ((sr, sc), scode, (er, ec))), new_game) /\
    if double_step scode sr er
    then ec = sc /\
         en_passant_target (snd (turn opening_proposal new_game)) =
           Some ((sr + er) / 2, sc)
    else en_passant_target (snd (turn opening_proposal new_game)) = None.
Proof.
  exact (en_passant_target_set_by_double_step_only
           opening_proposal new_game _ Moved eq_refl eq_refl).
Defined.

(** ** Running the appliers on the board *)

Lemma run_piece_at (r c : Z) (g : game) :
  in_bounds r c = true ->
  piece_at r c g = (Ok (occupant (board g) r c), g).
Proof.
  intros H. unfold piece_at, reading. now rewrite get_piece_in.
Qed.

Lemma run_put_piece (r c v : Z) (g : game) :
  in_bounds r c = true ->
  put_piece r c v g = (Ok tt, with_board (place (board g) r c v) g).
Proof.
  intros H. unfold put_piece. now rewrite set_piece_in.
Qed.

Ltac on_board :=
  apply in_bounds_spec; cbn [fst snd]; lia.

Ltac other_square :=
  let E := fresh in
  intros E; injection E; intros; lia.

(** Reads the squares of a board built by [place]. *)
Ltac read_board :=
  repeat first
    [ rewrite occupant_place_same
        by (first [on_board | assumption | repeat apply wf_place; assumption])
    | rewrite occupant_place_other by (first [on_board | other_square]) ].

(** Runs a sequence of board statements with in-bounds coordinates. *)
Ltac run_board :=
  repeat first
    [ rewrite run_piece_at by on_board
    | rewrite run_put_piece by on_board
    | progress cbv beta iota
    | progress cbn [board rights white_to_move en_passant_target
                    with_board with_rights] ].

(** ** Castling, en passant and promotion on the board *)

(** C4. For every board on which castling is applied from the king's start
    square (any rank, column 4) to the destination two columns away on the
    same rank, the king is placed on the destination, the occupant of the
    corner on that side (the rook, when castling was eligible) is placed on
    column 5 (kingside) or column 3 (queenside) of the rank, both vacated
    squares are cleared, every other square keeps its occupant, and the
    king-moved flag of that side and the flag of the rook that moved are
    true. *)
Theorem castling_relocates_king_and_rook
  (g : game) (white kingside : bool) (sr rook : Z) :
  let ec := if kingside then 6 else 2 in
  let corner := if kingside then 7 else 0 in
  let rook_to := if kingside then 5 else 3 in
  wf_board (board g) = true ->
  0 <= sr < 8 ->
  get_piece (board g) sr 4 = Ok (king_code white) ->
  get_piece (board g) sr corner = Ok rook ->
  exists g' : game,
    handle_castling sr 4 sr ec g = (Ok tt, g') /\
    get_piece (board g') sr ec = Ok (king_code white) /\
    get_piece (board g') sr rook_to = Ok rook /\
    get_piece (board g') sr 4 = Ok 0 /\
    get_piece (board g') sr corner = Ok 0 /\
    (forall r c,
       in_bounds r c = true ->
       (r, c) <> (sr, ec) -> (r, c) <> (sr, rook_to) ->
       (r, c) <> (sr, 4) -> (r, c) <> (sr, corner) ->
       get_piece (board g') r c = get_piece (board g) r c) /\
    king_moved white (rights g') = true /\
    rook_moved white kingside (rights g') = true.
Proof.
  intros ec corner rook_to Hwf Hsr Hking Hrook.
  rewrite get_piece_in in Hking, Hrook
    by (subst corner; destruct kingside; on_board).
  apply Ok_inj in Hking, Hrook.
  unfold handle_castling, bind.
  assert (Hside : (king_code white <=? 6) = white) by now destruct white.
  destruct kingside; subst ec corner rook_to.
  - change (6 >? 4) with true.
    run_board. read_board. rewrite Hking, Hrook, Hside.
    unfold modify. eexists. split; [reflexivity|].
    cbn [board rights with_board with_rights].
    rewrite !get_piece_in by on_board. read_board.
    repeat split; try reflexivity.
    + intros r c Hrc N1 N2 N3 N4.
      rewrite !get_piece_in by exact Hrc.
      apply in_bounds_spec in Hrc. f_equal.
      rewrite !occupant_place_other;
        first [reflexivity | on_board | congruence].
    + now destruct white.
    + now destruct white.
  - change (2 >? 4) with false.
    run_board. read_board. rewrite Hking, Hrook, Hside.
    unfold modify. eexists. split; [reflexivity|].
    cbn [board rights with_board with_rights].
    rewrite !get_piece_in by on_board. read_board.
    repeat split; try reflexivity.
    + intros r c Hrc N1 N2 N3 N4.
      rewrite !get_piece_in by exact Hrc.
      apply in_bounds_spec in Hrc. f_equal.
      rewrite !occupant_place_other;
        first [reflexivity | on_board | congruence].
    + now destruct white.
    + now destruct white.
Qed.

Lemma castling_relocates_king_and_rook_witness :
  exists g' : game,
    handle_castling 7 4 7 6 sample_game = (Ok tt, g') /\
    get_piece (board g') 7 6 = Ok (king_code true) /\
    get_piece (board g') 7 5 = Ok 2 /\
    get_piece (board g') 7 4 = Ok 0 /\
    get_piece (board g') 7 7 = Ok 0 /\
    (forall r c,
       in_bounds r c = true ->
       (r, c) <> (7, 6) -> (r, c) <> (7, 5) ->
       (r, c) <> (7, 4) -> (r, c) <> (7, 7) ->
       get_piece (board g') r c = get_piece (board sample_game) r c) /\
    king_moved true (rights g') = true /\
    rook_moved true true (rights g') = true.
Proof.
  apply (castling_relocates_king_and_rook sample_game true true 7 2);
    [reflexivity | lia | reflexivity | reflexivity].
Defined.

(** C5. For every board on which an en-passant capture is applied from
    origin [(sr, sc)] to the diagonally adjacent destination [(er, ec)], the
    capturing pawn is placed on the destination, the origin is cleared, and
    the square on the origin's rank and the destination's column,
    [(sr, ec)], is cleared: the advanced pawn is taken from its own square,
    one rank behind the destination, and the destination holds the
    capturing pawn.  Every other square keeps its occupant. *)
Theorem en_passant_clears_square_beside_origin
  (g : game) (sr sc er ec pawn : Z) (white_to_move : bool) :
  wf_board (board g) = true ->
  in_bounds sr sc = true -> in_bounds er ec = true ->
  Z.abs (er - sr) = 1 -> Z.abs (ec - sc) = 1 ->
  get_piece (board g) sr sc = Ok pawn ->
  exists g' : game,
    handle_en_passant sr sc er ec white_to_move g = (Ok tt, g') /\
    get_piece (board g') er ec = Ok pawn /\
    get_piece (board g') sr sc = Ok 0 /\
    get_piece (board g') sr ec = Ok 0 /\
    (forall r c,
       in_bounds r c = true ->
       (r, c) <> (er, ec) -> (r, c) <> (sr, sc) -> (r, c) <> (sr, ec) ->
       get_piece (board g') r c = get_piece (board g) r c) /\
    rights g' = rights g.
Proof.
  intros Hwf Hs He Hrow Hcol Hpawn.
  rewrite get_piece_in in Hpawn by exact Hs. apply Ok_inj in Hpawn.
  apply in_bounds_spec in Hs, He.
  unfold handle_en_passant, bind.
  run_board. rewrite Hpawn.
  eexists. split; [reflexivity|].
  cbn [board rights with_board].
  rewrite !get_piece_in by on_board. read_board.
  repeat split; try reflexivity.
  intros r c Hrc N1 N2 N3.
  rewrite !get_piece_in by exact Hrc.
  apply in_bounds_spec in Hrc. f_equal.
  rewrite !occupant_place_other;
    first [reflexivity | on_board | congruence].
Qed.

Lemma en_passant_clears_square_beside_origin_witness :
  exists g' : game,
    handle_en_passant 3 4 2 3 true en_passant_game = (Ok tt, g') /\
    get_piece (board g') 2 3 = Ok 1 /\
    get_piece (board g') 3 4 = Ok 0 /\
    get_piece (board g') 3 3 = Ok 0 /\
    (forall r c,
       in_bounds r c = true ->
       (r, c) <> (2, 3) -> (r, c) <> (3, 4) -> (r, c) <> (3, 3) ->
       get_piece (board g') r c = get_piece (board en_passant_game) r c) /\
    rights g' = rights en_passant_game.
Proof.
  apply en_passant_clears_square_beside_origin; reflexivity.
Defined.

Lemma placed_here (g : game) (r c v : Z) :
  wf_board (board g) = true -> in_bounds r c = true ->
  get_piece (board (with_board (place (board g) r c v) g)) r c = Ok v.
Proof.
  intros Hwf Hrc. cbn [board with_board].
  rewrite get_piece_in by exact Hrc.
  now rewrite occupant_place_same.
Qed.

Lemma placed_elsewhere (g : game) (r c v : Z) :
  in_bounds r c = true ->
  forall r' c',
    in_bounds r' c' = true -> (r', c') <> (r, c) ->
    get_piece (board (with_board (place (board g) r c v) g)) r' c' =
    get_piece (board g) r' c'.
Proof.
  intros Hrc r' c' Hrc' Hne. cbn [board with_board].
  rewrite !get_piece_in by exact Hrc'.
  rewrite occupant_place_other; auto.
Qed.

(** C8. For every board and every square holding a pawn on the opposing
    back rank (row 0 for a white pawn, row 7 for a black one), promotion
    replaces the pawn by the queen of the same side; a square holding
    anything else is left as it is, and so is the rest of the state.  In
    every accepted turn promotion is applied at the destination after the
    move and before the win check, which scans the board that promotion
    left. *)
Theorem promotion_to_queen_before_win_check :
  (forall (g : game) (r c piece : Z),
     wf_board (board g) = true -> in_bounds r c = true ->
     get_piece (board g) r c = Ok piece ->
     exists g' : game,
       handle_promotion r c g = (Ok tt, g') /\
       (piece = 1 -> r = 0 -> get_piece (board g') r c = Ok 5) /\
       (piece = 7 -> r = 7 -> get_piece (board g') r c = Ok 11) /\
       (~ (piece = 1 /\ r = 0) -> ~ (piece = 7 /\ r = 7) -> g' = g) /\
       (forall r' c',
          in_bounds r' c' = true -> (r', c') <> (r, c) ->
          get_piece (board g') r' c' = get_piece (board g) r' c') /\
       rights g' = rights g) /\
  (forall (p : proposal) (g g' : game) (o : outcome),
     turn p g = (Ok o, g') -> accepted o = true ->
     exists sr sc scode er ec g1 g2 alive,
       select p g = (Ok (inr ((sr, sc), scode, (er, ec))), g) /\
       relocate sr sc scode er ec g = (Ok tt, g1) /\
       handle_promotion er ec g1 = (Ok tt, g2) /\
       board g' = board g2 /\
       king_exists (board g2) (negb (white_to_move g)) = Ok alive /\
       o = if alive then Moved else Won (white_to_move g)).
Proof.
  split.
  - intros g r c piece Hwf Hrc Hpiece.
    rewrite get_piece_in in Hpiece by exact Hrc. apply Ok_inj in Hpiece.
    pose proof Hrc as Hb. apply in_bounds_spec in Hb.
    unfold handle_promotion, bind.
    run_board. rewrite Hpiece.
    destruct (Z.eqb_spec piece 1) as [->|N1];
      [destruct (Z.eqb_spec r 0) as [->|R0]|]; cbn [andb].
    + run_board.
      refine (ex_intro _ _ (conj eq_refl (conj _ (conj _ (conj _
                (conj (placed_elsewhere _ _ _ _ Hrc) eq_refl)))))).
      * intros _ _. now apply placed_here.
      * discriminate.
      * intros N. exfalso. apply N. auto.
    + change ((1 =? 7) && (r =? 7)) with false. cbv iota.
      unfold ret. exists g.
      repeat split; try reflexivity; try discriminate; tauto.
    + destruct (Z.eqb_spec piece 7) as [->|N7];
        [destruct (Z.eqb_spec r 7) as [->|R7]|]; cbn [andb].
      * run_board.
        refine (ex_intro _ _ (conj eq_refl (conj _ (conj _ (conj _
                  (conj (placed_elsewhere _ _ _ _ Hrc) eq_refl)))))).
        -- discriminate.
        -- intros _ _. now apply placed_here.
        -- intros _ N. exfalso. apply N. auto.
      * unfold ret. exists g.
        repeat split; try reflexivity; try discriminate; tauto.
      * unfold ret. exists g.
        repeat split; try reflexivity; try discriminate; tauto.
  - intros p g g' o Hturn Hacc.
    destruct (turn_accepted_inv p g g' o Hturn Hacc) as
      (sr & sc & scode & er & ec & Hsel & Happly).
    apply apply_move_inv in Happly as (g1 & g2 & Hrel & Hprom & Hfin).
    pose proof (finish_board _ _ _ Hfin) as Hboard.
    apply finish_inv in Hfin as (alive & Hscan & Hcase).
    cbn [white_to_move board with_en_passant_target] in *.
    assert (Hwtm : white_to_move g2 = white_to_move g).
    { apply relocate_turn_fields in Hrel as [<- _].
      now apply handle_promotion_turn_fields in Hprom as [-> _]. }
    rewrite Hwtm in *.
    exists sr, sc, scode, er, ec, g1, g2, alive.
    repeat split; try assumption.
    destruct alive; tauto.
Qed.

Lemma promotion_to_queen_before_win_check_witness :
  (exists g' : game,
     handle_promotion 0 1
       (with_board (place promotion_board 0 1 1) promotion_game)
       = (Ok tt, g') /\
     (1 = 1 -> 0 = 0 -> get_piece (board g') 0 1 = Ok 5) /\
     (1 = 7 -> 0 = 7 -> get_piece (board g') 0 1 = Ok 11) /\
     (~ (1 = 1 /\ 0 = 0) -> ~ (1 = 7 /\ 0 = 7) ->
      g' = with_board (place promotion_board 0 1 1) promotion_game) /\
     (forall r' c',
        in_bounds r' c' = true -> (r', c') <> (0, 1) ->
        get_piece (board g') r' c' =
        get_piece (place promotion_board 0 1 1) r' c') /\
     rights g' = no_rights_used) /\
  (exists sr sc scode er ec g1 g2 alive,
     select promotion_proposal promotion_game =
       (Ok (inr ((sr, sc), scode, (er, ec))), promotion_game) /\
     relocate sr sc scode er ec promotion_game = (Ok tt, g1) /\
     handle_promotion er ec g1 = (Ok tt, g2) /\
     board (snd (turn promotion_proposal promotion_game)) = board g2 /\
     king_exists (board g2) (negb (white_to_move promotion_game))
       = Ok alive /\
     Won true = if alive then Moved else Won (white_to_move promotion_game)).
Proof.
  split.
  - apply (proj1 promotion_to_queen_before_win_check
             (with_board (place promotion_board 0 1 1) promotion_game)
             0 1 1); reflexivity.
  - apply (proj2 promotion_to_queen_before_win_check
             promotion_proposal promotion_game _ (Won true));
      reflexivity.
Defined.

(** ** The en-passant target in play *)

Lemma keeps_occupant_put_piece (r c v r' c' : Z) :
  in_bounds r c = true -> in_bounds r' c' = true -> (r, c) <> (r', c') ->
  keeps (fun g => occupant (board g) r' c') (put_piece r c v).
Proof.
  intros Hrc Hrc' Hne g x g' H.
  rewrite run_put_piece in H by exact Hrc.
  injection H as _ <-. cbn [board with_board].
  now apply occupant_place_other.
Qed.

Ltac keeps_occupant :=
  repeat first
    [ apply keeps_ret
    | apply keeps_modify_rights; reflexivity
    | apply keeps_piece_at
    | apply keeps_reading
    | apply keeps_occupant_put_piece; [on_board | on_board | other_square]
    | apply keeps_bind; [|intros ?]
    | match goal with
      | |- keeps _ (if ?b then _ else _) => destruct b
      end ].

(** Every write of a move is on the rank of its origin or on the rank of
    its destination. *)
Lemma relocate_keeps_other_ranks (sr sc scode er ec r' c' : Z) :
  in_bounds sr sc = true -> in_bounds er ec = true ->
  in_bounds r' c' = true -> r' <> sr -> r' <> er ->
  keeps (fun g => occupant (board g) r' c') (relocate sr sc scode er ec).
Proof.
  intros Hs He Hrc Nsr Ner.
  apply in_bounds_spec in Hs, He, Hrc.
  unfold relocate, handle_castling, handle_en_passant, simple_move.
  keeps_occupant.
Qed.

Lemma handle_promotion_keeps_other_ranks (er ec r' c' : Z) :
  in_bounds er ec = true -> in_bounds r' c' = true -> r' <> er ->
  keeps (fun g => occupant (board g) r' c') (handle_promotion er ec).
Proof.
  intros He Hrc Ner.
  apply in_bounds_spec in He, Hrc.
  unfold handle_promotion.
  keeps_occupant.
Qed.

Lemma accepted_turn_target_empty (p : proposal) (g g' : game) (o : outcome) :
  turn p g = (Ok o, g') -> accepted o = true -> target_empty g'.
Proof.
  intros Hturn Hacc.
  destruct (turn_accepted_inv p g g' o Hturn Hacc) as
    (sr & sc & scode & er & ec & Hsel & Happly).
  apply select_chooses in Hsel as
      (_ & Hcode & _ & _ & moves & Hgen & Hin).
  destruct (double_step_test g sr sc scode er ec moves Hcode Hgen Hin)
    as [Htest Hdouble].
  apply apply_move_inv in Happly as (g1 & g2 & Hrel & Hprom & Hfin).
  pose proof (finish_board _ _ _ Hfin) as Hboard.
  apply finish_en_passant_target in Hfin.
  cbn [board en_passant_target with_en_passant_target] in Hfin, Hboard.
  rewrite Htest in Hfin.
  intros r c Hep. rewrite Hfin in Hep.
  destruct (double_step scode sr er) eqn:Hd; [|discriminate].
  injection Hep as <- <-.
  destruct (Hdouble eq_refl) as (-> & Hmid & Hzero).
  split; [exact Hmid|].
  rewrite get_piece_in in * by exact Hmid.
  apply Ok_inj in Hzero. f_equal.
  rewrite Hboard.
  assert (Hgeo : (sr = 6 /\ er = 4) \/ (sr = 1 /\ er = 3)).
  { unfold double_step in Hd.
    destruct (Z.eqb_spec sr 6), (Z.eqb_spec er 4),
             (Z.eqb_spec sr 1), (Z.eqb_spec er 3);
      auto; rewrite ?andb_false_r in Hd; discriminate. }
  pose proof Hmid as Hb. apply in_bounds_spec in Hb.
  assert (Hs : in_bounds sr sc = true) by (on_board).
  assert (He : in_bounds er sc = true) by (on_board).
  assert (Nsr : (sr + er) / 2 <> sr)
    by (destruct Hgeo as [[-> ->]|[-> ->]]; discriminate).
  assert (Ner : (sr + er) / 2 <> er)
    by (destruct Hgeo as [[-> ->]|[-> ->]]; discriminate).
  rewrite (handle_promotion_keeps_other_ranks er sc _ sc He Hmid Ner
             _ _ _ Hprom).
  rewrite (relocate_keeps_other_ranks sr sc scode er sc _ sc Hs He Hmid
             Nsr Ner _ _ _ Hrel).
  exact Hzero.
Qed.

Lemma play_loop_target_empty (inputs : list proposal) :
  forall (g g' : game) (status : option bool),
    target_empty g ->
    play_loop inputs g = (Ok status, g') -> target_empty g'.
Proof.
  induction inputs as [|p rest IH]; intros g g' status Hg H; simpl in H.
  - now injection H as _ <-.
  - destruct (turn p g) as [[o| |] g1] eqn:Hturn; try discriminate.
    assert (H1 : target_empty g1).
    { destruct (accepted o) eqn:Hacc.
      - eapply accepted_turn_target_empty; eassumption.
      - now rewrite (turn_rejected_inv p g g1 o Hturn Hacc). }
    destruct o;
      try (eapply IH; eassumption).
    now injection H as _ <-.
Qed.

(** C10. In every game state reached from the initial position, whether
    the game goes on or has just been won, the en-passant target, whenever
    it is set, is an empty square of the board; so a pawn candidate equal
    to the target, which generation offers without looking at the square,
    points at an empty square. *)
Theorem en_passant_target_is_empty_in_play
  (inputs : list proposal) (status : option bool) (g : game) :
  play_game inputs = (Ok status, g) ->
  target_empty g /\
  forall row col moves er ec,
    get_possible_moves (get_piece (board g)) (rights g)
      (en_passant_target g) row col = Ok moves ->
    In (er, ec) moves -> en_passant_target g = Some (er, ec) ->
    in_bounds er ec = true /\ get_piece (board g) er ec = Ok 0.
Proof.
  intros Hplay.
  assert (Hinv : target_empty g).
  { eapply play_loop_target_empty; [|exact Hplay].
    intros r c Hep. discriminate. }
  split; [exact Hinv|].
  intros row col moves er ec _ _ Hep. exact (Hinv er ec Hep).
Qed.

Lemma en_passant_target_is_empty_in_play_witness :
  target_empty en_passant_game /\
  forall row col moves er ec,
    get_possible_moves (get_piece (board en_passant_game))
      (rights en_passant_game) (en_passant_target en_passant_game) row col
      = Ok moves ->
    In (er, ec) moves -> en_passant_target en_passant_game = Some (er, ec) ->
    in_bounds er ec = true /\ get_piece (board en_passant_game) er ec = Ok 0.
Proof.
  apply (en_passant_target_is_empty_in_play en_passant_line (None)).
  reflexivity.
Defined.

(** * Properties of the rest of the program *)

(** ** The tensor under TensorFlow's indexing *)

(** The cell an index addresses along one axis. *)
Lemma tf_index_cases (i : Z) :
  (-8 <= i < 8 /\
   tf_index i = Ok (Z.to_nat (if i <? 0 then i + 8 else i))) \/
  (~ -8 <= i < 8 /\ tf_index i = Raise InvalidArgumentError).
Proof.
  unfold tf_index.
  destruct (Z.leb_spec 0 i), (Z.ltb_spec i 8), (Z.leb_spec (-8) i),
           (Z.ltb_spec i 0); cbn [andb]; try lia;
    first [left; split; [lia|reflexivity] | right; split; [lia|reflexivity]].
Qed.

Lemma tf_index_alias (i : Z) :
  0 <= i < 8 -> tf_index (i - 8) = tf_index i.
Proof.
  intros Hi. rewrite (tf_index_in i Hi).
  destruct (tf_index_cases (i - 8)) as [[_ E]|[N _]]; [|lia].
  rewrite E. destruct (Z.ltb_spec (i - 8) 0); [|lia].
  do 2 f_equal. lia.
Qed.

Lemma tf_index_mod (i : Z) :
  -8 <= i < 8 -> tf_index i = Ok (Z.to_nat (i mod 8)).
Proof.
  intros Hi.
  destruct (tf_index_cases i) as [[_ E]|[N _]]; [|lia].
  rewrite E. do 2 f_equal.
  destruct (Z.ltb_spec i 0); Z.div_mod_to_equations; lia.
Qed.

Lemma mod8_bound (i : Z) : 0 <= i mod 8 < 8.
Proof. apply Z.mod_pos_bound. lia. Qed.

Lemma get_piece_mod (b : tensor) (r c : Z) :
  -8 <= r < 8 -> -8 <= c < 8 ->
  get_piece b r c = Ok (occupant b (r mod 8) (c mod 8)).
Proof.
  intros Hr Hc. unfold get_piece.
  now rewrite (tf_index_mod r Hr), (tf_index_mod c Hc).
Qed.

Lemma set_piece_mod (b : tensor) (r c v : Z) :
  -8 <= r < 8 -> -8 <= c < 8 ->
  set_piece b r c v = Ok (place b (r mod 8) (c mod 8) v).
Proof.
  intros Hr Hc. unfold set_piece.
  now rewrite (tf_index_mod r Hr), (tf_index_mod c Hc).
Qed.

(** X1. On a tensor of shape 8x8, an assignment at indices in [-8, 8)
    succeeds, keeps the shape, is read back at the same indices, and leaves
    every cell alone whose indices are not congruent to its own modulo 8. *)
Theorem tensor_write_then_read (b : tensor) (r c v : Z) :
  wf_board b = true -> -8 <= r < 8 -> -8 <= c < 8 ->
  exists b' : tensor,
    set_piece b r c v = Ok b' /\
    wf_board b' = true /\
    get_piece b' r c = Ok v /\
    forall r' c',
      -8 <= r' < 8 -> -8 <= c' < 8 ->
      (r' mod 8, c' mod 8) <> (r mod 8, c mod 8) ->
      get_piece b' r' c' = get_piece b r' c'.
Proof.
  intros Hwf Hr Hc.
  pose proof (mod8_bound r) as Br. pose proof (mod8_bound c) as Bc.
  exists (place b (r mod 8) (c mod 8) v).
  split; [now apply set_piece_mod|].
  split; [now apply wf_place|].
  split.
  - rewrite get_piece_mod by assumption.
    rewrite occupant_place_same; [reflexivity|exact Hwf|].
    now apply in_bounds_spec.
  - intros r' c' Hr' Hc' Hne.
    pose proof (mod8_bound r') as Br'. pose proof (mod8_bound c') as Bc'.
    rewrite !get_piece_mod by assumption. f_equal.
    apply occupant_place_other;
      [now apply in_bounds_spec|now apply in_bounds_spec|congruence].
Qed.

Lemma tensor_write_then_read_witness :
  exists b' : tensor,
    set_piece create_initial_board_tf (-1) 4 0 = Ok b' /\
    wf_board b' = true /\
    get_piece b' (-1) 4 = Ok 0 /\
    forall r' c',
      -8 <= r' < 8 -> -8 <= c' < 8 ->
      (r' mod 8, c' mod 8) <> (-1 mod 8, 4 mod 8) ->
      get_piece b' r' c' = get_piece create_initial_board_tf r' c'.
Proof.
  apply (tensor_write_then_read create_initial_board_tf (-1) 4 0);
    [reflexivity | lia | lia].
Defined.



(** ** Labels of squares *)

Ltac enum_from lo x H :=
  let E := fresh "E" in
  assert (E : x = lo \/ x = lo + 1 \/ x = lo + 2 \/ x = lo + 3 \/
              x = lo + 4 \/ x = lo + 5 \/ x = lo + 6 \/ x = lo + 7)
    by (clear -H; lia);
  clear H;
  repeat (destruct E as [E|E]; [subst x|]); [.. | subst x].

(** X3. The two conversions are inverse to each other between the squares
    of the board and the labels made of a file letter [a] to [h] and a rank
    digit [1] to [8]: the label of a square converts back to the square,
    and such a label converts to a square of the board whose label it
    is. *)
Theorem label_round_trip (unicode_decimal : Z -> option Z) :
  (forall r c,
     in_bounds r c = true ->
     exists label,
       coord_to_pos r c = Ok label /\
       pos_to_coord unicode_decimal label = Ok (r, c)) /\
  (forall file rank,
     97 <= file <= 104 -> 49 <= rank <= 56 ->
     exists r c,
       pos_to_coord unicode_decimal [file; rank] = Ok (r, c) /\
       in_bounds r c = true /\
       coord_to_pos r c = Ok [file; rank]).
Proof.
  split.
  - intros r c H. apply in_bounds_spec in H as [Hr Hc].
    enum_from 0 r Hr; enum_from 0 c Hc;
      eexists; split; reflexivity.
  - intros file rank Hf Hr.
    enum_from 97 file Hf; enum_from 49 rank Hr;
      do 2 eexists; repeat split; reflexivity.
Qed.

Lemma label_round_trip_witness :
  (exists label,
     coord_to_pos 6 4 = Ok label /\
     pos_to_coord (fun _ => None) label = Ok (6, 4)) /\
  (exists r c,
     pos_to_coord (fun _ => None) (text "e2") = Ok (r, c) /\
     in_bounds r c = true /\
     coord_to_pos r c = Ok (text "e2")).
Proof.
  split.
  - apply (proj1 (label_round_trip (fun _ => None)) 6 4). reflexivity.
  - apply (proj2 (label_round_trip (fun _ => None)) 101 50); lia.
Defined.

(** Indexing a Python list. *)
Lemma py_index_spec {A : Type} (l : list A) (idx : Z) (d : A) :
  let n := Z.of_nat (List.length l) in
  (- n <= idx < n ->
   py_index l idx = Ok (nth (Z.to_nat (idx mod n)) l d)) /\
  (~ - n <= idx < n -> py_index l idx = Raise IndexError).
Proof.
  intros n. unfold py_index. fold n.
  set (i := if idx <? 0 then idx + n else idx).
  split.
  - intros H.
    assert (Hi : 0 <= i < n /\ i = idx mod n).
    { subst i. destruct (Z.ltb_spec idx 0).
      - split; [lia|]. apply Z.mod_unique with (q := -1); lia.
      - split; [lia|]. symmetry. apply Z.mod_small. lia. }
    destruct Hi as [Hi <-].
    destruct (Z.leb_spec 0 i); [|lia].
    destruct (Z.ltb_spec i n); [|lia]. cbn [andb].
    rewrite (nth_error_nth' l d) by (subst n; lia). reflexivity.
  - intros H.
    assert (Hi : ~ 0 <= i < n)
      by (subst i; destruct (Z.ltb_spec idx 0); lia).
    destruct (Z.leb_spec 0 i), (Z.ltb_spec i n); cbn [andb];
      try reflexivity; lia.
Qed.

(** X4. [pos_to_coord] validates nothing but the second character: a line
    of fewer than two characters raises [IndexError]; a second character
    of ASCII that is no digit raises [ValueError]; and with a digit it
    returns a coordinate whatever the first character is, ignoring what
    follows the second, a coordinate that is on the board exactly when the
    first character is [a] to [h] and the digit [1] to [8]. *)
Theorem pos_to_coord_checks_second_character_only
  (unicode_decimal : Z -> option Z) :
  (forall line,
     (List.length line < 2)%nat ->
     pos_to_coord unicode_decimal line = Raise IndexError) /\
  (forall file ch rest,
     0 <= ch < 128 -> ~ 48 <= ch <= 57 ->
     pos_to_coord unicode_decimal (file :: ch :: rest) = Raise ValueError) /\
  (forall file digit rest,
     48 <= digit <= 57 ->
     pos_to_coord unicode_decimal (file :: digit :: rest) =
       Ok (8 - (digit - 48), file - 97) /\
     (in_bounds (8 - (digit - 48)) (file - 97) = true <->
      97 <= file <= 104 /\ 49 <= digit <= 56)).
Proof.
  assert (Hsecond : forall (file ch : Z) rest,
            py_index (file :: ch :: rest) 1 = Ok ch).
  { intros file ch rest.
    rewrite (proj1 (py_index_spec (file :: ch :: rest) 1 0));
      [|cbn [List.length]; lia].
    rewrite Z.mod_small by (cbn [List.length]; lia). reflexivity. }
  assert (Hfirst : forall (file ch : Z) rest,
            py_index (file :: ch :: rest) 0 = Ok file).
  { intros file ch rest.
    rewrite (proj1 (py_index_spec (file :: ch :: rest) 0 0));
      [|cbn [List.length]; lia].
    rewrite Z.mod_small by (cbn [List.length]; lia). reflexivity. }
  split; [|split].
  - intros line H. unfold pos_to_coord.
    rewrite (proj2 (py_index_spec line 1 0)) by lia. reflexivity.
  - intros file ch rest Hch Hnd. unfold pos_to_coord, int_of_char.
    rewrite Hsecond. cbn [bind_res].
    destruct (Z.leb_spec 48 ch), (Z.leb_spec ch 57); cbn [andb]; try lia;
      destruct (Z.ltb_spec ch 128); try lia; reflexivity.
  - intros file digit rest Hd. split.
    + unfold pos_to_coord, int_of_char.
      rewrite Hsecond. cbn [bind_res].
      destruct (Z.leb_spec 48 digit), (Z.leb_spec digit 57); cbn [andb];
        try lia.
      cbn [bind_res]. rewrite Hfirst. reflexivity.
    + rewrite in_bounds_spec. lia.
Qed.

Lemma pos_to_coord_checks_second_character_only_witness :
  pos_to_coord (fun _ => None) (text "e") = Raise IndexError /\
  pos_to_coord (fun _ => None) (text "e?") = Raise ValueError /\
  (pos_to_coord (fun _ => None) (text "e9") = Ok (8 - (57 - 48), 101 - 97) /\
   (in_bounds (8 - (57 - 48)) (101 - 97) = true <->
    97 <= 101 <= 104 /\ 49 <= 57 <= 56)).
Proof.
  pose proof (pos_to_coord_checks_second_character_only (fun _ => None))
    as (Hshort & Hbad & Hdigit).
  split; [|split].
  - apply (Hshort (text "e")). simpl. lia.
  - apply (Hbad 101 63 []); lia.
  - apply (Hdigit 101 57 []). lia.
Defined.

(** ** Piece encoding *)

Lemma pystr_eqb_eq (s t : pystr) : pystr_eqb s t = true <-> s = t.
Proof.
  unfold pystr_eqb. destruct (list_eq_dec Z.eq_dec s t); split;
    congruence.
Qed.

(** X5. The two tables are inverse to each other on the twelve pieces:
    [piece2idx] maps a name to a code exactly when [idx2str] maps that code,
    which is not 0, to the name; and [idx2str] has an entry for a code
    exactly when the code lies between 0 and 12. *)
Theorem piece_tables_inverse :
  (forall name code,
     dict_get pystr_eqb piece2idx name = Some code <->
     dict_get Z.eqb idx2str code = Some name /\ code <> 0) /\
  (forall code,
     dict_get Z.eqb idx2str code <> None <-> is_code code).
Proof.
  split.
  - intros name code. split.
    + unfold piece2idx. cbn [dict_get].
      repeat match goal with
             | |- context [pystr_eqb ?k name] =>
                 let E := fresh "E" in
                 destruct (pystr_eqb k name) eqn:E;
                 [apply pystr_eqb_eq in E; subst name;
                  intros H; injection H as <-;
                  split; [reflexivity|discriminate]|]
             end.
      discriminate.
    + intros [H Hne]. revert H.
      unfold idx2str, piece2idx.
      cbn [map app fst snd dict_get].
      repeat match goal with
             | |- context [?k =? code] =>
                 destruct (Z.eqb_spec k code);
                 [subst code; intros H; injection H as <-;
                  try reflexivity; try congruence|]
             end.
      discriminate.
  - intros code. unfold is_code, idx2str, piece2idx.
    cbn [map app fst snd dict_get].
    repeat match goal with
           | |- context [?k =? code] =>
               destruct (Z.eqb_spec k code);
               [subst code; split; [lia|discriminate]|]
           end.
    split; [congruence|lia].
Qed.

(** ** Printing the board *)

Lemma idx2str_name (code : Z) :
  is_code code ->
  exists name,
    dict_get Z.eqb idx2str code = Some name /\ List.length name = 2%nat.
Proof.
  intros H. unfold is_code in H.
  assert (E : code = 0 \/ code = 1 \/ code = 2 \/ code = 3 \/ code = 4 \/
              code = 5 \/ code = 6 \/ code = 7 \/ code = 8 \/ code = 9 \/
              code = 10 \/ code = 11 \/ code = 12) by lia.
  repeat (destruct E as [E|E]; [subst code; eexists; split; reflexivity|]).
  subst code; eexists; split; reflexivity.
Qed.

Lemma rank_cells_sound (b : tensor) (i : Z) :
  cells_all is_code b -> 0 <= i < 8 ->
  forall (js : list Z) (row : pystr),
    (forall j, In j js -> 0 <= j < 8) ->
    exists row',
      rank_cells b i js row = inl row' /\
      List.length row' = (List.length row + 3 * List.length js)%nat.
Proof.
  intros Hcells Hi.
  induction js as [|j js IH]; intros row Hjs; cbn [rank_cells].
  - exists row. split; [reflexivity|]. simpl. lia.
  - assert (Hj : 0 <= j < 8) by (apply Hjs; now left).
    rewrite get_piece_in by (apply in_bounds_spec; lia).
    destruct (idx2str_name (occupant b i j)) as (name & -> & Hlen).
    { apply Hcells; lia. }
    destruct (IH (row ++ ljust 2 name ++ text " ")) as (row' & -> & Hlen').
    { intros k Hk. apply Hjs. now right. }
    exists row'. split; [reflexivity|].
    rewrite Hlen'. unfold ljust. rewrite !length_app, repeat_length, Hlen.
    simpl. lia.
Qed.

Lemma print_ranks_sound (b : tensor) :
  cells_all is_code b ->
  forall (rows : list Z) (out : list pystr),
    (forall i, In i rows -> 0 <= i < 8) ->
    exists ranks,
      print_ranks b rows out =
        {| lines := out ++ ranks ++ [header]; failure := None |} /\
      List.length ranks = List.length rows /\
      Forall (fun row => List.length row = 27%nat) ranks.
Proof.
  intros Hcells.
  induction rows as [|i rows IH]; intros out Hrows; cbn [print_ranks].
  - exists []. split; [reflexivity|]. split; [reflexivity|constructor].
  - assert (Hi : 0 <= i < 8) by (apply Hrows; now left).
    destruct (rank_cells_sound b i Hcells Hi (map Z.of_nat (seq 0 8))
                (str_int (8 - i) ++ text " ")) as (row & -> & Hlen).
    { intros j. apply In_range8. }
    destruct (IH (out ++ [row ++ str_int (8 - i)])) as (ranks & -> & Hn & Hall).
    { intros k Hk. apply Hrows. now right. }
    exists ((row ++ str_int (8 - i)) :: ranks).
    split; [now rewrite <- app_assoc|].
    split; [simpl; now rewrite Hn|].
    constructor; [|exact Hall].
    rewrite length_app, Hlen, length_app.
    enum_from 0 i Hi; reflexivity.
Qed.

(** X6. On a board that holds codes 0 to 12 only, [print_board_tf] raises
    nothing and prints ten lines: the header, eight rank lines of 27
    characters each, and the header again. *)
Theorem print_board_tf_prints_ten_lines (b : tensor) :
  cells_all is_code b ->
  exists ranks : list pystr,
    print_board_tf b =
      {| lines := header :: ranks ++ [header]; failure := None |} /\
    List.length ranks = 8%nat /\
    Forall (fun row => List.length row = 27%nat) ranks.
Proof.
  intros Hcells.
  destruct (print_ranks_sound b Hcells (map Z.of_nat (seq 0 8)) [header])
    as (ranks & E & Hn & Hall).
  { intros i. apply In_range8. }
  exists ranks. split; [exact E|]. split; [exact Hn|exact Hall].
Qed.

Lemma codes_only_sound (b : tensor) :
  codes_only b = true -> sound_board b.
Proof.
  unfold codes_only. intros H.
  apply andb_true_iff in H as [Hwf Hall].
  split; [exact Hwf|].
  destruct (wf_board_rows b Hwf) as [Hl Hr].
  intros i j Hi Hj. unfold cell.
  rewrite forallb_forall in Hall.
  assert (Hrow : In (nth i b []) b) by (apply nth_In; lia).
  specialize (Hall _ Hrow). rewrite forallb_forall in Hall.
  assert (Hcell : In (nth j (nth i b []) 0) (nth i b []))
    by (apply nth_In; rewrite Hr; lia).
  specialize (Hall _ Hcell).
  apply andb_true_iff in Hall as [H1 H2].
  apply Z.leb_le in H1, H2. split; assumption.
Qed.

Lemma print_board_tf_prints_ten_lines_witness :
  exists ranks : list pystr,
    print_board_tf create_initial_board_tf =
      {| lines := header :: ranks ++ [header]; failure := None |} /\
    List.length ranks = 8%nat /\
    Forall (fun row => List.length row = 27%nat) ranks.
Proof.
  apply (print_board_tf_prints_ten_lines create_initial_board_tf).
  apply codes_only_sound. reflexivity.
Defined.

(** ** What the board holds throughout play *)

Lemma sound_board_get (b : tensor) (r c v : Z) :
  sound_board b -> get_piece b r c = Ok v -> is_code v.
Proof.
  intros [_ Hcells] H. unfold get_piece in H.
  apply bind_res_ok_inv in H as (i & Hi & H).
  apply bind_res_ok_inv in H as (j & Hj & H).
  apply Ok_inj in H. subst v.
  apply Hcells; eapply tf_index_lt; eassumption.
Qed.

Lemma sound_board_set (b b' : tensor) (r c v : Z) :
  sound_board b -> is_code v -> set_piece b r c v = Ok b' ->
  sound_board b'.
Proof.
  intros [Hwf Hcells] Hv H. unfold set_piece in H.
  apply bind_res_ok_inv in H as (i & Hi & H).
  apply bind_res_ok_inv in H as (j & Hj & H).
  apply Ok_inj in H. subst b'.
  split; [now apply wf_set_cell|].
  intros i' j' Hi' Hj'.
  destruct (cell_set_cell_cases b i j i' j' v) as [-> | ->]; auto.
Qed.

Lemma sound_ret {A : Type} (a : A) (Q : A -> Prop) :
  Q a -> sound (ret a) Q.
Proof.
  intros HQ g r g' Hs H. unfold ret in H.
  injection H as <- <-. split; [exact Hs|].
  intros a' E. apply Ok_inj in E. now subst.
Qed.

Lemma sound_bind {A B : Type} (m : M A) (k : A -> M B)
  (Q1 : A -> Prop) (Q2 : B -> Prop) :
  sound m Q1 -> (forall a, Q1 a -> sound (k a) Q2) ->
  sound (bind m k) Q2.
Proof.
  intros Hm Hk g r g' Hs H.
  apply bind_inv in H as [(a & g1 & H1 & H2) | [(e & H1 & ->) | [H1 ->]]].
  - destruct (Hm _ _ _ Hs H1) as [Hs1 HQ1].
    exact (Hk a (HQ1 a eq_refl) _ _ _ Hs1 H2).
  - destruct (Hm _ _ _ Hs H1) as [Hs1 _].
    split; [exact Hs1|discriminate].
  - destruct (Hm _ _ _ Hs H1) as [Hs1 _].
    split; [exact Hs1|discriminate].
Qed.

Lemma sound_weaken {A : Type} (m : M A) (Q Q' : A -> Prop) :
  sound m Q -> (forall a, Q a -> Q' a) -> sound m Q'.
Proof.
  intros Hm HQ g r g' Hs H.
  destruct (Hm _ _ _ Hs H) as [Hs' Hr]. split; [exact Hs'|].
  intros a E. apply HQ, Hr, E.
Qed.

Lemma sound_reading {A : Type} (f : game -> res A) :
  sound (reading f) (fun _ => True).
Proof.
  intros g r g' Hs H. apply reading_inv in H as [_ ->]. auto.
Qed.

Lemma sound_lift {A : Type} (r : res A) : sound (lift r) (fun _ => True).
Proof.
  intros g x g' Hs H. unfold lift in H. injection H as _ <-. auto.
Qed.

Lemma sound_piece_at (r c : Z) : sound (piece_at r c) is_code.
Proof.
  intros g x g' Hs H. apply piece_at_inv in H as [-> ->].
  split; [exact Hs|].
  intros v E. eapply sound_board_get; eassumption.
Qed.

Lemma sound_put_piece (r c v : Z) :
  is_code v -> sound (put_piece r c v) (fun _ => True).
Proof.
  intros Hv g x g' Hs H. unfold put_piece in H.
  destruct (set_piece (board g) r c v) as [b'|e|] eqn:E;
    injection H as <- <-; split; auto.
  cbn [board with_board]. eapply sound_board_set; eassumption.
Qed.

Lemma sound_modify (f : game -> game) :
  (forall g, board (f g) = board g) ->
  sound (modify f) (fun _ => True).
Proof.
  intros Hf g r g' Hs H. unfold modify in H. injection H as <- <-.
  rewrite Hf. auto.
Qed.

Ltac sound_game :=
  repeat first
    [ apply sound_ret; exact I
    | apply sound_modify; reflexivity
    | apply sound_put_piece; first [assumption | unfold is_code; lia]
    | eapply sound_bind; [apply sound_piece_at|intros ? ?]
    | eapply sound_bind; [apply sound_reading|intros ? _]
    | eapply sound_bind;
      [apply sound_put_piece; first [assumption | unfold is_code; lia]
      |intros ? _]
    | eapply sound_bind; [apply sound_modify; reflexivity|intros ? _]
    | match goal with
      | |- sound (if ?b then _ else _) _ => destruct b
      end ].

Lemma sound_relocate (sr sc scode er ec : Z) :
  is_code scode -> sound (relocate sr sc scode er ec) (fun _ => True).
Proof.
  intros Hs.
  unfold relocate, handle_castling, handle_en_passant, simple_move.
  eapply sound_bind; [apply sound_reading|intros w _].
  eapply sound_bind; [apply sound_reading|intros [|] _].
  - eapply sound_bind; [apply sound_piece_at|intros p Hp].
    eapply sound_bind; [apply sound_piece_at|intros k Hk].
    eapply sound_bind; [apply sound_put_piece; assumption|intros ? _].
    eapply sound_bind;
      [apply sound_put_piece; unfold is_code; lia|intros ? _].
    eapply sound_bind with (Q1 := fun _ => True);
      [|intros ? _; sound_game].
    destruct (ec >? sc); sound_game.
  - eapply sound_bind; [apply sound_reading|intros [|] _].
    + sound_game.
    + eapply sound_bind; [apply sound_put_piece; assumption|intros ? _].
      eapply sound_bind;
        [apply sound_put_piece; unfold is_code; lia|intros ? _].
      eapply sound_bind with (Q1 := fun _ => True);
        [|intros ? _]; sound_game.
Qed.

Lemma sound_apply_move (sr sc scode er ec : Z) :
  is_code scode -> sound (apply_move sr sc scode er ec) (fun _ => True).
Proof.
  intros Hs. unfold apply_move.
  eapply sound_bind; [apply sound_piece_at|intros ? _].
  eapply sound_bind; [now apply sound_relocate|intros ? _].
  eapply sound_bind; [apply sound_piece_at|intros ? _].
  eapply sound_bind with (Q1 := fun _ => True);
    [unfold handle_promotion; sound_game|intros ? _].
  eapply sound_bind; [apply sound_piece_at|intros ? _].
  unfold update_en_passant_target, finish. sound_game.
Qed.

Lemma sound_select (p : proposal) :
  sound (select p)
    (fun s =>
       match s with
       | inl _ => True
       | inr (_, scode, _) => is_code scode
       end).
Proof.
  unfold select.
  eapply sound_bind; [apply sound_lift|intros [sr sc] _].
  eapply sound_bind; [apply sound_piece_at|intros scode Hcode].
  eapply sound_bind; [apply sound_reading|intros w _].
  destruct (_ || _); [now apply sound_ret|].
  eapply sound_bind; [apply sound_reading|intros moves _].
  destruct moves as [|m moves]; [now apply sound_ret|].
  eapply sound_bind; [apply sound_lift|intros n _].
  eapply sound_bind; [apply sound_lift|intros dest _].
  now apply sound_ret.
Qed.

Lemma sound_turn (p : proposal) : sound (turn p) (fun _ => True).
Proof.
  assert (Ha : sound (attempt p) (fun _ => True)).
  { unfold attempt.
    eapply sound_bind; [apply sound_select|].
    intros [o|[[[sr sc] scode] [er ec]]] Hs; [now apply sound_ret|].
    now apply sound_apply_move. }
  intros g r g' Hs H. unfold turn, try_except in H.
  destruct (attempt p g) as [[o|e|] g1] eqn:E;
    destruct (Ha _ _ _ Hs E) as [Hs1 _].
  - injection H as _ <-. auto.
  - destruct e; unfold ret in H; injection H as _ <-; auto.
  - injection H as _ <-. auto.
Qed.

Lemma sound_play_loop (inputs : list proposal) :
  forall g r g',
    sound_board (board g) -> play_loop inputs g = (r, g') ->
    sound_board (board g').
Proof.
  induction inputs as [|p rest IH]; intros g r g' Hs H; simpl in H.
  - now injection H as _ <-.
  - destruct (turn p g) as [[o|e|] g1] eqn:E;
      destruct (sound_turn p _ _ _ Hs E) as [Hs1 _].
    + destruct o; try (eapply IH; eassumption).
      now injection H as _ <-.
    + now injection H as _ <-.
    + now injection H as _ <-.
Qed.

(** X7. Whatever is typed, and however [play_game] ends or stops, the
    board it leaves is an 8x8 tensor holding codes 0 to 12 only, so that
    printing it raises no [KeyError] and shows ten lines. *)
Theorem play_keeps_board_printable (inputs : list proposal) :
  sound_board (board (snd (play_game inputs))) /\
  failure (print_board_tf (board (snd (play_game inputs)))) = None /\
  List.length (lines (print_board_tf (board (snd (play_game inputs)))))
    = 10%nat.
Proof.
  assert (Hs : sound_board (board (snd (play_game inputs)))).
  { unfold play_game.
    destruct (play_loop inputs new_game) as [r g'] eqn:E.
    eapply sound_play_loop; [|exact E].
    apply codes_only_sound. reflexivity. }
  split; [exact Hs|].
  destruct (print_ranks_sound (board (snd (play_game inputs))) (proj2 Hs)
              (map Z.of_nat (seq 0 8)) [header])
    as (ranks & E & Hn & _).
  { intros i. apply In_range8. }
  unfold print_board_tf. rewrite E. cbn [failure lines].
  split; [reflexivity|].
  cbn [app List.length]. rewrite length_app, Hn. reflexivity.
Qed.


(** ** The candidates of the stepping pieces *)

Lemma own_piece_landing (f : Z -> Z -> Z) (white : bool) (s : square) :
  landing f white s = true <->
  in_bounds (fst s) (snd s) = true /\
  own_piece white (f (fst s) (snd s)) = false.
Proof.
  unfold landing, own_piece.
  destruct (in_bounds _ _), (f _ _ =? 0), (Bool.eqb _ _); cbn; intuition.
Qed.

Section StepFacts.

Variable lookup : Z -> Z -> res Z.
Variable f : Z -> Z -> Z.
Variable rights : castling_rights.

Hypothesis lookup_in :
  forall r c, in_bounds r c = true -> lookup r c = Ok (f r c).

Lemma step_to_eq (white : bool) (r c : Z) (moves : list square) :
  step_to lookup white r c moves =
    Ok (moves ++ filter (landing f white) [(r, c)]).
Proof.
  unfold step_to, landing. cbn [filter fst snd].
  destruct (in_bounds r c) eqn:E; cbn [andb].
  - rewrite (lookup_in r c E). cbn [bind_res].
    destruct (_ || _); [reflexivity|now rewrite app_nil_r].
  - now rewrite app_nil_r.
Qed.

Lemma knight_moves_eq (white : bool) (row col : Z) :
  knight_moves lookup white row col =
    Ok (filter (landing f white) (map (shifted row col) knight_offsets)).
Proof.
  unfold knight_moves, knight_offsets. cbn [for_each].
  rewrite !step_to_eq. cbn [bind_res].
  repeat (rewrite step_to_eq; cbn [bind_res]).
  cbn [app]. rewrite <- !filter_app. reflexivity.
Qed.

Lemma king_steps_eq (white : bool) (row col : Z) :
  king_steps lookup white row col =
    Ok (filter (landing f white) (map (shifted row col) king_offsets)).
Proof.
  unfold king_steps, king_offsets. cbn [for_each Z.eqb andb bind_res].
  repeat (rewrite step_to_eq; cbn [bind_res]).
  cbn [app]. rewrite <- !filter_app. reflexivity.
Qed.

Lemma king_moves_eq (white : bool) (row col : Z) :
  0 <= row < 8 ->
  king_moves lookup rights white row col =
    Ok (filter (landing f white) (map (shifted row col) king_offsets)
        ++ (if kingside_ready f rights white row then [(row, 6)] else [])
        ++ (if queenside_ready f rights white row then [(row, 2)] else [])).
Proof.
  intros Hrow. unfold king_moves.
  rewrite king_steps_eq. cbn [bind_res].
  rewrite !lookup_in by (apply in_bounds_spec; lia). cbn [bind_res].
  now apply castling_candidates_eq.
Qed.

End StepFacts.


Lemma shifted_inj (row col : Z) (d d' : Z * Z) :
  shifted row col d = shifted row col d' -> d = d'.
Proof.
  destruct d, d'. unfold shifted. cbn [fst snd].
  intros H. injection H as H1 H2. f_equal; lia.
Qed.

Lemma NoDup_shifted (row col : Z) (offs : list (Z * Z)) :
  NoDup offs -> NoDup (map (shifted row col) offs).
Proof.
  intros H. induction H as [|d offs Hd _ IH]; cbn [map]; constructor.
  - intros Hin. apply in_map_iff in Hin as (d' & E & Hd').
    apply shifted_inj in E. now subst.
  - exact IH.
Qed.

Lemma In_shifted (row col r c : Z) (offs : list (Z * Z)) :
  In (r, c) (map (shifted row col) offs) <-> In (r - row, c - col) offs.
Proof.
  rewrite in_map_iff. split.
  - intros ([dr dc] & E & H). unfold shifted in E. cbn [fst snd] in E.
    injection E as <- <-.
    now replace (row + dr - row) with dr by lia;
      replace (col + dc - col) with dc by lia.
  - intros H. exists (r - row, c - col). split; [|exact H].
    unfold shifted. cbn [fst snd]. f_equal; lia.
Qed.

Lemma knight_offsets_spec (dr dc : Z) :
  In (dr, dc) knight_offsets <->
  (Z.abs dr = 1 /\ Z.abs dc = 2) \/ (Z.abs dr = 2 /\ Z.abs dc = 1).
Proof.
  unfold knight_offsets. cbn [In]. split.
  - intros H.
    repeat (destruct H as [H|H]; [injection H as <- <-; cbn; lia|]).
    contradiction.
  - intros H.
    assert (E : (dr = -2 /\ dc = -1) \/ (dr = -2 /\ dc = 1) \/
                (dr = -1 /\ dc = -2) \/ (dr = -1 /\ dc = 2) \/
                (dr = 1 /\ dc = -2) \/ (dr = 1 /\ dc = 2) \/
                (dr = 2 /\ dc = -1) \/ (dr = 2 /\ dc = 1)) by lia.
    clear H.
    repeat (destruct E as [[-> ->]|E]; [tauto|]).
    destruct E as [-> ->]. tauto.
Qed.

Lemma king_offsets_spec (dr dc : Z) :
  In (dr, dc) king_offsets <-> Z.max (Z.abs dr) (Z.abs dc) = 1.
Proof.
  unfold king_offsets. cbn [In]. split.
  - intros H.
    repeat (destruct H as [H|H]; [injection H as <- <-; cbn; lia|]).
    contradiction.
  - intros H.
    assert (E : (dr = -1 /\ dc = -1) \/ (dr = -1 /\ dc = 0) \/
                (dr = -1 /\ dc = 1) \/ (dr = 0 /\ dc = -1) \/
                (dr = 0 /\ dc = 1) \/ (dr = 1 /\ dc = -1) \/
                (dr = 1 /\ dc = 0) \/ (dr = 1 /\ dc = 1)) by lia.
    clear H.
    repeat (destruct E as [[-> ->]|E]; [tauto|]).
    destruct E as [-> ->]. tauto.
Qed.

Lemma NoDup_knight_offsets : NoDup knight_offsets.
Proof.
  unfold knight_offsets.
  repeat (constructor; [cbn [In]; intuition discriminate|]).
  constructor.
Qed.

Lemma NoDup_king_offsets : NoDup king_offsets.
Proof.
  unfold king_offsets.
  repeat (constructor; [cbn [In]; intuition discriminate|]).
  constructor.
Qed.

(** X8. A knight standing on a square of the board is offered, without
    repetition, exactly the squares of the board that lie one row and two
    columns or two rows and one column away and do not hold a piece of the
    knight's own side; pieces in between never matter. *)
Theorem knight_candidates (b : tensor) (cr : castling_rights)
  (ep : option square) (row col : Z) :
  in_bounds row col = true ->
  occupant b row col = 3 \/ occupant b row col = 9 ->
  exists moves,
    get_possible_moves (get_piece b) cr ep row col = Ok moves /\
    NoDup moves /\
    forall r c,
      In (r, c) moves <->
      in_bounds r c = true /\
      ((Z.abs (r - row) = 1 /\ Z.abs (c - col) = 2) \/
       (Z.abs (r - row) = 2 /\ Z.abs (c - col) = 1)) /\
      own_piece (occupant b row col <=? 6) (occupant b r c) = false.
Proof.
  intros Hin Hcode.
  set (white := occupant b row col <=? 6).
  assert (E : get_possible_moves (get_piece b) cr ep row col =
              knight_moves (get_piece b) white row col).
  { unfold get_possible_moves. rewrite (get_piece_in b row col Hin).
    cbn [bind_res]. subst white.
    destruct Hcode as [-> | ->]; reflexivity. }
  rewrite E, (knight_moves_eq (get_piece b) (occupant b) (get_piece_in b)).
  eexists. split; [reflexivity|]. split.
  - apply NoDup_filter, NoDup_shifted, NoDup_knight_offsets.
  - intros r c.
    rewrite filter_In, In_shifted, knight_offsets_spec, own_piece_landing.
    cbn [fst snd]. tauto.
Qed.

Lemma knight_candidates_witness :
  exists moves,
    get_possible_moves (get_piece knight_board) no_rights_used None 7 1
      = Ok moves /\
    moves = [(5, 2)].
Proof.
  destruct (knight_candidates knight_board no_rights_used None 7 1)
    as (moves & E & _ & _); [reflexivity|left; reflexivity|].
  exists moves. split; [exact E|].
  vm_compute in E. now injection E as <-.
Defined.

(** X9. A king standing on a square of the board is offered exactly the
    neighbouring squares of the board that do not hold a piece of its own
    side, whether or not they are attacked, together with the square in
    column 6 of its row when the castling conditions hold on the king's
    side of that row, and the square in column 2 when they hold on the
    queen's side. *)
Theorem king_candidates (b : tensor) (cr : castling_rights)
  (ep : option square) (white : bool) (row col : Z) :
  in_bounds row col = true ->
  occupant b row col = king_code white ->
  exists moves,
    get_possible_moves (get_piece b) cr ep row col = Ok moves /\
    forall r c,
      In (r, c) moves <->
      (in_bounds r c = true /\
       Z.max (Z.abs (r - row)) (Z.abs (c - col)) = 1 /\
       own_piece white (occupant b r c) = false) \/
      (r = row /\ c = 6 /\ kingside_ready (occupant b) cr white row = true) \/
      (r = row /\ c = 2 /\ queenside_ready (occupant b) cr white row = true).
Proof.
  intros Hin Hcode.
  rewrite (get_possible_moves_king (get_piece b) cr ep white row col)
    by (now rewrite (get_piece_in b row col Hin), Hcode).
  rewrite (king_moves_eq (get_piece b) (occupant b) cr (get_piece_in b))
    by (apply in_bounds_spec in Hin; lia).
  eexists. split; [reflexivity|].
  intros r c.
  rewrite !in_app_iff, filter_In, In_shifted, king_offsets_spec,
    own_piece_landing.
  cbn [fst snd].
  destruct (kingside_ready _ _ _ _), (queenside_ready _ _ _ _);
    cbn [In]; split; intros H;
    repeat match goal with
           | H : _ \/ _ |- _ => destruct H
           | H : _ /\ _ |- _ => destruct H
           | H : (_, _) = (_, _) |- _ => injection H as <- <-
           end;
    try contradiction; try discriminate; subst; tauto.
Qed.

Lemma king_candidates_witness :
  exists moves,
    get_possible_moves (get_piece sample_board) no_rights_used None 7 4
      = Ok moves /\
    In (7, 6) moves /\ In (7, 2) moves /\ In (6, 4) moves.
Proof.
  destruct (king_candidates sample_board no_rights_used None true 7 4)
    as (moves & E & H); [reflexivity|reflexivity|].
  exists moves. split; [exact E|].
  repeat split; apply H.
  - right. left. repeat split.
  - right. right. repeat split.
  - left. repeat split.
Defined.


(** ** The candidates of a pawn *)

Section PawnFacts.

Variable lookup : Z -> Z -> res Z.
Variable f : Z -> Z -> Z.
Variable en_passant_target : option square.

Hypothesis lookup_in :
  forall r c, in_bounds r c = true -> lookup r c = Ok (f r c).

Lemma pawn_moves_eq (white : bool) (row col : Z) :
  let d := pawn_dir white in
  pawn_moves lookup en_passant_target white row col =
    Ok ((if in_bounds (row + d) col && (f (row + d) col =? 0)
         then (row + d, col)
              :: (if (row =? pawn_start white) && (f (row + 2 * d) col =? 0)
                  then [(row + 2 * d, col)] else [])
         else [])
        ++ filter (capturable f white)
             [(row + d, col + -1); (row + d, col + 1)]
        ++ match en_passant_target with
           | Some (er, ec) =>
               if (row =? pawn_fifth white)
                  && (Z.abs (ec - col) =? 1) && (er =? row + d)
               then [(er, ec)] else []
           | None => []
           end).
Proof.
  cbv zeta. unfold pawn_moves, pawn_dir, pawn_start, pawn_fifth.
  set (d := if white then -1 else 1).
  set (start_row := if white then 6 else 1).
  assert (Hfwd :
    (if in_bounds (row + d) col then
       bind_res (lookup (row + d) col) (fun t =>
         if t =? 0 then
           if row =? start_row then
             bind_res (lookup (row + 2 * d) col) (fun t2 =>
               Ok (if t2 =? 0
                   then [(row + d, col)] ++ [(row + 2 * d, col)]
                   else [(row + d, col)]))
           else Ok [(row + d, col)]
         else Ok [])
     else Ok []) =
    Ok (if in_bounds (row + d) col && (f (row + d) col =? 0)
        then (row + d, col)
             :: (if (row =? start_row) && (f (row + 2 * d) col =? 0)
                 then [(row + 2 * d, col)] else [])
        else [])).
  { destruct (in_bounds (row + d) col) eqn:E; [|reflexivity].
    rewrite (lookup_in _ _ E). cbn [bind_res andb].
    destruct (f (row + d) col =? 0); [|reflexivity].
    destruct (Z.eqb_spec row start_row) as [Hs|Hs]; [|reflexivity].
    assert (E2 : in_bounds (row + 2 * d) col = true).
    { apply in_bounds_spec in E. apply in_bounds_spec.
      subst d start_row. destruct white; lia. }
    rewrite (lookup_in _ _ E2). cbn [bind_res andb].
    now destruct (f (row + 2 * d) col =? 0). }
  rewrite Hfwd. cbn [bind_res for_each].
  assert (Hcap : forall c (moves : list square),
    (if in_bounds (row + d) c then
       bind_res (is_enemy lookup white (row + d) c) (fun e =>
         Ok (if e then moves ++ [(row + d, c)] else moves))
     else Ok moves) =
    Ok (moves ++ filter (capturable f white) [(row + d, c)])).
  { intros c moves. unfold capturable, opposing, is_enemy.
    cbn [filter fst snd].
    destruct (in_bounds (row + d) c) eqn:E; cbn [andb];
      [|now rewrite app_nil_r].
    rewrite (lookup_in _ _ E). cbn [bind_res].
    destruct (negb _ && _); [reflexivity|now rewrite app_nil_r]. }
  rewrite !Hcap. cbn [bind_res]. rewrite Hcap. cbn [bind_res].
  f_equal.
  change [(row + d, col + -1); (row + d, col + 1)]
    with ([(row + d, col + -1)] ++ [(row + d, col + 1)]).
  rewrite filter_app.
  destruct en_passant_target as [[er ec]|];
    [destruct (_ && _ && _)|]; rewrite <- ?app_assoc, ?app_nil_r;
    reflexivity.
Qed.

End PawnFacts.

(** The candidates of a pawn, one by one. *)
Lemma get_possible_moves_pawn_In (b : tensor) (cr : castling_rights)
  (ep : option square) (white : bool) (row col : Z) :
  in_bounds row col = true ->
  occupant b row col = (if white then 1 else 7) ->
  let d := pawn_dir white in
  exists moves,
    get_possible_moves (get_piece b) cr ep row col = Ok moves /\
    forall r c,
      In (r, c) moves <->
      (r = row + d /\ c = col /\
       in_bounds r c = true /\ occupant b r c = 0) \/
      (r = row + 2 * d /\ c = col /\ row = pawn_start white /\
       occupant b (row + d) col = 0 /\ occupant b r c = 0) \/
      (r = row + d /\ Z.abs (c - col) = 1 /\
       in_bounds r c = true /\ opposing white (occupant b r c) = true) \/
      (ep = Some (r, c) /\ row = pawn_fifth white /\
       r = row + d /\ Z.abs (c - col) = 1).
Proof.
  intros Hin Hcode d.
  rewrite (get_possible_moves_pawn (get_piece b) cr ep row col
             (if white then 1 else 7))
    by (rewrite ?(get_piece_in b row col Hin), ?Hcode;
        destruct white; auto).
  replace ((if white then 1 else 7) =? 1) with white by now destruct white.
  rewrite (pawn_moves_eq (get_piece b) (occupant b) ep (get_piece_in b)).
  fold d.
  eexists. split; [reflexivity|].
  intros r c. rewrite !in_app_iff, filter_In. unfold capturable.
  cbn [In fst snd].
  assert (Hstart : row = pawn_start white ->
                   in_bounds (row + d) col = true).
  { intros ->. apply in_bounds_spec in Hin. apply in_bounds_spec.
    subst d. unfold pawn_start, pawn_dir. destruct white; lia. }
  split.
  - intros [H | [[H1 H2] | H]].
    + destruct (in_bounds (row + d) col) eqn:E1; [|contradiction].
      destruct (Z.eqb_spec (occupant b (row + d) col) 0) as [E0|];
        [|contradiction].
      cbn [andb] in H. destruct H as [H|H].
      * injection H as <- <-. left. auto.
      * destruct (Z.eqb_spec row (pawn_start white)) as [Es|];
          [|contradiction].
        destruct (Z.eqb_spec (occupant b (row + 2 * d) col) 0) as [E2|];
          [|contradiction].
        destruct H as [H|[]]. injection H as <- <-.
        right. left. auto.
    + apply andb_true_iff in H2 as [Hb Ho].
      right. right. left.
      destruct H1 as [H1|[H1|[]]]; injection H1 as <- <-;
        (split; [reflexivity|split; [lia|split; assumption]]).
    + right. right. right.
      destruct ep as [[er ec]|]; [|contradiction].
      destruct (Z.eqb_spec row (pawn_fifth white)); [|contradiction].
      destruct (Z.eqb_spec (Z.abs (ec - col)) 1); [|contradiction].
      destruct (Z.eqb_spec er (row + d)); [|contradiction].
      destruct H as [H|[]]. injection H as <- <-. auto.
  - intros [(-> & -> & Hb & Ho) | [(-> & -> & Hs & Ho1 & Ho2) |
            [(-> & Hc & Hb & Ho) | (-> & Hs & -> & Hc)]]].
    + left. rewrite Hb, Ho. cbn. auto.
    + left. rewrite (Hstart Hs), Ho1, Ho2.
      replace (row =? pawn_start white) with true
        by (symmetry; now apply Z.eqb_eq).
      cbn. auto.
    + right. left. rewrite Hb, Ho. split; [|reflexivity].
      assert (c = col + -1 \/ c = col + 1) as [-> | ->] by lia; auto.
    + right. right.
      replace (row =? pawn_fifth white) with true
        by (symmetry; now apply Z.eqb_eq).
      replace (Z.abs (c - col) =? 1) with true
        by (symmetry; now apply Z.eqb_eq).
      rewrite Z.eqb_refl. cbn. auto.
Qed.

(** X10. A pawn standing on a square of the board is offered exactly: the
    square one row ahead when it is on the board and empty; the square two
    rows ahead when the pawn stands on its start rank and both squares
    ahead are empty; each square diagonally ahead that is on the board and
    holds an opposing piece; and the stored en-passant target when the
    pawn stands on its fifth rank and the target is diagonally ahead. *)
Theorem pawn_candidates (b : tensor) (cr : castling_rights)
  (ep : option square) (white : bool) (row col : Z) :
  in_bounds row col = true ->
  occupant b row col = (if white then 1 else 7) ->
  let d := pawn_dir white in
  exists moves,
    get_possible_moves (get_piece b) cr ep row col = Ok moves /\
    forall r c,
      In (r, c) moves <->
      (r = row + d /\ c = col /\
       in_bounds r c = true /\ occupant b r c = 0) \/
      (r = row + 2 * d /\ c = col /\ row = pawn_start white /\
       occupant b (row + d) col = 0 /\ occupant b r c = 0) \/
      (r = row + d /\ Z.abs (c - col) = 1 /\
       in_bounds r c = true /\ opposing white (occupant b r c) = true) \/
      (ep = Some (r, c) /\ row = pawn_fifth white /\
       r = row + d /\ Z.abs (c - col) = 1).
Proof.
  exact (get_possible_moves_pawn_In b cr ep white row col).
Qed.

Lemma pawn_candidates_witness :
  exists moves,
    get_possible_moves (get_piece create_initial_board_tf)
      no_rights_used None 6 4 = Ok moves /\
    In (5, 4) moves /\ In (4, 4) moves /\ ~ In (5, 3) moves.
Proof.
  destruct (pawn_candidates create_initial_board_tf no_rights_used None
              true 6 4) as (moves & E & H);
    [reflexivity|reflexivity|].
  exists moves. split; [exact E|].
  split; [|split].
  - apply H. left. repeat split.
  - apply H. right. left. repeat split.
  - intros N. apply H in N.
    destruct N as [(_ & N & _) | [(N & _) | [(_ & _ & _ & N) | (N & _)]]];
      discriminate.
Defined.


(** ** What no piece is offered *)

Section LandingFacts.

Variable lookup : Z -> Z -> res Z.
Variable f : Z -> Z -> Z.
Variable rights : castling_rights.
Variable en_passant_target : option square.

Hypothesis lookup_in :
  forall r c, in_bounds r c = true -> lookup r c = Ok (f r c).

Lemma landing_empty (white : bool) (r c : Z) :
  in_bounds r c = true -> f r c = 0 -> landing f white (r, c) = true.
Proof.
  intros Hb H0. unfold landing. cbn [fst snd]. now rewrite Hb, H0.
Qed.

Lemma landing_capturable (white : bool) (s : square) :
  capturable f white s = true -> landing f white s = true.
Proof.
  unfold capturable, landing, opposing.
  destruct (in_bounds _ _), (f _ _ =? 0), (Bool.eqb _ _); cbn; auto.
Qed.

Lemma ray_candidates_landing (white : bool) (row col dr dc : Z)
  (cands : list square) :
  ray_candidates f white row col dr dc cands ->
  Forall (fun s => landing f white s = true) cands.
Proof.
  intros (n & Hempty & _ & ->).
  apply Forall_app. split.
  - apply Forall_forall. intros s Hs.
    apply in_map_iff in Hs as (k & <- & Hk).
    apply in_map_iff in Hk as (i & <- & Hi).
    apply in_seq in Hi.
    destruct (Hempty (Z.of_nat i)) as [Hb H0]; [lia|].
    now apply landing_empty.
  - destruct (in_bounds _ _ && opposing _ _) eqn:E; constructor;
      [|constructor].
    now apply landing_capturable.
Qed.

Lemma slide_landing (white : bool) (row col : Z) (dirs : list (Z * Z))
  (moves : list square) :
  incl dirs queen_dirs ->
  slide lookup white row col dirs = Ok moves ->
  Forall (fun s => landing f white s = true) moves.
Proof.
  intros Hdirs H.
  destruct (slide_spec lookup f lookup_in white row col dirs Hdirs)
    as (css & Hrays & E).
  rewrite E in H. apply Ok_inj in H. subst moves.
  clear E Hdirs.
  induction Hrays as [|d cs dirs' css' Hcs _ IH]; cbn [concat].
  - constructor.
  - apply Forall_app. split; [|exact IH].
    eapply ray_candidates_landing. exact Hcs.
Qed.

Lemma pawn_moves_landing (white : bool) (row col : Z)
  (moves : list square) :
  in_bounds row col = true ->
  pawn_moves lookup en_passant_target white row col = Ok moves ->
  Forall (fun s => landing f white s = true \/
                   (en_passant_target = Some s /\
                    Z.abs (snd s - col) = 1)) moves.
Proof.
  intros Hin H.
  rewrite (pawn_moves_eq lookup f en_passant_target lookup_in) in H.
  apply Ok_inj in H. subst moves.
  apply in_bounds_spec in Hin.
  repeat (apply Forall_app; split).
  - destruct (in_bounds (row + pawn_dir white) col) eqn:Hb;
      [|constructor].
    destruct (Z.eqb_spec (f (row + pawn_dir white) col) 0) as [H0|];
      [|constructor].
    cbn [andb]. constructor; [left; now apply landing_empty|].
    destruct (Z.eqb_spec row (pawn_start white)) as [Hs|]; [|constructor].
    destruct (Z.eqb_spec (f (row + 2 * pawn_dir white) col) 0) as [H2|];
      constructor; [|constructor].
    left. apply landing_empty; [|exact H2].
    apply in_bounds_spec. unfold pawn_start, pawn_dir in *.
    destruct white; lia.
  - apply Forall_forall. intros s Hs. apply filter_In in Hs as [_ Hs].
    left. now apply landing_capturable.
  - destruct en_passant_target as [[er ec]|]; [|constructor].
    destruct (Z.eqb_spec row (pawn_fifth white)); [|constructor].
    destruct (Z.eqb_spec (Z.abs (ec - col)) 1); [|constructor].
    destruct (Z.eqb_spec er (row + pawn_dir white)); constructor;
      [|constructor].
    right. auto.
Qed.

Lemma king_moves_landing (white : bool) (row col : Z)
  (moves : list square) :
  in_bounds row col = true ->
  king_moves lookup rights white row col = Ok moves ->
  Forall (fun s => landing f white s = true) moves.
Proof.
  intros Hin H. apply in_bounds_spec in Hin.
  rewrite (king_moves_eq lookup f rights lookup_in) in H by lia.
  apply Ok_inj in H. subst moves.
  repeat (apply Forall_app; split).
  - apply Forall_forall. intros s Hs. now apply filter_In in Hs.
  - destruct (kingside_ready f rights white row) eqn:E; constructor;
      [|constructor].
    unfold kingside_ready in E.
    apply andb_true_iff in E as [_ E]. apply Z.eqb_eq in E.
    apply landing_empty; [apply in_bounds_spec; lia|exact E].
  - destruct (queenside_ready f rights white row) eqn:E; constructor;
      [|constructor].
    unfold queenside_ready in E.
    apply andb_true_iff in E as [E _].
    apply andb_true_iff in E as [_ E]. apply Z.eqb_eq in E.
    apply landing_empty; [apply in_bounds_spec; lia|exact E].
Qed.

Lemma knight_moves_landing (white : bool) (row col : Z)
  (moves : list square) :
  knight_moves lookup white row col = Ok moves ->
  Forall (fun s => landing f white s = true) moves.
Proof.
  intros H. rewrite (knight_moves_eq lookup f lookup_in) in H.
  apply Ok_inj in H. subst moves.
  apply Forall_forall. intros s Hs. now apply filter_In in Hs.
Qed.

Lemma get_possible_moves_landing (row col : Z) (moves : list square) :
  in_bounds row col = true ->
  get_possible_moves lookup rights en_passant_target row col = Ok moves ->
  Forall (fun s => landing f (f row col <=? 6) s = true \/
                   (en_passant_target = Some s /\
                    Z.abs (snd s - col) = 1)) moves.
Proof.
  intros Hin H. unfold get_possible_moves in H.
  rewrite (lookup_in _ _ Hin) in H. cbn [bind_res] in H.
  assert (Hweak : forall ms,
            Forall (fun s => landing f (f row col <=? 6) s = true) ms ->
            Forall (fun s => landing f (f row col <=? 6) s = true \/
                             (en_passant_target = Some s /\
                              Z.abs (snd s - col) = 1)) ms).
  { apply Forall_impl. auto. }
  destruct (f row col =? 0);
    [apply Ok_inj in H; subst; constructor|].
  set (white := f row col <=? 6) in *.
  set (ptype := if white then f row col else f row col - 6) in *.
  destruct (ptype =? 1);
    [eapply pawn_moves_landing; eassumption|].
  apply Hweak.
  destruct (ptype =? 2);
    [eapply slide_landing; [|exact H]; intros d Hd; simpl in *; tauto|].
  destruct (ptype =? 4);
    [eapply slide_landing; [|exact H]; intros d Hd; simpl in *; tauto|].
  destruct (ptype =? 5);
    [eapply slide_landing; [|exact H]; apply incl_refl|].
  destruct (ptype =? 6); [now apply king_moves_landing in H|].
  destruct (ptype =? 3); [now apply knight_moves_landing in H|].
  apply Ok_inj in H; subst; constructor.
Qed.

End LandingFacts.

(** X11. Whatever piece stands on the origin, no candidate is the origin
    itself, and every candidate is a square of the board that is empty or
    holds a piece of the other side; the one exception is the stored
    en-passant target, which a pawn is offered without its occupant being
    read. *)
Theorem candidates_spare_own_side (b : tensor) (cr : castling_rights)
  (ep : option square) (row col : Z) (moves : list square) (r c : Z) :
  in_bounds row col = true ->
  get_possible_moves (get_piece b) cr ep row col = Ok moves ->
  In (r, c) moves ->
  (r, c) <> (row, col) /\
  (ep = Some (r, c) \/
   (in_bounds r c = true /\
    own_piece (occupant b row col <=? 6) (occupant b r c) = false)).
Proof.
  intros Hin H Hrc.
  assert (Hcode : occupant b row col <> 0).
  { intros E0. unfold get_possible_moves in H.
    rewrite (get_piece_in b row col Hin), E0 in H. cbn in H.
    apply Ok_inj in H. now subst moves. }
  pose proof (get_possible_moves_landing (get_piece b) (occupant b) cr ep
                (get_piece_in b) row col moves Hin H) as Hall.
  rewrite Forall_forall in Hall. specialize (Hall _ Hrc).
  cbn [fst snd] in Hall.
  destruct Hall as [Hl | [He Hc]].
  - apply own_piece_landing in Hl as [Hb Ho]. cbn [fst snd] in *.
    split; [|auto].
    intros E. injection E as -> ->.
    unfold own_piece in Ho. apply Z.eqb_neq in Hcode.
    rewrite Hcode, eqb_reflx in Ho. discriminate.
  - split; [|auto]. intros E. injection E as -> ->. lia.
Qed.

Lemma candidates_spare_own_side_witness :
  (7, 1) <> (7, 0) /\
  (None = Some (7, 1) \/
   (in_bounds 7 1 = true /\
    own_piece (occupant sample_board 7 0 <=? 6)
      (occupant sample_board 7 1) = false)).
Proof.
  apply (candidates_spare_own_side sample_board no_rights_used None
           7 0 [(7, 1); (7, 2); (7, 3)] 7 1);
    [reflexivity|vm_compute; reflexivity|left; reflexivity].
Defined.


(** ** The castling flags in play *)

Lemma rights_le_refl (cr : castling_rights) : rights_le cr cr.
Proof. intros w. split; auto. Qed.

Lemma rights_le_trans (a b c : castling_rights) :
  rights_le a b -> rights_le b c -> rights_le a c.
Proof.
  intros Hab Hbc w. destruct (Hab w) as [H1 H2], (Hbc w) as [H3 H4].
  split; auto.
Qed.

Ltac marks :=
  unfold mark_white_king, mark_black_king, mark_white_rook_k,
    mark_white_rook_q, mark_black_rook_k, mark_black_rook_q.

Lemma rights_le_mark (f : castling_rights -> castling_rights)
  (cr : castling_rights) :
  In f [mark_white_king; mark_black_king; mark_white_rook_k;
        mark_white_rook_q; mark_black_rook_k; mark_black_rook_q] ->
  rights_le cr (f cr).
Proof.
  cbn [In]. intros H w.
  repeat (destruct H as [<-|H];
          [marks; destruct w; (split; [|intros [|]]); cbn; auto|]).
  contradiction.
Qed.

Section Maintains.

Variable I : game -> Prop.

Lemma maintains_ret {A : Type} (a : A) : maintains I (ret a).
Proof. intros g r g' HI H. unfold ret in H. now injection H as _ <-. Qed.

Lemma maintains_bind {A B : Type} (m : M A) (k : A -> M B) :
  maintains I m -> (forall a, maintains I (k a)) -> maintains I (bind m k).
Proof.
  intros Hm Hk g r g' HI H.
  apply bind_inv in H as [(a & g1 & H1 & H2) | [(e & H1 & _) | [H1 _]]].
  - exact (Hk a _ _ _ (Hm _ _ _ HI H1) H2).
  - exact (Hm _ _ _ HI H1).
  - exact (Hm _ _ _ HI H1).
Qed.

Lemma maintains_reading {A : Type} (f : game -> res A) :
  maintains I (reading f).
Proof. intros g r g' HI H. apply reading_inv in H as [_ ->]. exact HI. Qed.

Lemma maintains_lift {A : Type} (x : res A) : maintains I (lift x).
Proof. intros g r g' HI H. unfold lift in H. now injection H as _ <-. Qed.

Lemma maintains_piece_at (r c : Z) : maintains I (piece_at r c).
Proof. apply maintains_reading. Qed.

Lemma maintains_try_except {A : Type} (m h : M A) :
  maintains I m -> maintains I h -> maintains I (try_except m h).
Proof.
  intros Hm Hh g r g' HI H. unfold try_except in H.
  destruct (m g) as [[a|e|] g1] eqn:E; pose proof (Hm _ _ _ HI E) as H1.
  - now injection H as _ <-.
  - destruct e; try (now injection H as _ <-); exact (Hh _ _ _ H1 H).
  - now injection H as _ <-.
Qed.

Lemma maintains_select (p : proposal) : maintains I (select p).
Proof.
  intros g r g' HI H. now rewrite (select_reads _ _ _ _ H).
Qed.

Lemma maintains_play_loop (inputs : list proposal) :
  (forall p, maintains I (turn p)) ->
  forall g r g', I g -> play_loop inputs g = (r, g') -> I g'.
Proof.
  intros Hturn.
  induction inputs as [|p rest IH]; intros g r g' HI H; simpl in H.
  - now injection H as _ <-.
  - destruct (turn p g) as [[o|e|] g1] eqn:E;
      pose proof (Hturn p _ _ _ HI E) as H1.
    + destruct o; try (eapply IH; eassumption).
      now injection H as _ <-.
    + now injection H as _ <-.
    + now injection H as _ <-.
Qed.

End Maintains.

Section Flags.

Variable cr0 : castling_rights.

Let flags_kept (g : game) : Prop := rights_le cr0 (rights g).

Lemma flags_put_piece (r c v : Z) : maintains flags_kept (put_piece r c v).
Proof.
  intros g x g' HI H. unfold put_piece in H.
  destruct (set_piece (board g) r c v); injection H as _ <-; exact HI.
Qed.

Lemma flags_mark (f : castling_rights -> castling_rights) :
  (forall cr, rights_le cr (f cr)) ->
  maintains flags_kept (modify (with_rights f)).
Proof.
  intros Hf g x g' HI H. unfold modify in H. injection H as _ <-.
  unfold flags_kept. cbn [rights with_rights].
  eapply rights_le_trans; [exact HI|apply Hf].
Qed.

Lemma flags_modify (f : game -> game) :
  (forall g, rights (f g) = rights g) ->
  maintains flags_kept (modify f).
Proof.
  intros Hf g x g' HI H. unfold modify in H. injection H as _ <-.
  unfold flags_kept. now rewrite Hf.
Qed.

Ltac flags_game :=
  repeat first
    [ apply maintains_ret
    | apply maintains_piece_at
    | apply maintains_reading
    | apply flags_put_piece
    | apply flags_mark; intros ?; apply rights_le_mark; cbn [In]; tauto
    | apply flags_modify; reflexivity
    | apply maintains_bind; [|intros ?]
    | match goal with
      | |- maintains _ (modify (with_rights (if ?b then _ else _))) =>
          destruct b
      | |- maintains _ (if ?b then _ else _) => destruct b
      end ].

Lemma flags_turn (p : proposal) : maintains flags_kept (turn p).
Proof.
  unfold turn. apply maintains_try_except; [|apply maintains_ret].
  unfold attempt. apply maintains_bind; [apply maintains_select|].
  intros [o|[[[sr sc] scode] [er ec]]]; [apply maintains_ret|].
  unfold apply_move, relocate, handle_castling, handle_en_passant,
    simple_move, handle_promotion, update_en_passant_target, finish.
  flags_game.
Qed.

End Flags.

Lemma is_castling_move_flagged (b : tensor) (cr : castling_rights)
  (w : bool) (sr sc er ec : Z) :
  king_moved w cr = true \/
  (exists k, rook_moved w k cr = true /\ ec = castling_column k) ->
  is_castling_move b cr sr sc er ec w = Ok false.
Proof.
  intros H. unfold is_castling_move.
  destruct (_ || _); [reflexivity|].
  destruct (_ || _); [reflexivity|].
  destruct H as [H | ([|] & H & ->)]; destruct w; cbn in H;
    rewrite H; cbn; try reflexivity;
    destruct (white_king_moved cr), (black_king_moved cr); reflexivity.
Qed.

(** X12. Castling flags are only ever set: whatever is typed from a
    state onwards and however play ends, every king-moved or rook-moved
    flag that was set is still set, so a side whose king flag is set is
    never again eligible to castle, and a side whose rook flag is set is
    never again eligible to castle on that rook's side. *)
Theorem castling_rights_never_return (inputs : list proposal) (g : game) :
  let g' := snd (play_loop inputs g) in
  rights_le (rights g) (rights g') /\
  forall (w : bool) (sr sc er ec : Z),
    (king_moved w (rights g) = true ->
     is_castling_move (board g') (rights g') sr sc er ec w = Ok false) /\
    (forall k : bool,
       rook_moved w k (rights g) = true ->
       is_castling_move (board g') (rights g') sr sc er (castling_column k) w
         = Ok false).
Proof.
  cbv zeta.
  assert (H : rights_le (rights g) (rights (snd (play_loop inputs g)))).
  { destruct (play_loop inputs g) as [r g'] eqn:E.
    eapply (maintains_play_loop (fun g1 => rights_le (rights g) (rights g1)));
      [intros p; apply flags_turn|apply rights_le_refl|exact E]. }
  split; [exact H|].
  intros w sr sc er ec. destruct (H w) as [Hk Hr]. split.
  - intros Hw. apply is_castling_move_flagged. left. auto.
  - intros k Hw. apply is_castling_move_flagged. right. exists k. auto.
Qed.

Lemma castling_rights_never_return_witness :
  is_castling_move
    (board (snd (play_loop [lone_king_proposal]
                   (with_rights mark_white_king lone_king_game))))
    (rights (snd (play_loop [lone_king_proposal]
                    (with_rights mark_white_king lone_king_game))))
    7 4 7 6 true = Ok false.
Proof.
  apply (proj2 (castling_rights_never_return [lone_king_proposal]
                  (with_rights mark_white_king lone_king_game))
           true 7 4 7 6).
  reflexivity.
Defined.


Lemma modify_inv (f : game -> game) (g g' : game) (x : res unit) :
  modify f g = (x, g') -> x = Ok tt /\ g' = f g.
Proof. unfold modify. intros H. injection H as <- <-. auto. Qed.

Lemma put_piece_rights (r c v : Z) (g g' : game) (x : res unit) :
  put_piece r c v g = (x, g') -> rights g' = rights g.
Proof.
  intros H.
  exact (keeps_put_piece rights (fun _ _ => eq_refl) r c v g x g' H).
Qed.

Lemma is_castling_move_origin (b : tensor) (cr : castling_rights)
  (sr sc er ec : Z) (w : bool) :
  is_castling_move b cr sr sc er ec w = Ok true ->
  sr = home_rank w /\ sc = 4.
Proof.
  unfold is_castling_move, home_rank.
  destruct (Z.eqb_spec sr (if w then 7 else 0)) as [->|];
    [|discriminate].
  destruct (Z.eqb_spec sc 4) as [->|]; [|discriminate].
  now destruct w.
Qed.

Lemma is_en_passant_pawn (b : tensor) (ep : option square)
  (sr sc er ec : Z) (w : bool) :
  is_en_passant b ep sr sc er ec w = Ok true ->
  get_piece b sr sc = Ok (if w then 1 else 7) /\ ep = Some (er, ec).
Proof.
  unfold is_en_passant. intros H.
  apply bind_res_ok_inv in H as (piece & Hp & H).
  destruct (Z.eqb_spec piece (if w then 1 else 7)) as [->|];
    [|discriminate].
  split; [exact Hp|].
  cbn [negb] in H. apply Ok_inj in H.
  destruct ep as [[tr tc]|]; [|discriminate].
  apply andb_true_iff in H as [H1 H2].
  apply Z.eqb_eq in H1, H2. now subst.
Qed.

Lemma simple_move_rights (sr sc scode er ec : Z) (g g' : game) :
  simple_move sr sc scode er ec g = (Ok tt, g') ->
  rights_le (rights g) (rights g') /\
  forall w : bool,
    (scode = king_code w -> king_moved w (rights g') = true) /\
    (forall k : bool,
       scode = rook_code w -> sr = home_rank w -> sc = corner_column k ->
       rook_moved w k (rights g') = true).
Proof.
  unfold simple_move. intros H.
  apply bind_ok_inv in H as ([] & g1 & H1 & H).
  apply bind_ok_inv in H as ([] & g2 & H2 & H).
  apply bind_ok_inv in H as ([] & g3 & H3 & H).
  apply put_piece_rights in H1, H2.
  assert (E3 : rights_le (rights g) (rights g3) /\
               forall w k : bool,
                 scode = rook_code w -> sr = home_rank w ->
                 sc = corner_column k ->
                 rook_moved w k (rights g3) = true).
  { rewrite <- H1, <- H2. clear H H1 H2.
    unfold rook_code, home_rank, corner_column.
    destruct (Z.eqb_spec scode 2) as [->|N2];
      [|destruct (Z.eqb_spec scode 8) as [->|N8]];
      repeat match type of H3 with
             | context [?a =? ?b] => destruct (Z.eqb_spec a b)
             end;
      cbn [andb] in H3;
      first [apply modify_inv in H3 as [_ ->]
            |unfold ret in H3; injection H3 as <-];
      (split;
       [first [apply rights_le_refl
              |cbn [rights with_rights]; apply rights_le_mark;
               cbn [In]; tauto]
       |intros [|] [|]; intros; subst; try discriminate; try lia;
        reflexivity]). }
  destruct E3 as [Hle Hrook].
  assert (E4 : rights_le (rights g3) (rights g') /\
               forall w, scode = king_code w ->
                         king_moved w (rights g') = true).
  { clear Hle Hrook H1 H2 H3. unfold king_code.
    repeat match type of H with
           | context [?a =? ?b] => destruct (Z.eqb_spec a b)
           end;
      cbn [andb] in H;
      first [apply modify_inv in H as [_ ->]
            |unfold ret in H; injection H as <-];
      (split;
       [first [apply rights_le_refl
              |cbn [rights with_rights]; apply rights_le_mark;
               cbn [In]; tauto]
       |intros [|]; intros; subst; try discriminate; try lia;
        reflexivity]). }
  destruct E4 as [Hle' Hking].
  split; [eapply rights_le_trans; eassumption|].
  intros w. split; [apply Hking|].
  intros k Hc Hr Hk. destruct (Hle' w) as [_ Hk']. apply Hk'. auto.
Qed.

Lemma handle_castling_rights (sr sc er ec scode : Z) (g g' : game) :
  get_piece (board g) sr sc = Ok scode ->
  handle_castling sr sc er ec g = (Ok tt, g') ->
  forall w : bool, scode = king_code w -> king_moved w (rights g') = true.
Proof.
  unfold handle_castling. intros Hcode H.
  apply bind_ok_inv in H as (p & g0 & H0 & H).
  apply piece_at_inv in H0 as [H0 ->].
  rewrite Hcode in H0. apply Ok_inj in H0. subst p.
  apply bind_ok_inv in H as (k & g0 & _ & H).
  apply bind_ok_inv in H as ([] & g1 & _ & H).
  apply bind_ok_inv in H as ([] & g2 & _ & H).
  apply bind_ok_inv in H as ([] & g3 & _ & H).
  apply modify_inv in H as [_ ->].
  intros [|] ->; reflexivity.
Qed.

(** The flags an accepted turn sets. *)
Lemma accepted_turn_sets_flags
  (p : proposal) (g g' : game) (o : outcome) (sr sc scode : Z) :
  turn p g = (Ok o, g') -> accepted o = true ->
  start p = Some (sr, sc) ->
  get_piece (board g) sr sc = Ok scode ->
  forall w : bool,
    (scode = king_code w -> king_moved w (rights g') = true) /\
    (forall k : bool,
       scode = rook_code w -> sr = home_rank w -> sc = corner_column k ->
       rook_moved w k (rights g') = true).
Proof.
  intros Hturn Hacc Hstart Hcode w.
  destruct (turn_accepted_inv p g g' o Hturn Hacc) as
    (sr' & sc' & scode' & er & ec & Hsel & Happly).
  apply select_chooses in Hsel as (Hs & Hc & _ & Hside & _).
  rewrite Hstart in Hs. injection Hs as <- <-.
  rewrite Hcode in Hc. apply Ok_inj in Hc. subst scode'.
  apply apply_move_inv in Happly as (g1 & g2 & Hrel & Hprom & Hfin).
  assert (Hr2 : rights g' = rights g1).
  { pose proof (keeps_handle_promotion rights (fun _ _ => eq_refl)
                  er ec _ _ _ Hprom) as E2.
    apply finish_inv in Hfin as (alive & _ & Hfin).
    destruct alive; destruct Hfin as [_ ->]; exact E2. }
  rewrite Hr2. clear Hr2 Hprom Hfin Hturn.
  unfold relocate in Hrel.
  apply bind_ok_inv in Hrel as (wtm & g0 & H0 & Hrel).
  apply reading_inv in H0 as [H0 ->]. apply Ok_inj in H0. subst wtm.
  apply bind_ok_inv in Hrel as (castling & g0 & H0 & Hrel).
  apply reading_inv in H0 as [Hcas ->]. symmetry in Hcas.
  destruct castling.
  - split; [now apply (handle_castling_rights sr sc er ec scode g)|].
    intros k Hrook _ Hcol.
    apply is_castling_move_origin in Hcas as [_ ->].
    destruct k; discriminate.
  - apply bind_ok_inv in Hrel as (en_passant & g0 & H0 & Hrel).
    apply reading_inv in H0 as [Hep ->]. symmetry in Hep.
    destruct en_passant.
    + apply is_en_passant_pawn in Hep as [Hpawn _].
      rewrite Hcode in Hpawn. apply Ok_inj in Hpawn.
      split; [intros Hk|intros k Hk _ _];
        destruct w, (white_to_move g); subst scode; discriminate.
    + now apply simple_move_rights in Hrel as [_ Hrel].
Qed.




(** ** What the loop answers to the two lines typed *)

Lemma get_piece_outside (b : tensor) (r c : Z) :
  ~ (-8 <= r < 8 /\ -8 <= c < 8) ->
  get_piece b r c = Raise InvalidArgumentError.
Proof.
  intros N. unfold get_piece.
  destruct (tf_index_cases r) as [[Hr Er]|[Nr Er]]; rewrite Er;
    cbn [bind_res]; [|reflexivity].
  destruct (tf_index_cases c) as [[Hc Ec]|[Nc Ec]]; rewrite Ec;
    cbn [bind_res]; [|reflexivity].
  exfalso. apply N. auto.
Qed.

Lemma pos_to_coord_digit (unicode_decimal : Z -> option Z)
  (file rank : Z) (tl : pystr) :
  48 <= rank <= 57 ->
  pos_to_coord unicode_decimal (file :: rank :: tl) =
    Ok (8 - (rank - 48), file - 97).
Proof.
  intros Hr. unfold pos_to_coord.
  set (l := file :: rank :: tl).
  assert (Hlen : 2 <= Z.of_nat (List.length l))
    by (subst l; cbn [List.length]; lia).
  destruct (py_index_spec l 1 0) as [E1 _].
  destruct (py_index_spec l 0 0) as [E0 _].
  cbv zeta in E1, E0.
  rewrite E1, E0 by lia.
  rewrite !Z.mod_small by lia.
  subst l.
  change (Z.to_nat 1) with 1%nat. change (Z.to_nat 0) with 0%nat.
  cbn [nth bind_res].
  unfold int_of_char.
  replace ((48 <=? rank) && (rank <=? 57)) with true
    by (symmetry; apply andb_true_iff; split; apply Z.leb_le; lia).
  reflexivity.
Qed.

Lemma turn_raises (p : proposal) (g : game) (sr sc : Z) :
  start p = Some (sr, sc) ->
  ~ (-8 <= sr < 8 /\ -8 <= sc < 8) ->
  turn p g = (Raise InvalidArgumentError, g).
Proof.
  intros Hs N.
  unfold turn, try_except, attempt, select, bind, lift, converted,
    piece_at, reading.
  rewrite Hs, (get_piece_outside _ _ _ N). reflexivity.
Qed.

(** X14. The rank and the file of the label typed for the origin are not
    checked against the board: with a digit in second place, the rank
    ['0'] or a first character outside the sixteen code points from ['Y']
    to ['h'] makes the tensor lookup fail, and that failure is not among
    the exceptions the loop catches, so [play_game] ends with TensorFlow's
    error and the state as it was, whatever would have been typed next. *)
Theorem label_outside_tensor_ends_play
  (unicode_decimal : Z -> option Z) (g : game) (file rank : Z)
  (tl : pystr) (n : option Z) (rest : list proposal) :
  48 <= rank <= 57 ->
  rank = 48 \/ ~ (89 <= file < 105) ->
  let p := proposal_of unicode_decimal (file :: rank :: tl) n in
  turn p g = (Raise InvalidArgumentError, g) /\
  play_loop (p :: rest) g = (Raise InvalidArgumentError, g).
Proof.
  intros Hr Hout p.
  assert (E : turn p g = (Raise InvalidArgumentError, g)).
  { apply (turn_raises p g (8 - (rank - 48)) (file - 97)).
    - subst p. unfold proposal_of. cbn [start].
      now rewrite pos_to_coord_digit.
    - lia. }
  split; [exact E|].
  cbn [play_loop]. now rewrite E.
Qed.

Lemma label_outside_tensor_ends_play_witness :
  play_game [proposal_of (fun _ => None) (text "E2") (Some 1);
             opening_proposal]
    = (Raise InvalidArgumentError, new_game).
Proof.
  apply (label_outside_tensor_ends_play (fun _ => None) new_game
           69 50 [] (Some 1) [opening_proposal]).
  - lia.
  - right. lia.
Defined.

Lemma own_piece_test (w : bool) (t : Z) :
  (t =? 0) || negb (Bool.eqb (t <=? 6) w) = negb (own_piece w t).
Proof.
  unfold own_piece. now destruct (t =? 0), (Bool.eqb (t <=? 6) w).
Qed.

Lemma select_not_yours (p : proposal) (g g' : game) :
  select p g = (Ok (inl NotYourPiece), g') ->
  exists sr sc scode,
    start p = Some (sr, sc) /\
    get_piece (board g) sr sc = Ok scode /\
    own_piece (white_to_move g) scode = false.
Proof.
  unfold select, bind, lift, converted, piece_at, possible_moves, reading,
    ret.
  intros H.
  destruct (start p) as [[sr sc]|]; [|discriminate].
  destruct (get_piece (board g) sr sc) as [scode| |] eqn:Hc;
    try discriminate.
  rewrite own_piece_test in H.
  destruct (own_piece (white_to_move g) scode) eqn:Ho; cbn [negb] in H.
  - exfalso.
    repeat break_match H; split_pairs; subst; discriminate.
  - exists sr, sc, scode. auto.
Qed.

(** X15. With both coordinates of the origin in [-8, 8), a negative one
    counting from the far edge, the loop answers that the square does not
    contain the player's piece exactly when the cell addressed is empty
    or holds a piece of the side not on move; the state is then as it
    was. *)
Theorem not_your_piece_exactly (g : game) (sr sc : Z) (n : option Z) :
  -8 <= sr < 8 -> -8 <= sc < 8 ->
  let p := {| start := Some (sr, sc); choice := n |} in
  (fst (turn p g) = Ok NotYourPiece <->
   own_piece (white_to_move g)
     (occupant (board g) (sr mod 8) (sc mod 8)) = false) /\
  (fst (turn p g) = Ok NotYourPiece -> snd (turn p g) = g).
Proof.
  intros Hr Hc p.
  pose proof (get_piece_mod (board g) sr sc Hr Hc) as Hget.
  assert (Hback :
    own_piece (white_to_move g)
      (occupant (board g) (sr mod 8) (sc mod 8)) = false ->
    turn p g = (Ok NotYourPiece, g)).
  { intros Ho.
    unfold turn, try_except, attempt, select, bind, lift, converted,
      piece_at, reading, ret.
    cbn [start p]. rewrite Hget, own_piece_test, Ho. reflexivity. }
  assert (Hforth :
    fst (turn p g) = Ok NotYourPiece ->
    own_piece (white_to_move g)
      (occupant (board g) (sr mod 8) (sc mod 8)) = false).
  { intros H. destruct (turn p g) as [r g'] eqn:Hturn.
    cbn [fst] in H. subst r.
    unfold turn, try_except in Hturn.
    destruct (attempt p g) as [[o1|e|] g1] eqn:Ha.
    - injection Hturn as -> ->.
      unfold attempt in Ha.
      apply bind_ok_inv in Ha as (s & g0 & Hs & Ha).
      destruct s as [o'|[[[sr' sc'] scode] [er ec]]].
      + unfold ret in Ha. injection Ha as -> ->.
        apply select_not_yours in Hs as (sr' & sc' & scode & E1 & E2 & E3).
        cbn [start p] in E1. injection E1 as <- <-.
        rewrite Hget in E2. apply Ok_inj in E2. now subst scode.
      + apply apply_move_accepted in Ha. discriminate.
    - destruct e; try discriminate; unfold ret in Hturn; discriminate.
    - discriminate. }
  split; [split; [exact Hforth|]|].
  - intros Ho. now rewrite (Hback Ho).
  - intros H. now rewrite (Hback (Hforth H)).
Qed.

Lemma not_your_piece_exactly_witness :
  (fst (turn {| start := Some (-1, 4); choice := None |} new_game)
     = Ok NotYourPiece <->
   own_piece (white_to_move new_game)
     (occupant (board new_game) (-1 mod 8) (4 mod 8)) = false) /\
  (fst (turn {| start := Some (-1, 4); choice := None |} new_game)
     = Ok NotYourPiece ->
   snd (turn {| start := Some (-1, 4); choice := None |} new_game)
     = new_game).
Proof.
  apply (not_your_piece_exactly new_game (-1) 4 None); lia.
Defined.

(** X16. Once a piece of the side on move with at least one candidate is
    selected, the number typed picks a candidate the way Python indexes a
    list after subtracting one: for [len] candidates, a number from
    [1 - len] to [len] picks candidate [(n - 1) mod len], so that 0 picks
    the last one and negative numbers count from the end; any other
    number, and a line that is not a number, is answered with the
    invalid-input message and changes nothing. *)
Theorem menu_number_counts_from_either_end
  (g : game) (sr sc scode n : Z) (moves : list square) :
  get_piece (board g) sr sc = Ok scode ->
  own_piece (white_to_move g) scode = true ->
  get_possible_moves (get_piece (board g)) (rights g)
    (en_passant_target g) sr sc = Ok moves ->
  moves <> [] ->
  let len := Z.of_nat (List.length moves) in
  (1 - len <= n <= len ->
   select {| start := Some (sr, sc); choice := Some n |} g =
     (Ok (inr ((sr, sc), scode,
               nth (Z.to_nat ((n - 1) mod len)) moves (0, 0))), g)) /\
  (~ (1 - len <= n <= len) ->
   turn {| start := Some (sr, sc); choice := Some n |} g =
     (Ok InvalidInput, g)) /\
  turn {| start := Some (sr, sc); choice := None |} g =
    (Ok InvalidInput, g).
Proof.
  intros Hcode Hown Hgen Hne len.
  destruct (py_index_spec moves (n - 1) (0, 0)) as [Hin Hout].
  cbv zeta in Hin, Hout. fold len in Hin, Hout.
  assert (Hsel : forall c,
    select {| start := Some (sr, sc); choice := c |} g =
      match c with
      | Some n =>
          match py_index moves (n - 1) with
          | Ok dest => (Ok (inr ((sr, sc), scode, dest)), g)
          | Raise e => (Raise e, g)
          | OutOfFuel => (OutOfFuel, g)
          end
      | None => (Raise ValueError, g)
      end).
  { intros c.
    unfold select, bind, lift, converted, piece_at, possible_moves,
      reading, ret.
    cbn [start choice]. rewrite Hcode, own_piece_test, Hown.
    cbn [negb]. rewrite Hgen.
    destruct moves as [|m ms]; [contradiction|].
    destruct c as [k|]; [|reflexivity].
    destruct (py_index (m :: ms) (k - 1)); reflexivity. }
  split; [|split].
  - intros Hn. rewrite Hsel, Hin by lia. reflexivity.
  - intros Hn. unfold turn, try_except, attempt, bind.
    rewrite Hsel, Hout by lia. reflexivity.
  - unfold turn, try_except, attempt, bind. rewrite Hsel. reflexivity.
Qed.

Lemma menu_number_counts_from_either_end_witness :
  select {| start := Some (6, 4); choice := Some 0 |} new_game =
    (Ok (inr ((6, 4), 1, (4, 4))), new_game).
Proof.
  apply (proj1 (menu_number_counts_from_either_end new_game 6 4 1 0
                  [(5, 4); (4, 4)] eq_refl eq_refl eq_refl
                  ltac:(discriminate))).
  cbn. lia.
Defined.


(** ** The ordinary move *)

Section Shape.

Let shaped (g : game) : Prop := wf_board (board g) = true.

Lemma shaped_put_piece (r c v : Z) : maintains shaped (put_piece r c v).
Proof.
  intros g x g' HI H. unfold put_piece in H.
  destruct (set_piece (board g) r c v) as [b'| |] eqn:E;
    injection H as _ <-; try exact HI.
  unfold set_piece in E.
  apply bind_res_ok_inv in E as (i & _ & E).
  apply bind_res_ok_inv in E as (j & _ & E).
  apply Ok_inj in E. subst b'.
  unfold shaped. cbn [board with_board]. now apply wf_set_cell.
Qed.

Lemma shaped_modify (f : game -> game) :
  (forall g, board (f g) = board g) -> maintains shaped (modify f).
Proof.
  intros Hf g x g' HI H. unfold modify in H. injection H as _ <-.
  unfold shaped. now rewrite Hf.
Qed.

Ltac shaped_game :=
  repeat first
    [ apply maintains_ret
    | apply maintains_piece_at
    | apply maintains_reading
    | apply shaped_put_piece
    | apply shaped_modify; reflexivity
    | apply maintains_bind; [|intros ?]
    | match goal with
      | |- maintains _ (if ?b then _ else _) => destruct b
      end ].

Lemma shaped_relocate (sr sc scode er ec : Z) :
  maintains shaped (relocate sr sc scode er ec).
Proof.
  unfold relocate, handle_castling, handle_en_passant, simple_move.
  shaped_game.
Qed.

Lemma shaped_turn (p : proposal) : maintains shaped (turn p).
Proof.
  unfold turn. apply maintains_try_except; [|apply maintains_ret].
  unfold attempt. apply maintains_bind; [apply maintains_select|].
  intros [o|[[[sr sc] scode] [er ec]]]; [apply maintains_ret|].
  unfold apply_move, relocate, handle_castling, handle_en_passant,
    simple_move, handle_promotion, update_en_passant_target, finish.
  shaped_game.
Qed.

End Shape.

Lemma simple_move_board (sr sc scode er ec : Z) (g g' : game) :
  in_bounds sr sc = true -> in_bounds er ec = true ->
  simple_move sr sc scode er ec g = (Ok tt, g') ->
  board g' = place (place (board g) er ec scode) sr sc 0.
Proof.
  intros Hs He H. unfold simple_move in H.
  apply bind_ok_inv in H as ([] & g1 & H1 & H).
  apply bind_ok_inv in H as ([] & g2 & H2 & H).
  apply bind_ok_inv in H as ([] & g3 & H3 & H).
  rewrite run_put_piece in H1 by exact He. injection H1 as <-.
  rewrite run_put_piece in H2 by exact Hs. injection H2 as <-.
  cbn [board with_board] in *.
  assert (E3 : board g3 = place (place (board g) er ec scode) sr sc 0).
  { repeat match type of H3 with
           | context [if ?b then _ else _] => destruct b
           end;
      first [apply modify_inv in H3 as [_ ->]
            |unfold ret in H3; injection H3 as <-];
      reflexivity. }
  rewrite <- E3.
  repeat match type of H with
         | context [if ?b then _ else _] => destruct b
         end;
    first [apply modify_inv in H as [_ ->]
          |unfold ret in H; injection H as <-];
    reflexivity.
Qed.

Lemma handle_promotion_board (r c : Z) (g g' : game) :
  in_bounds r c = true ->
  handle_promotion r c g = (Ok tt, g') ->
  board g' =
    if Z.eqb (arrived (occupant (board g) r c) r) (occupant (board g) r c)
    then board g
    else place (board g) r c (arrived (occupant (board g) r c) r).
Proof.
  intros Hrc H. unfold handle_promotion in H.
  apply bind_ok_inv in H as (piece & g0 & H0 & H).
  rewrite run_piece_at in H0 by exact Hrc. injection H0 as <- <-.
  unfold arrived.
  destruct (Z.eqb_spec (occupant (board g) r c) 1) as [E1|N1];
    [rewrite E1 in *|];
    (destruct (Z.eqb_spec r 0) as [R0|R0]; cbn [andb] in * );
    try (rewrite run_put_piece in H by exact Hrc; injection H as <-;
         reflexivity);
    (destruct (Z.eqb_spec (occupant (board g) r c) 7) as [E7|N7];
     [rewrite E7 in *|]);
    (destruct (Z.eqb_spec r 7) as [R7|R7]; cbn [andb] in * );
    try (rewrite run_put_piece in H by exact Hrc; injection H as <-;
         reflexivity);
    try lia;
    rewrite ?Z.eqb_refl;
    unfold ret in H; injection H as <-; reflexivity.
Qed.

Lemma candidate_off_origin (b : tensor) (cr : castling_rights)
  (ep : option square) (row col : Z) (moves : list square) (s : square) :
  in_bounds row col = true ->
  get_possible_moves (get_piece b) cr ep row col = Ok moves ->
  In s moves -> s <> (row, col).
Proof.
  intros Hin H Hs.
  assert (Hcode : occupant b row col <> 0).
  { intros E0. unfold get_possible_moves in H.
    rewrite (get_piece_in b row col Hin), E0 in H. cbn in H.
    apply Ok_inj in H. now subst moves. }
  pose proof (get_possible_moves_landing (get_piece b) (occupant b) cr ep
                (get_piece_in b) row col moves Hin H) as Hall.
  rewrite Forall_forall in Hall. specialize (Hall _ Hs).
  destruct Hall as [Hl | [_ Hc]]; intros ->; cbn [fst snd] in *.
  - apply own_piece_landing in Hl as [_ Ho]. cbn [fst snd] in Ho.
    unfold own_piece in Ho. apply Z.eqb_neq in Hcode.
    rewrite Hcode, eqb_reflx in Ho. discriminate.
  - lia.
Qed.

(** X17. An accepted move that is neither castling nor en passant puts
    the piece it moves on the destination, as a queen when it is a pawn
    reaching the far rank, empties the origin and changes no other square
    of the board; whatever stood on the destination is gone. *)
Theorem ordinary_move_carries_the_piece
  (p : proposal) (g g' : game) (o : outcome) (sr sc scode er ec : Z) :
  wf_board (board g) = true ->
  turn p g = (Ok o, g') -> accepted o = true ->
  select p g = (Ok (inr ((sr, sc), scode, (er, ec))), g) ->
  in_bounds sr sc = true -> in_bounds er ec = true ->
  is_castling_move (board g) (rights g) sr sc er ec (white_to_move g)
    = Ok false ->
  is_en_passant (board g) (en_passant_target g) sr sc er ec
    (white_to_move g) = Ok false ->
  occupant (board g') er ec = arrived scode er /\
  occupant (board g') sr sc = 0 /\
  forall r c,
    in_bounds r c = true -> (r, c) <> (sr, sc) -> (r, c) <> (er, ec) ->
    occupant (board g') r c = occupant (board g) r c.
Proof.
  intros Hwf Hturn Hacc Hsel Hs He Hcas Hep.
  destruct (turn_accepted_inv p g g' o Hturn Hacc) as
    (sr' & sc' & scode' & er' & ec' & Hsel' & Happly).
  rewrite Hsel in Hsel'. injection Hsel' as <- <- <- <- <-.
  apply select_chooses in Hsel as (_ & _ & _ & _ & moves & Hgen & Hin).
  pose proof (candidate_off_origin _ _ _ _ _ _ _ Hs Hgen Hin) as Hne.
  apply apply_move_inv in Happly as (g1 & g2 & Hrel & Hprom & Hfin).
  apply finish_board in Hfin. cbn [board with_en_passant_target] in Hfin.
  unfold relocate, bind, reading in Hrel. rewrite Hcas, Hep in Hrel.
  apply simple_move_board in Hrel; [|exact Hs|exact He].
  apply handle_promotion_board in Hprom; [|exact He].
  assert (Hat : occupant (board g1) er ec = scode).
  { rewrite Hrel, occupant_place_other by auto.
    apply occupant_place_same; assumption. }
  rewrite Hat in Hprom. rewrite Hfin, Hprom.
  assert (Hwf1 : wf_board (board g1) = true)
    by (rewrite Hrel; now repeat apply wf_place).
  destruct (Z.eqb_spec (arrived scode er) scode) as [E|N].
  - rewrite E at 1. rewrite <- Hat at 1.
    split; [reflexivity|]. rewrite Hrel.
    split; [apply occupant_place_same; [now apply wf_place|exact Hs]|].
    intros r c Hrc N1 N2.
    rewrite !occupant_place_other by auto. reflexivity.
  - split; [now apply occupant_place_same|].
    split.
    + rewrite occupant_place_other by auto.
      rewrite Hrel. apply occupant_place_same; [now apply wf_place|exact Hs].
    + intros r c Hrc N1 N2.
      rewrite occupant_place_other by auto.
      rewrite Hrel, !occupant_place_other by auto. reflexivity.
Qed.

Lemma ordinary_move_carries_the_piece_witness :
  occupant (board (snd (turn knight_proposal new_game))) 5 2 = 3 /\
  occupant (board (snd (turn knight_proposal new_game))) 7 1 = 0.
Proof.
  destruct (ordinary_move_carries_the_piece knight_proposal new_game
              _ Moved 7 1 3 5 2 eq_refl eq_refl eq_refl eq_refl eq_refl
              eq_refl eq_refl eq_refl) as (H1 & H2 & _).
  split; [exact H1|exact H2].
Defined.


(** ** En passant in play *)

Lemma handle_en_passant_board (sr sc er ec : Z) (w : bool) (g g' : game) :
  in_bounds sr sc = true -> in_bounds er ec = true ->
  handle_en_passant sr sc er ec w g = (Ok tt, g') ->
  board g' =
    place (place (place (board g) er ec (occupant (board g) sr sc))
             sr sc 0) sr ec 0.
Proof.
  intros Hs He H. apply in_bounds_spec in Hs, He.
  unfold handle_en_passant, bind in H.
  revert H. run_board. intros H. now injection H as <-.
Qed.

Lemma relocate_double_step (sr sc scode er : Z) (g g' : game) :
  wf_board (board g) = true ->
  double_step scode sr er = true ->
  in_bounds sr sc = true ->
  (scode <=? 6) = white_to_move g ->
  get_piece (board g) sr sc = Ok scode ->
  relocate sr sc scode er sc g = (Ok tt, g') ->
  occupant (board g') er sc = scode.
Proof.
  intros Hwf Hd Hs Hside Hcode Hrel.
  rewrite get_piece_in in Hcode by exact Hs. apply Ok_inj in Hcode.
  assert (Hgeo : (scode = 1 /\ sr = 6 /\ er = 4) \/
                 (scode = 7 /\ sr = 1 /\ er = 3)).
  { unfold double_step in Hd.
    destruct (Z.eqb_spec scode 1), (Z.eqb_spec sr 6), (Z.eqb_spec er 4),
             (Z.eqb_spec scode 7), (Z.eqb_spec sr 1), (Z.eqb_spec er 3);
      auto; discriminate. }
  pose proof Hs as Hb. apply in_bounds_spec in Hb.
  assert (He : in_bounds er sc = true)
    by (destruct Hgeo as [(_ & _ & ->)|(_ & _ & ->)]; on_board).
  assert (Hne : (sr, sc) <> (er, sc))
    by (destruct Hgeo as [(_ & -> & ->)|(_ & -> & ->)]; discriminate).
  assert (Hcas : is_castling_move (board g) (rights g) sr sc er sc
                   (white_to_move g) = Ok false).
  { unfold is_castling_move. rewrite <- Hside.
    destruct Hgeo as [(-> & -> & ->)|(-> & -> & ->)]; reflexivity. }
  unfold relocate, bind, reading in Hrel. rewrite Hcas in Hrel.
  destruct (is_en_passant (board g) (en_passant_target g) sr sc er sc
              (white_to_move g)) as [[|]| |]; try discriminate.
  - apply handle_en_passant_board in Hrel; [|exact Hs|exact He].
    rewrite Hrel, Hcode.
    rewrite !occupant_place_other by auto.
    now apply occupant_place_same.
  - apply simple_move_board in Hrel; [|exact Hs|exact He].
    rewrite Hrel, occupant_place_other by auto.
    now apply occupant_place_same.
Qed.

Lemma moved_turn_target_behind_pawn (p : proposal) (g g' : game) :
  wf_board (board g) = true ->
  turn p g = (Ok Moved, g') -> target_behind_pawn g'.
Proof.
  intros Hwf Hturn.
  destruct (turn_accepted_inv p g g' Moved Hturn eq_refl) as
    (sr & sc & scode & er & ec & Hsel & Happly).
  apply select_chooses in Hsel as
      (_ & Hcode & _ & Hside & moves & Hgen & Hin).
  destruct (double_step_test g sr sc scode er ec moves Hcode Hgen Hin)
    as [Htest Hdouble].
  apply apply_move_inv in Happly as (g1 & g2 & Hrel & Hprom & Hfin).
  rewrite Htest in Hfin.
  apply finish_inv in Hfin as (alive & _ & Hfin).
  destruct alive; [|destruct Hfin; discriminate].
  destruct Hfin as [_ ->].
  cbn [white_to_move with_white_to_move with_en_passant_target].
  pose proof (relocate_turn_fields _ _ _ _ _ _ _ _ Hrel) as [W1 _].
  pose proof (handle_promotion_turn_fields _ _ _ _ _ Hprom) as [W2 _].
  intros r c Hep.
  cbn [en_passant_target board white_to_move with_white_to_move
         with_en_passant_target] in *.
  destruct (double_step scode sr er) eqn:Hd; [|discriminate].
  injection Hep as <- <-.
  destruct (Hdouble eq_refl) as (-> & Hmid & _).
  assert (Hs : in_bounds sr sc = true).
  { apply in_bounds_spec in Hmid. apply in_bounds_spec.
    unfold double_step in Hd.
    destruct (Z.eqb_spec sr 6), (Z.eqb_spec sr 1);
      rewrite ?andb_false_r in Hd; try discriminate; lia. }
  pose proof (relocate_double_step sr sc scode er g g1 Hwf Hd Hs Hside
                Hcode Hrel) as Hat.
  assert (Hgeo : (scode = 1 /\ sr = 6 /\ er = 4) \/
                 (scode = 7 /\ sr = 1 /\ er = 3)).
  { unfold double_step in Hd.
    destruct (Z.eqb_spec scode 1), (Z.eqb_spec sr 6), (Z.eqb_spec er 4),
             (Z.eqb_spec scode 7), (Z.eqb_spec sr 1), (Z.eqb_spec er 3);
      auto; discriminate. }
  pose proof Hs as Hb. apply in_bounds_spec in Hb.
  assert (He : in_bounds er sc = true)
    by (destruct Hgeo as [(_ & _ & ->)|(_ & _ & ->)]; on_board).
  apply handle_promotion_board in Hprom; [|exact He].
  rewrite Hat in Hprom.
  assert (Har : arrived scode er = scode)
    by (destruct Hgeo as [(-> & _ & ->)|(-> & _ & ->)]; reflexivity).
  rewrite Har, Z.eqb_refl in Hprom.
  rewrite W2, W1, Hprom, <- Hside.
  split; [lia|].
  destruct Hgeo as [(-> & -> & ->)|(-> & -> & ->)]; [left|right];
    repeat split; assumption.
Qed.

Lemma play_loop_continuing (I : game -> Prop) :
  (forall p g g',
     wf_board (board g) = true -> turn p g = (Ok Moved, g') -> I g') ->
  forall (inputs : list proposal) (g g' : game),
    wf_board (board g) = true -> I g ->
    play_loop inputs g = (Ok None, g') -> I g'.
Proof.
  intros Hmoved.
  induction inputs as [|p rest IH]; intros g g' Hwf HI H; simpl in H.
  - now injection H as <-.
  - destruct (turn p g) as [[o| |] g1] eqn:Hturn; try discriminate.
    pose proof (shaped_turn p _ _ _ Hwf Hturn) as Hwf1.
    destruct o; try discriminate;
      try (rewrite (turn_rejected_inv p g g1 _ Hturn eq_refl) in *;
           now apply (IH g g')).
    apply (IH g1 g'); [exact Hwf1| |exact H].
    eapply Hmoved; eassumption.
Qed.

(** X18. In every state of a game that goes on, played from the initial
    position, a stored en-passant target lies directly behind a pawn of
    the side that has just moved: on row 5 with a white pawn on row 4 of
    its column when Black is to move, on row 2 with a black pawn on row 3
    when White is. *)
Theorem en_passant_target_lies_behind_the_pawn
  (inputs : list proposal) (g : game) :
  play_game inputs = (Ok None, g) -> target_behind_pawn g.
Proof.
  intros H. unfold play_game in H.
  apply (play_loop_continuing target_behind_pawn
           moved_turn_target_behind_pawn inputs new_game g);
    [reflexivity|intros r c; discriminate|exact H].
Qed.

Lemma en_passant_target_lies_behind_the_pawn_witness :
  target_behind_pawn en_passant_game.
Proof.
  apply (en_passant_target_lies_behind_the_pawn en_passant_line).
  reflexivity.
Defined.


Lemma is_castling_move_off_home (b : tensor) (cr : castling_rights)
  (sr sc er ec : Z) (w : bool) :
  sr <> home_rank w ->
  is_castling_move b cr sr sc er ec w = Ok false.
Proof.
  intros N. unfold is_castling_move, home_rank in *.
  destruct (Z.eqb_spec sr (if w then 7 else 0)); [contradiction|].
  reflexivity.
Qed.

(** X19. In a game that goes on, played from the initial position, when
    a pawn standing on the board is moved to the stored en-passant target,
    it is a capture en passant from the pawn's fifth rank to a
    neighbouring column, the square beside the origin in the column of
    the target holds the opposing pawn that has just advanced two rows,
    and the move removes that pawn, puts the capturing pawn on the target
    and empties the origin. *)
Theorem en_passant_in_play_takes_the_passed_pawn
  (inputs : list proposal) (p : proposal) (g g' : game) (o : outcome)
  (sr sc scode er ec : Z) :
  play_game inputs = (Ok None, g) ->
  turn p g = (Ok o, g') -> accepted o = true ->
  select p g = (Ok (inr ((sr, sc), scode, (er, ec))), g) ->
  in_bounds sr sc = true ->
  scode = 1 \/ scode = 7 ->
  en_passant_target g = Some (er, ec) ->
  sr = pawn_fifth (white_to_move g) /\ Z.abs (ec - sc) = 1 /\
  occupant (board g) sr ec = pawn_code (negb (white_to_move g)) /\
  occupant (board g') sr ec = 0 /\
  occupant (board g') er ec = scode /\
  occupant (board g') sr sc = 0.
Proof.
  intros Hplay Hturn Hacc Hsel Hs Hpawn Hep.
  unfold play_game in Hplay.
  assert (Hwf : wf_board (board g) = true).
  { apply (maintains_play_loop (fun g => wf_board (board g) = true)
             inputs shaped_turn new_game _ g eq_refl Hplay). }
  assert (Hempty : target_empty g).
  { apply (play_loop_target_empty inputs new_game g None);
      [intros r c; discriminate|exact Hplay]. }
  assert (Hbehind : target_behind_pawn g).
  { apply (play_loop_continuing target_behind_pawn
             moved_turn_target_behind_pawn inputs new_game g);
      [reflexivity|intros r c; discriminate|exact Hplay]. }
  destruct (Hempty er ec Hep) as [He Hzero].
  rewrite get_piece_in in Hzero by exact He. apply Ok_inj in Hzero.
  destruct (Hbehind er ec Hep) as [Hc Hside'].
  destruct (turn_accepted_inv p g g' o Hturn Hacc) as
    (sr' & sc' & scode' & er' & ec' & Hsel' & Happly).
  rewrite Hsel in Hsel'. injection Hsel' as <- <- <- <- <-.
  apply select_chooses in Hsel as
      (_ & Hcode & _ & Hside & moves & Hgen & Hin).
  rewrite get_piece_in in Hcode by exact Hs. apply Ok_inj in Hcode.
  remember (white_to_move g) as w eqn:Ew.
  assert (Hw : scode = if w then 1 else 7)
    by (destruct Hpawn as [-> | ->]; rewrite <- Hside; reflexivity).
  rewrite Hw in Hcode.
  destruct (get_possible_moves_pawn_In (board g) (rights g)
              (en_passant_target g) w sr sc Hs Hcode)
    as (moves' & Hgen' & Hiff).
  rewrite Hgen in Hgen'. apply Ok_inj in Hgen'. subst moves'.
  apply Hiff in Hin. clear Hiff.
  pose proof Hs as Hb. apply in_bounds_spec in Hb.
  assert (Hgeo : sr = pawn_fifth w /\ er = sr + pawn_dir w /\
                 Z.abs (ec - sc) = 1).
  { destruct Hin as [(E1 & -> & _) | [(E1 & -> & E2 & _) |
              [(_ & _ & _ & Ho) | (_ & E1 & E2 & E3)]]].
    - exfalso. unfold pawn_dir in E1.
      destruct Hside' as [(Wf & E & Hp)|(Wt & E & Hp)].
      + rewrite Wf in *. assert (sr = 4) by lia. subst sr.
        rewrite Hcode in Hp. discriminate.
      + rewrite Wt in *. assert (sr = 3) by lia. subst sr.
        rewrite Hcode in Hp. discriminate.
    - exfalso. unfold pawn_dir, pawn_start in *.
      destruct Hside' as [(Wf & E & Hp)|(Wt & E & Hp)];
        [rewrite Wf in *|rewrite Wt in *]; lia.
    - rewrite Hzero in Ho. now destruct w.
    - auto. }
  destruct Hgeo as (Hfifth & Her & Hcol).
  assert (Hrows : (w = true /\ sr = 3 /\ er = 2) \/
                  (w = false /\ sr = 4 /\ er = 5)).
  { unfold pawn_fifth, pawn_dir in *.
    destruct w; [left|right]; repeat split; lia. }
  assert (Hbeside : occupant (board g) sr ec = pawn_code (negb w)).
  { destruct Hrows as [(Ww & -> & ->)|(Ww & -> & ->)]; rewrite Ww in *;
      destruct Hside' as [(Wf & E & Hp)|(Wt & E & Hp)];
      try discriminate; try lia; exact Hp. }
  assert (Hsec : in_bounds sr ec = true) by on_board.
  apply apply_move_inv in Happly as (g1 & g2 & Hrel & Hprom & Hfin).
  apply finish_board in Hfin. cbn [board with_en_passant_target] in Hfin.
  assert (Hcas : is_castling_move (board g) (rights g) sr sc er ec w
                 = Ok false).
  { apply is_castling_move_off_home. unfold home_rank.
    destruct Hrows as [(-> & -> & _)|(-> & -> & _)]; discriminate. }
  assert (Hpass : is_en_passant (board g) (en_passant_target g)
                    sr sc er ec w = Ok true).
  { unfold is_en_passant.
    rewrite get_piece_in, Hcode, Hep by exact Hs.
    cbn [bind_res]. now rewrite !Z.eqb_refl. }
  unfold relocate, bind, reading in Hrel. rewrite <- Ew in Hrel.
  rewrite Hcas, Hpass in Hrel.
  apply handle_en_passant_board in Hrel; [|exact Hs|exact He].
  rewrite Hcode in Hrel. rewrite <- Hw in Hrel.
  assert (N1 : (sr, sc) <> (er, ec))
    by (destruct Hrows as [(_ & -> & ->)|(_ & -> & ->)]; other_square).
  assert (N2 : (sr, ec) <> (er, ec))
    by (destruct Hrows as [(_ & -> & ->)|(_ & -> & ->)]; other_square).
  assert (N3 : (sr, ec) <> (sr, sc)) by (other_square).
  assert (Hat : occupant (board g1) er ec = scode).
  { rewrite Hrel, !occupant_place_other by auto.
    now apply occupant_place_same. }
  apply handle_promotion_board in Hprom; [|exact He].
  rewrite Hat in Hprom.
  assert (Har : arrived scode er = scode).
  { rewrite Hw.
    destruct Hrows as [(-> & _ & ->)|(-> & _ & ->)]; reflexivity. }
  rewrite Har, Z.eqb_refl in Hprom.
  rewrite Hfin, Hprom.
  repeat split; try assumption.
  - rewrite Hrel.
    apply occupant_place_same; [now repeat apply wf_place|exact Hsec].
  - rewrite Hrel, occupant_place_other by auto.
    apply occupant_place_same; [now apply wf_place|exact Hs].
Qed.

Lemma en_passant_in_play_takes_the_passed_pawn_witness :
  occupant (board en_passant_game) 3 3 = 7 /\
  occupant (board (snd (turn en_passant_proposal en_passant_game))) 3 3
    = 0.
Proof.
  destruct (en_passant_in_play_takes_the_passed_pawn
              en_passant_line en_passant_proposal en_passant_game
              _ Moved 3 4 1 2 3
              eq_refl eq_refl eq_refl eq_refl eq_refl
              (or_introl eq_refl) eq_refl)
    as (_ & _ & H1 & H2 & _).
  split; [exact H1|exact H2].
Defined.


(** ** Kings and castling in play *)

Lemma writes_refl (vs : list Z) (b : tensor) : writes vs b b.
Proof. intros i j. now left. Qed.

Lemma writes_trans (vs : list Z) (a b c : tensor) :
  writes vs a b -> writes vs b c -> writes vs a c.
Proof.
  intros Hab Hbc i j.
  destruct (Hbc i j) as [E|E]; [|now right].
  rewrite E. apply Hab.
Qed.

Lemma writes_put_piece (vs : list Z) (r c v : Z) (g g' : game)
  (x : res unit) :
  In v vs -> put_piece r c v g = (x, g') -> writes vs (board g) (board g').
Proof.
  intros Hv H. unfold put_piece in H.
  destruct (set_piece (board g) r c v) as [b'| |] eqn:E;
    injection H as _ <-; try apply writes_refl.
  unfold set_piece in E.
  apply bind_res_ok_inv in E as (i0 & _ & E).
  apply bind_res_ok_inv in E as (j0 & _ & E).
  apply Ok_inj in E. subst b'. cbn [board with_board].
  intros i j.
  destruct (cell_set_cell_cases (board g) i0 j0 i j v) as [-> | ->];
    auto.
Qed.

Lemma writes_get_piece (vs : list Z) (b b' : tensor) (r c v v' : Z) :
  writes vs b b' -> get_piece b r c = Ok v -> get_piece b' r c = Ok v' ->
  v' = v \/ In v' vs.
Proof.
  intros Hw H H'. unfold get_piece in *.
  destruct (tf_index r) as [i| |]; try discriminate.
  destruct (tf_index c) as [j| |]; try discriminate.
  cbn [bind_res] in *. apply Ok_inj in H, H'. subst v v'. apply Hw.
Qed.

Lemma is_castling_move_rook (b : tensor) (cr : castling_rights)
  (sr sc er ec : Z) (w : bool) :
  is_castling_move b cr sr sc er ec w = Ok true ->
  sc = 4 /\
  ((ec = 6 /\ get_piece b sr 7 = Ok (rook_code w)) \/
   (ec = 2 /\ get_piece b sr 0 = Ok (rook_code w))).
Proof.
  intros H.
  destruct (is_castling_move_origin _ _ _ _ _ _ _ H) as [_ ->].
  split; [reflexivity|].
  unfold is_castling_move, rook_code in H.
  destruct (_ || _); [discriminate|].
  destruct (_ || _); [discriminate|].
  assert (G : forall (km rk rq : bool) (rook : Z),
    (if km then Ok false
     else if ec =? 6 then
       if rk then Ok false
       else
         bind_res (get_piece b sr 5) (fun f =>
           if negb (f =? 0) then Ok false
           else
             bind_res (get_piece b sr 6) (fun g =>
               if negb (g =? 0) then Ok false
               else bind_res (get_piece b sr 7) (fun a => Ok (a =? rook))))
     else if ec =? 2 then
       if rq then Ok false
       else
         bind_res (get_piece b sr 1) (fun x =>
           if negb (x =? 0) then Ok false
           else
             bind_res (get_piece b sr 2) (fun y =>
               if negb (y =? 0) then Ok false
               else
                 bind_res (get_piece b sr 3) (fun z =>
                   if negb (z =? 0) then Ok false
                   else
                     bind_res (get_piece b sr 0)
                       (fun a => Ok (a =? rook)))))
     else Ok false) = Ok true ->
    (ec = 6 /\ get_piece b sr 7 = Ok rook) \/
    (ec = 2 /\ get_piece b sr 0 = Ok rook)).
  { intros km rk rq rook G.
    destruct km; [discriminate|].
    destruct (Z.eqb_spec ec 6) as [->|N6].
    - destruct rk; [discriminate|].
      apply bind_res_ok_inv in G as (f & _ & G).
      destruct (negb (f =? 0)); [discriminate|].
      apply bind_res_ok_inv in G as (g & _ & G).
      destruct (negb (g =? 0)); [discriminate|].
      apply bind_res_ok_inv in G as (a & Ha & G).
      apply Ok_inj in G. apply Z.eqb_eq in G. subst a. auto.
    - destruct (Z.eqb_spec ec 2) as [->|N2]; [|discriminate].
      destruct rq; [discriminate|].
      apply bind_res_ok_inv in G as (x & _ & G).
      destruct (negb (x =? 0)); [discriminate|].
      apply bind_res_ok_inv in G as (y & _ & G).
      destruct (negb (y =? 0)); [discriminate|].
      apply bind_res_ok_inv in G as (z & _ & G).
      destruct (negb (z =? 0)); [discriminate|].
      apply bind_res_ok_inv in G as (a & Ha & G).
      apply Ok_inj in G. apply Z.eqb_eq in G. subst a. auto. }
  destruct w; apply G in H; exact H.
Qed.

Lemma relocate_writes (sr sc scode er ec : Z) (g g' : game) :
  get_piece (board g) sr sc = Ok scode ->
  relocate sr sc scode er ec g = (Ok tt, g') ->
  writes [scode; 0; 2; 8] (board g) (board g').
Proof.
  intros Hcode Hrel.
  set (vs := [scode; 0; 2; 8]).
  assert (Vs : In scode vs) by (cbn; auto).
  assert (V0 : In 0 vs) by (cbn; auto).
  unfold relocate in Hrel.
  apply bind_ok_inv in Hrel as (wtm & g0 & H0 & Hrel).
  apply reading_inv in H0 as [_ ->].
  apply bind_ok_inv in Hrel as (castling & g0 & H0 & Hrel).
  apply reading_inv in H0 as [Hcas ->]. symmetry in Hcas.
  destruct castling.
  - apply is_castling_move_rook in Hcas as [-> Hrook].
    unfold handle_castling in Hrel.
    apply bind_ok_inv in Hrel as (p & g0 & H0 & Hrel).
    apply piece_at_inv in H0 as [_ ->].
    apply bind_ok_inv in Hrel as (k & g0 & H0 & Hrel).
    apply piece_at_inv in H0 as [H0 ->].
    rewrite Hcode in H0. apply Ok_inj in H0. subst k.
    apply bind_ok_inv in Hrel as ([] & g1 & P1 & Hrel).
    apply bind_ok_inv in Hrel as ([] & g2 & P2 & Hrel).
    apply bind_ok_inv in Hrel as ([] & g3 & H3 & Hrel).
    apply modify_inv in Hrel as [_ ->]. cbn [board with_rights].
    pose proof (writes_put_piece vs _ _ _ _ _ _ Vs P1) as W1.
    pose proof (writes_put_piece vs _ _ _ _ _ _ V0 P2) as W2.
    pose proof (writes_trans _ _ _ _ W1 W2) as W12.
    apply (writes_trans _ _ _ _ W12).
    assert (Vr : forall col rook,
              get_piece (board g) sr col = Ok (rook_code wtm) ->
              get_piece (board g2) sr col = Ok rook -> In rook vs).
    { intros col rook Hb Hr.
      destruct (writes_get_piece vs _ _ _ _ _ _ W12 Hb Hr) as [-> | H];
        [|exact H].
      unfold rook_code. destruct wtm; cbn; auto. }
    destruct Hrook as [[-> Hb]|[-> Hb]]; cbn [Z.gtb Z.compare] in H3.
    + change (6 >? 4) with true in H3. cbv iota in H3.
      apply bind_ok_inv in H3 as (rook & g2' & R & H3).
      apply piece_at_inv in R as [R ->]. symmetry in R.
      apply bind_ok_inv in H3 as ([] & g4 & P3 & H3).
      apply bind_ok_inv in H3 as ([] & g5 & P4 & H3).
      apply modify_inv in H3 as [_ ->]. cbn [board with_rights].
      eapply writes_trans;
        [exact (writes_put_piece vs _ _ _ _ _ _ (Vr 7 rook Hb R) P3)
        |exact (writes_put_piece vs _ _ _ _ _ _ V0 P4)].
    + change (2 >? 4) with false in H3. cbv iota in H3.
      apply bind_ok_inv in H3 as (rook & g2' & R & H3).
      apply piece_at_inv in R as [R ->]. symmetry in R.
      apply bind_ok_inv in H3 as ([] & g4 & P3 & H3).
      apply bind_ok_inv in H3 as ([] & g5 & P4 & H3).
      apply modify_inv in H3 as [_ ->]. cbn [board with_rights].
      eapply writes_trans;
        [exact (writes_put_piece vs _ _ _ _ _ _ (Vr 0 rook Hb R) P3)
        |exact (writes_put_piece vs _ _ _ _ _ _ V0 P4)].
  - apply bind_ok_inv in Hrel as (en_passant & g0 & H0 & Hrel).
    apply reading_inv in H0 as [_ ->].
    destruct en_passant.
    + unfold handle_en_passant in Hrel.
      apply bind_ok_inv in Hrel as (p & g0 & H0 & Hrel).
      apply piece_at_inv in H0 as [H0 ->].
      rewrite Hcode in H0. apply Ok_inj in H0. subst p.
      apply bind_ok_inv in Hrel as ([] & g1 & P1 & Hrel).
      apply bind_ok_inv in Hrel as ([] & g2 & P2 & P3).
      pose proof (writes_put_piece vs _ _ _ _ _ _ Vs P1) as W1.
      pose proof (writes_put_piece vs _ _ _ _ _ _ V0 P2) as W2.
      pose proof (writes_put_piece vs _ _ _ _ _ _ V0 P3) as W3.
      exact (writes_trans _ _ _ _ (writes_trans _ _ _ _ W1 W2) W3).
    + unfold simple_move in Hrel.
      apply bind_ok_inv in Hrel as ([] & g1 & P1 & Hrel).
      apply bind_ok_inv in Hrel as ([] & g2 & P2 & Hrel).
      apply bind_ok_inv in Hrel as ([] & g3 & H3 & Hrel).
      assert (E3 : board g3 = board g2).
      { repeat match type of H3 with
               | context [if ?b then _ else _] => destruct b
               end;
          first [apply modify_inv in H3 as [_ ->]
                |unfold ret in H3; injection H3 as <-];
          reflexivity. }
      assert (E4 : board g' = board g3).
      { repeat match type of Hrel with
               | context [if ?b then _ else _] => destruct b
               end;
          first [apply modify_inv in Hrel as [_ ->]
                |unfold ret in Hrel; injection Hrel as <-];
          reflexivity. }
      rewrite E4, E3.
      pose proof (writes_put_piece vs _ _ _ _ _ _ Vs P1) as W1.
      pose proof (writes_put_piece vs _ _ _ _ _ _ V0 P2) as W2.
      exact (writes_trans _ _ _ _ W1 W2).
Qed.

Lemma handle_promotion_writes (r c : Z) (g g' : game) (x : res unit) :
  handle_promotion r c g = (x, g') -> writes [5; 11] (board g) (board g').
Proof.
  unfold handle_promotion. intros H.
  apply bind_inv in H as [(piece & g0 & H0 & H) | [(e & H0 & _) | [H0 _]]];
    apply piece_at_inv in H0 as [_ ->]; try apply writes_refl.
  destruct (_ && _);
    [eapply writes_put_piece; [|exact H]; cbn; auto|].
  destruct (_ && _);
    [eapply writes_put_piece; [|exact H]; cbn; auto|].
  unfold ret in H. injection H as _ <-. apply writes_refl.
Qed.

Lemma writes_incl (vs vs' : list Z) (b b' : tensor) :
  incl vs vs' -> writes vs b b' -> writes vs' b b'.
Proof.
  intros Hi Hw i j. destruct (Hw i j) as [E|E]; auto.
Qed.

Lemma accepted_turn_unmoved_kings (p : proposal) (g g' : game)
  (o : outcome) :
  unmoved_kings_at_home g ->
  turn p g = (Ok o, g') -> accepted o = true ->
  unmoved_kings_at_home g'.
Proof.
  intros HK Hturn Hacc w r c Hflag Hrc Hking.
  assert (Hflag0 : king_moved w (rights g) = false).
  { pose proof (flags_turn (rights g) p g _ g'
                  (rights_le_refl _) Hturn) as Hle.
    destruct (king_moved w (rights g)) eqn:E; [|reflexivity].
    destruct (Hle w) as [Hk _]. rewrite (Hk E) in Hflag. discriminate. }
  destruct (turn_accepted_inv p g g' o Hturn Hacc) as
    (sr & sc & scode & er & ec & Hsel & Happly).
  pose proof Hsel as Hsel'.
  apply select_chooses in Hsel' as (Hstart & Hcode & _).
  destruct (Z.eq_dec scode (king_code w)) as [Ek|Nk].
  - destruct (accepted_turn_sets_flags p g g' o sr sc scode
                Hturn Hacc Hstart Hcode w) as [Hset _].
    rewrite (Hset Ek) in Hflag. discriminate.
  - apply apply_move_inv in Happly as (g1 & g2 & Hrel & Hprom & Hfin).
    apply finish_board in Hfin. cbn [board with_en_passant_target] in Hfin.
    apply (relocate_writes _ _ _ _ _ _ _ Hcode) in Hrel.
    apply handle_promotion_writes in Hprom.
    assert (W : writes [scode; 0; 2; 8; 5; 11] (board g) (board g')).
    { rewrite Hfin.
      eapply writes_trans; (eapply writes_incl; [|eassumption]);
        intros v Hv; cbn in *; tauto. }
    apply (HK w r c Hflag0 Hrc).
    unfold occupant in *.
    destruct (W (Z.to_nat r) (Z.to_nat c)) as [E|E];
      [now rewrite <- E|].
    exfalso. rewrite Hking in E. cbn [In] in E.
    unfold king_code in *. destruct w; lia.
Qed.

Lemma unmoved_kings_new_game : unmoved_kings_at_home new_game.
Proof.
  intros w r c _ Hrc Hking. apply in_bounds_spec in Hrc.
  destruct Hrc as [Hr Hc].
  enum_from 0 r Hr; enum_from 0 c Hc; destruct w;
    vm_compute in Hking; try discriminate; split; reflexivity.
Qed.

Lemma play_loop_unmoved_kings (inputs : list proposal) :
  forall (g g' : game) (status : option bool),
    unmoved_kings_at_home g ->
    play_loop inputs g = (Ok status, g') -> unmoved_kings_at_home g'.
Proof.
  induction inputs as [|p rest IH]; intros g g' status Hg H; simpl in H.
  - now injection H as _ <-.
  - destruct (turn p g) as [[o| |] g1] eqn:Hturn; try discriminate.
    assert (H1 : unmoved_kings_at_home g1).
    { destruct (accepted o) eqn:Hacc.
      - eapply accepted_turn_unmoved_kings; eassumption.
      - now rewrite (turn_rejected_inv p g g1 o Hturn Hacc). }
    destruct o; try (eapply IH; eassumption).
    now injection H as _ <-.
Qed.


(** X20. In every state of a game played from the initial position, a
    king whose king-moved flag is unset stands on its start square: no
    other square of the board holds a king of that side. *)
Theorem unmoved_king_stands_on_its_start_square
  (inputs : list proposal) (status : option bool) (g : game) :
  play_game inputs = (Ok status, g) -> unmoved_kings_at_home g.
Proof.
  intros H.
  exact (play_loop_unmoved_kings inputs new_game g status
           unmoved_kings_new_game H).
Qed.

Lemma unmoved_king_stands_on_its_start_square_witness :
  unmoved_kings_at_home castling_game.
Proof.
  apply (unmoved_king_stands_on_its_start_square castling_line None).
  reflexivity.
Defined.







(** ** The score table *)

Lemma pystr_eqb_refl (s : pystr) : pystr_eqb s s = true.
Proof. now apply pystr_eqb_eq. Qed.

Lemma pystr_eqb_neq (s t : pystr) : pystr_eqb s t = false <-> s <> t.
Proof.
  rewrite <- pystr_eqb_eq. destruct (pystr_eqb s t); split; congruence.
Qed.

Lemma dict_get_set_same {V : Type} (d : list (pystr * V)) (k : pystr)
  (v : V) :
  dict_get pystr_eqb (dict_set pystr_eqb d k v) k = Some v.
Proof.
  induction d as [|[k' v'] d IH]; cbn [dict_set dict_get].
  - now rewrite pystr_eqb_refl.
  - destruct (pystr_eqb k' k) eqn:E; cbn [dict_get]; rewrite E; auto.
Qed.

Lemma dict_get_set_other {V : Type} (d : list (pystr * V))
  (k k' : pystr) (v : V) :
  k' <> k ->
  dict_get pystr_eqb (dict_set pystr_eqb d k v) k' =
  dict_get pystr_eqb d k'.
Proof.
  intros N.
  induction d as [|[k0 v0] d IH]; cbn [dict_set dict_get].
  - destruct (pystr_eqb k k') eqn:E; [|reflexivity].
    apply pystr_eqb_eq in E. congruence.
  - destruct (pystr_eqb k0 k) eqn:E; cbn [dict_get].
    + apply pystr_eqb_eq in E. subst k0.
      destruct (pystr_eqb k k') eqn:E'; [|reflexivity].
      apply pystr_eqb_eq in E'. congruence.
    + now rewrite IH.
Qed.

Lemma keys_dict_set {V : Type} (d : list (pystr * V)) (k : pystr)
  (v : V) :
  dict_get pystr_eqb d k <> None ->
  map fst (dict_set pystr_eqb d k v) = map fst d.
Proof.
  induction d as [|[k0 v0] d IH]; cbn [dict_set dict_get map fst].
  - congruence.
  - destruct (pystr_eqb k0 k) eqn:E; cbn [map fst]; [reflexivity|].
    intros H. now rewrite IH.
Qed.

Lemma raise_tally_zero (e : tally) : raise_tally 0 0 e = e.
Proof.
  destruct e as [a b]. unfold raise_tally. cbn [wins points].
  now rewrite !Z.add_0_r.
Qed.

Lemma raise_tally_add (a b c d : Z) (e : tally) :
  raise_tally c d (raise_tally a b e) = raise_tally (a + c) (b + d) e.
Proof.
  unfold raise_tally. cbn [wins points]. f_equal; lia.
Qed.

Lemma credited_refl (id : pystr) (t : scoreboard) : credited id 0 0 t t.
Proof.
  split; [reflexivity|]. split; [|reflexivity].
  intros e H. now rewrite raise_tally_zero.
Qed.

Lemma credited_enrolled (id : pystr) (dw dp : Z) (t t' : scoreboard) :
  credited id dw dp t t' ->
  forall id', dict_get pystr_eqb t id' <> None ->
              dict_get pystr_eqb t' id' <> None.
Proof.
  intros (_ & Hid & Hother) id' H.
  destruct (list_eq_dec Z.eq_dec id' id) as [->|N].
  - destruct (dict_get pystr_eqb t id) as [e|] eqn:E; [|congruence].
    now rewrite (Hid e eq_refl).
  - now rewrite (Hother id' N).
Qed.

Lemma credited_trans (id : pystr) (a b c d : Z) (t t' t'' : scoreboard) :
  dict_get pystr_eqb t id <> None ->
  credited id a b t t' -> credited id c d t' t'' ->
  credited id (a + c) (b + d) t t''.
Proof.
  intros He (K1 & I1 & O1) (K2 & I2 & O2).
  split; [congruence|]. split.
  - intros e H. rewrite (I2 _ (I1 _ H)). now rewrite raise_tally_add.
  - intros id' N. now rewrite (O2 id' N), (O1 id' N).
Qed.

Lemma credited_grown (id : pystr) (dw dp : Z) (t t' : scoreboard) :
  0 <= dw -> 0 <= dp -> credited id dw dp t t' -> grown t t'.
Proof.
  intros Hw Hp (K & I & O). split; [exact K|].
  intros id' e H.
  destruct (list_eq_dec Z.eq_dec id' id) as [->|N].
  - exists (raise_tally dw dp e). split; [now apply I|].
    unfold raise_tally. cbn [wins points]. lia.
  - exists e. rewrite (O id' N). split; [exact H|lia].
Qed.

Lemma grown_refl (t : scoreboard) : grown t t.
Proof.
  split; [reflexivity|]. intros id e H. exists e. split; [exact H|lia].
Qed.

Lemma grown_trans (a b c : scoreboard) : grown a b -> grown b c -> grown a c.
Proof.
  intros [K1 G1] [K2 G2]. split; [congruence|].
  intros id e H.
  destruct (G1 id e H) as (e1 & H1 & W1 & P1).
  destruct (G2 id e1 H1) as (e2 & H2 & W2 & P2).
  exists e2. split; [exact H2|lia].
Qed.

Lemma grown_enrolled (white_id black_id : pystr) (t t' : scoreboard) :
  grown t t' -> enrolled white_id black_id t ->
  enrolled white_id black_id t'.
Proof.
  intros [_ G] [H1 H2]. split.
  - destruct (dict_get pystr_eqb t white_id) as [e|] eqn:E; [|congruence].
    destruct (G _ _ E) as (e' & -> & _). discriminate.
  - destruct (dict_get pystr_eqb t black_id) as [e|] eqn:E; [|congruence].
    destruct (G _ _ E) as (e' & -> & _). discriminate.
Qed.

Lemma add_points_credited (id : pystr) (n : Z) (g : game)
  (t : scoreboard) :
  dict_get pystr_eqb t id <> None ->
  exists t',
    add_points id n {| position := g; scores := t |} =
      (Done tt, {| position := g; scores := t' |}) /\
    credited id 0 n t t'.
Proof.
  intros He. unfold add_points. cbn [scores position with_scores].
  destruct (dict_get pystr_eqb t id) as [e|] eqn:E; [|congruence].
  eexists. split; [reflexivity|].
  split; [apply keys_dict_set; congruence|]. split.
  - intros e' H. rewrite E in H. injection H as <-.
    rewrite dict_get_set_same. unfold raise_tally. f_equal. f_equal. lia.
  - intros id' N. now apply dict_get_set_other.
Qed.

Lemma add_wins_credited (id : pystr) (n : Z) (g : game)
  (t : scoreboard) :
  dict_get pystr_eqb t id <> None ->
  exists t',
    add_wins id n {| position := g; scores := t |} =
      (Done tt, {| position := g; scores := t' |}) /\
    credited id n 0 t t'.
Proof.
  intros He. unfold add_wins. cbn [scores position with_scores].
  destruct (dict_get pystr_eqb t id) as [e|] eqn:E; [|congruence].
  eexists. split; [reflexivity|].
  split; [apply keys_dict_set; congruence|]. split.
  - intros e' H. rewrite E in H. injection H as <-.
    rewrite dict_get_set_same. unfold raise_tally. f_equal. f_equal. lia.
  - intros id' N. now apply dict_get_set_other.
Qed.

Lemma piece_value_nonneg (t : Z) : 0 <= piece_value t.
Proof.
  unfold piece_value, piece_score. cbn [dict_get].
  repeat match goal with
         | |- context [if ?b then _ else _] => destruct b
         end; lia.
Qed.

Section Simulation.

Variable actor : pystr.
Variable w : bool.

Lemma follows_on_game {A : Type} (m : M A) :
  follows actor w (on_game m) m.
Proof.
  intros g t _ _. exists 0, 0, t.
  split; [|split; [apply credited_refl|lia]].
  unfold on_game. cbn [position].
  destruct (m g) as [[a|e|] g']; reflexivity.
Qed.

Lemma follows_ret {A : Type} (a : A) : follows actor w (sret a) (ret a).
Proof.
  intros g t _ _. exists 0, 0, t.
  split; [reflexivity|split; [apply credited_refl|lia]].
Qed.

Lemma follows_bind {A B : Type} (Q : A -> Prop)
  (m : SM A) (m0 : M A) (k : A -> SM B) (k0 : A -> M B) :
  follows actor w m m0 ->
  (forall g a g',
     white_to_move g = w -> m0 g = (Ok a, g') ->
     white_to_move g' = w /\ Q a) ->
  (forall a, Q a -> follows actor w (k a) (k0 a)) ->
  follows actor w (sbind m k) (bind m0 k0).
Proof.
  intros Hm Hpost Hk g t Hw He.
  destruct (Hm g t Hw He) as (dw & dp & t1 & E & C & Pw & Pp).
  unfold sbind, bind. rewrite E.
  destruct (m0 g) as [[a|e|] g1] eqn:E0; cbn [scored fst snd].
  - destruct (Hpost g a g1 Hw E0) as [Hw1 HQ].
    pose proof (credited_enrolled _ _ _ _ _ C actor He) as He1.
    destruct (Hk a HQ g1 t1 Hw1 He1) as (dw2 & dp2 & t2 & E2 & C2 & P2 & P3).
    exists (dw + dw2), (dp + dp2), t2.
    split; [exact E2|]. split; [|lia].
    eapply credited_trans; eassumption.
  - exists dw, dp, t1. auto.
  - exists dw, dp, t1. auto.
Qed.

Lemma follows_credit_first {A : Type} (n : Z) (m : SM A) (m0 : M A) :
  0 <= n -> follows actor w m m0 ->
  follows actor w (sbind (add_points actor n) (fun _ => m)) m0.
Proof.
  intros Hn Hm g t Hw He.
  destruct (add_points_credited actor n g t He) as (t1 & E1 & C1).
  pose proof (credited_enrolled _ _ _ _ _ C1 actor He) as He1.
  destruct (Hm g t1 Hw He1) as (dw & dp & t2 & E2 & C2 & Pw & Pp).
  exists (0 + dw), (n + dp), t2.
  unfold sbind. rewrite E1.
  split; [exact E2|]. split; [|lia].
  eapply credited_trans; eassumption.
Qed.

Lemma follows_skip_first {A : Type} (m : SM A) (m0 : M A) :
  follows actor w m m0 ->
  follows actor w (sbind (sret tt) (fun _ => m)) m0.
Proof. intros Hm g t Hw He. exact (Hm g t Hw He). Qed.

Lemma follows_credit_last (n : Z) (m : M unit) :
  0 <= n ->
  follows actor w (sbind (on_game m) (fun _ => add_points actor n)) m.
Proof.
  intros Hn g t Hw He.
  unfold sbind, on_game. cbn [position].
  destruct (m g) as [[[]|e|] g1]; cbn [scored fst snd with_position scores].
  - destruct (add_points_credited actor n g1 t He) as (t1 & E1 & C1).
    exists 0, n, t1. auto with zarith.
  - exists 0, 0, t. split; [reflexivity|].
    split; [apply credited_refl|lia].
  - exists 0, 0, t. split; [reflexivity|].
    split; [apply credited_refl|lia].
Qed.

Lemma follows_read_side {A : Type} (k : bool -> SM A) (m0 : M A) :
  follows actor w (k w) m0 ->
  follows actor w
    (sbind (on_game (reading (fun g => Ok (white_to_move g)))) k) m0.
Proof.
  intros Hk g t Hw He.
  unfold sbind, on_game, reading. cbn [position with_position scores].
  rewrite Hw. exact (Hk g t Hw He).
Qed.

Lemma follows_try_ret {A : Type} (m : SM A) (m0 : M A) (a : A) :
  follows actor w m m0 ->
  follows actor w (try_except_s m (sret a)) (try_except m0 (ret a)).
Proof.
  intros Hm g t Hw He.
  destruct (Hm g t Hw He) as (dw & dp & t1 & E & C & Pw & Pp).
  exists dw, dp, t1. split; [|auto].
  unfold try_except_s, try_except. rewrite E.
  destruct (m0 g) as [[a'|e|] g1]; cbn [scored fst snd];
    try reflexivity.
  destruct e; reflexivity.
Qed.

End Simulation.


Section Erasure.

Variables white_id black_id : pystr.
Variable w : bool.

Let actor : pystr := if w then white_id else black_id.

Lemma reading_post {A : Type} (f : game -> res A) (g g' : game) (a : A) :
  white_to_move g = w -> reading f g = (Ok a, g') ->
  white_to_move g' = w /\ True.
Proof. intros Hw H. apply reading_inv in H as [_ ->]. auto. Qed.

Lemma follows_then_ret {A : Type} (m : M unit) (a : A) :
  follows actor w (sbind (on_game m) (fun _ => sret a))
    (bind m (fun _ => ret a)).
Proof.
  intros g t _ _. exists 0, 0, t.
  split; [|split; [apply credited_refl|lia]].
  unfold sbind, on_game, bind, sret, ret. cbn [position].
  destruct (m g) as [[[]|e|] g1]; reflexivity.
Qed.

Lemma follows_win (o : outcome) :
  follows actor w
    (sbind (add_wins actor 1)
       (fun _ => sbind (add_points actor 10) (fun _ => sret o)))
    (ret o).
Proof.
  intros g t _ He.
  destruct (add_wins_credited actor 1 g t He) as (t1 & E1 & C1).
  pose proof (credited_enrolled _ _ _ _ _ C1 actor He) as He1.
  destruct (add_points_credited actor 10 g t1 He1) as (t2 & E2 & C2).
  exists (1 + 0), (0 + 10), t2.
  unfold sbind. rewrite E1, E2.
  split; [reflexivity|]. split; [|lia].
  eapply credited_trans; eassumption.
Qed.

Lemma follows_relocate (sr sc scode er ec : Z) :
  follows actor w (relocate_scored actor sr sc scode er ec)
    (relocate sr sc scode er ec).
Proof.
  unfold relocate_scored, relocate.
  apply (follows_bind actor w (fun _ => True));
    [apply follows_on_game|intros *; apply reading_post|intros wtm _].
  apply (follows_bind actor w (fun _ => True));
    [apply follows_on_game|intros *; apply reading_post|intros [|] _].
  - apply follows_credit_last. lia.
  - apply (follows_bind actor w (fun _ => True));
      [apply follows_on_game|intros *; apply reading_post|intros [|] _].
    + apply follows_credit_last. lia.
    + apply follows_on_game.
Qed.

Lemma follows_finish :
  follows actor w (finish_scored white_id black_id) finish.
Proof.
  unfold finish_scored, finish.
  apply (follows_bind actor w (fun a => a = w));
    [apply follows_on_game| |intros a ->].
  { intros g a g' Hw H. apply reading_inv in H as [H ->].
    apply Ok_inj in H. split; congruence. }
  apply (follows_bind actor w (fun _ => True));
    [apply follows_on_game|intros *; apply reading_post|intros alive _].
  destruct (negb alive).
  - apply follows_win.
  - apply follows_then_ret.
Qed.

Lemma follows_apply_move (sr sc scode er ec : Z) :
  follows actor w (apply_move_scored white_id black_id sr sc scode er ec)
    (apply_move sr sc scode er ec).
Proof.
  unfold apply_move_scored, apply_move.
  apply follows_read_side. cbv zeta. fold actor.
  apply (follows_bind actor w (fun _ => True));
    [apply follows_on_game| |intros target _].
  { intros g a g' Hw H. apply piece_at_inv in H as [_ ->]. auto. }
  assert (Hrest :
    follows actor w
      (sbind (relocate_scored actor sr sc scode er ec) (fun _ =>
       sbind (on_game (piece_at er ec)) (fun before =>
       sbind (on_game (handle_promotion er ec)) (fun _ =>
       sbind (on_game (piece_at er ec)) (fun after =>
       sbind (if negb (before =? after) then add_points actor 5
              else sret tt) (fun _ =>
       sbind (on_game (update_en_passant_target sr sc scode er)) (fun _ =>
       finish_scored white_id black_id)))))))
      (bind (relocate sr sc scode er ec) (fun _ =>
       bind (piece_at er ec) (fun before =>
       bind (handle_promotion er ec) (fun _ =>
       bind (piece_at er ec) (fun after =>
       bind (update_en_passant_target sr sc scode er) (fun _ =>
       finish))))))).
  { apply (follows_bind actor w (fun _ => True));
      [apply follows_relocate| |intros _ _].
    { intros g a g' Hw H.
      apply relocate_turn_fields in H as [H _].
      split; [congruence|exact I]. }
    apply (follows_bind actor w (fun _ => True));
      [apply follows_on_game| |intros before _].
    { intros g a g' Hw H. apply piece_at_inv in H as [_ ->]. auto. }
    apply (follows_bind actor w (fun _ => True));
      [apply follows_on_game| |intros _ _].
    { intros g a g' Hw H.
      apply handle_promotion_turn_fields in H as [H _].
      split; [congruence|exact I]. }
    apply (follows_bind actor w (fun _ => True));
      [apply follows_on_game| |intros after _].
    { intros g a g' Hw H. apply piece_at_inv in H as [_ ->]. auto. }
    assert (Hend :
      follows actor w
        (sbind (on_game (update_en_passant_target sr sc scode er))
           (fun _ => finish_scored white_id black_id))
        (bind (update_en_passant_target sr sc scode er)
           (fun _ => finish))).
    { apply (follows_bind actor w (fun _ => True));
        [apply follows_on_game| |intros _ _; apply follows_finish].
      intros g a g' Hw H. unfold update_en_passant_target in H.
      apply modify_inv in H as [_ ->]. auto. }
    destruct (negb (before =? after));
      [apply follows_credit_first; [lia|exact Hend]
      |apply follows_skip_first; exact Hend]. }
  destruct (negb (target =? 0));
    [apply follows_credit_first; [apply piece_value_nonneg|exact Hrest]
    |apply follows_skip_first; exact Hrest].
Qed.

Lemma follows_turn (p : proposal) :
  follows actor w (turn_scored white_id black_id p) (turn p).
Proof.
  unfold turn_scored, turn. apply follows_try_ret.
  unfold attempt_scored, attempt.
  apply (follows_bind actor w (fun _ => True));
    [apply follows_on_game| |].
  { intros g a g' Hw H. apply select_reads in H. subst g'. auto. }
  intros [o|[[[sr sc] scode] [er ec]]] _;
    [apply follows_ret|apply follows_apply_move].
Qed.

End Erasure.

Lemma turn_scored_grows (white_id black_id : pystr) (p : proposal)
  (g : game) (t : scoreboard) :
  enrolled white_id black_id t ->
  exists t',
    turn_scored white_id black_id p {| position := g; scores := t |} =
      (scored (fst (turn p g)),
       {| position := snd (turn p g); scores := t' |}) /\
    grown t t'.
Proof.
  intros [Hw Hb].
  destruct (follows_turn white_id black_id (white_to_move g) p g t
              eq_refl)
    as (dw & dp & t' & E & C & Pw & Pp).
  { now destruct (white_to_move g). }
  exists t'. split; [exact E|].
  exact (credited_grown _ dw dp t t' Pw Pp C).
Qed.

Lemma play_loop_scored_grows (white_id black_id : pystr)
  (inputs : list proposal) :
  forall (g : game) (t : scoreboard),
    enrolled white_id black_id t ->
    exists t',
      play_loop_scored white_id black_id inputs
        {| position := g; scores := t |} =
        (scored (fst (play_loop inputs g)),
         {| position := snd (play_loop inputs g); scores := t' |}) /\
      grown t t'.
Proof.
  induction inputs as [|p rest IH]; intros g t He.
  - exists t. split; [reflexivity|apply grown_refl].
  - destruct (turn_scored_grows white_id black_id p g t He)
      as (t1 & E1 & G1).
    cbn [play_loop_scored play_loop]. rewrite E1.
    destruct (turn p g) as [[o|e|] g1]; cbn [scored fst snd].
    + destruct (IH g1 t1 (grown_enrolled _ _ _ _ G1 He))
        as (t2 & E2 & G2).
      destruct o;
        try (exists t2; split; [exact E2|eapply grown_trans; eassumption]).
      exists t1. split; [reflexivity|exact G1].
    + exists t1. split; [reflexivity|exact G1].
    + exists t1. split; [reflexivity|exact G1].
Qed.

(** X22. When both players have an entry in the score table, the table
    has no influence on play: [play_game] ends or goes on as it does
    without the table and reaches the same position, it raises no
    [KeyError], the table keeps its keys in their order, and no entry
    loses wins or points. *)
Theorem scores_do_not_steer_play (white_id black_id : pystr)
  (t : scoreboard) (inputs : list proposal) :
  enrolled white_id black_id t ->
  let run := play_game_scored white_id black_id t inputs in
  fst run = scored (fst (play_game inputs)) /\
  position (snd run) = snd (play_game inputs) /\
  grown t (scores (snd run)).
Proof.
  intros He run. subst run. unfold play_game_scored, play_game.
  destruct (play_loop_scored_grows white_id black_id inputs new_game t He)
    as (t' & E & G).
  rewrite E. cbn [fst snd position scores]. auto.
Qed.

Lemma scores_do_not_steer_play_witness :
  position
    (snd (play_game_scored (text "ann") (text "bob")
            (fresh_scores (text "ann") (text "bob")) en_passant_line))
  = en_passant_game.
Proof.
  apply (scores_do_not_steer_play (text "ann") (text "bob")
           (fresh_scores (text "ann") (text "bob")) en_passant_line).
  split; discriminate.
Defined.


(** ** What a move scores *)

Lemma sbind_done_inv {A B : Type} (m : SM A) (k : A -> SM B)
  (s s' : session) (b : B) :
  sbind m k s = (Done b, s') ->
  exists a s1, m s = (Done a, s1) /\ k a s1 = (Done b, s').
Proof.
  unfold sbind. destruct (m s) as [[a|e|] s1]; intros H;
    try discriminate. eauto.
Qed.

Lemma on_game_done_inv {A : Type} (m : M A) (s s' : session) (a : A) :
  on_game m s = (Done a, s') ->
  m (position s) = (Ok a, position s') /\ scores s' = scores s.
Proof.
  unfold on_game. destruct (m (position s)) as [[a'|e|] g'];
    intros H; try discriminate.
  injection H as -> <-. auto.
Qed.

Lemma add_points_done_inv (id : pystr) (n : Z) (s s' : session)
  (x : unit) :
  add_points id n s = (Done x, s') ->
  position s' = position s /\
  dict_get pystr_eqb (scores s) id <> None /\
  credited id 0 n (scores s) (scores s').
Proof.
  intros H.
  assert (He : dict_get pystr_eqb (scores s) id <> None).
  { unfold add_points in H.
    destruct (dict_get pystr_eqb (scores s) id); discriminate. }
  destruct s as [g t]. cbn [scores position] in *.
  destruct (add_points_credited id n g t He) as (t' & E & C).
  rewrite E in H. destruct x. injection H as <-.
  split; [reflexivity|]. split; [exact He|exact C].
Qed.

Lemma add_wins_done_inv (id : pystr) (n : Z) (s s' : session)
  (x : unit) :
  add_wins id n s = (Done x, s') ->
  position s' = position s /\
  dict_get pystr_eqb (scores s) id <> None /\
  credited id n 0 (scores s) (scores s').
Proof.
  intros H.
  assert (He : dict_get pystr_eqb (scores s) id <> None).
  { unfold add_wins in H.
    destruct (dict_get pystr_eqb (scores s) id); discriminate. }
  destruct s as [g t]. cbn [scores position] in *.
  destruct (add_wins_credited id n g t He) as (t' & E & C).
  rewrite E in H. destruct x. injection H as <-.
  split; [reflexivity|]. split; [exact He|exact C].
Qed.

Lemma credited_as (id : pystr) (dw dp dw' dp' : Z) (t t' : scoreboard) :
  credited id dw dp t t' -> dw = dw' -> dp = dp' ->
  credited id dw' dp' t t'.
Proof. now intros H <- <-. Qed.

Lemma put_then_get (r c v : Z) (g g' : game) :
  wf_board (board g) = true ->
  put_piece r c v g = (Ok tt, g') ->
  get_piece (board g') r c = Ok v.
Proof.
  intros Hwf H. unfold put_piece in H.
  destruct (set_piece (board g) r c v) as [b'| |] eqn:E;
    try discriminate.
  injection H as <-. cbn [board with_board].
  unfold set_piece in E.
  apply bind_res_ok_inv in E as (i & Hi & E).
  apply bind_res_ok_inv in E as (j & Hj & E).
  apply Ok_inj in E. subst b'.
  unfold get_piece. rewrite Hi, Hj. cbn [bind_res]. f_equal.
  apply cell_set_cell_same; [exact Hwf| |]; eapply tf_index_lt; eassumption.
Qed.

Lemma promotion_changes (r c before after : Z) (g g' : game) :
  wf_board (board g) = true ->
  get_piece (board g) r c = Ok before ->
  handle_promotion r c g = (Ok tt, g') ->
  get_piece (board g') r c = Ok after ->
  negb (before =? after) = promotes before r.
Proof.
  intros Hwf Hb H Ha. unfold handle_promotion in H.
  apply bind_ok_inv in H as (piece & g0 & H0 & H).
  apply piece_at_inv in H0 as [H0 ->].
  rewrite Hb in H0. apply Ok_inj in H0. subst piece.
  unfold promotes.
  destruct ((before =? 1) && (r =? 0)) eqn:E1.
  - apply (put_then_get _ _ _ _ _ Hwf) in H.
    rewrite H in Ha. apply Ok_inj in Ha. subst after.
    apply andb_true_iff in E1 as [E1 _]. apply Z.eqb_eq in E1.
    now subst before.
  - destruct ((before =? 7) && (r =? 7)) eqn:E2.
    + apply (put_then_get _ _ _ _ _ Hwf) in H.
      rewrite H in Ha. apply Ok_inj in Ha. subst after.
      apply andb_true_iff in E2 as [E2 _]. apply Z.eqb_eq in E2.
      now subst before.
    + unfold ret in H. injection H as <-.
      rewrite Hb in Ha. apply Ok_inj in Ha. subst after.
      now rewrite Z.eqb_refl.
Qed.

Lemma relocate_scored_done_inv (actor : pystr) (sr sc scode er ec : Z)
  (s s' : session) :
  dict_get pystr_eqb (scores s) actor <> None ->
  relocate_scored actor sr sc scode er ec s = (Done tt, s') ->
  relocate sr sc scode er ec (position s) = (Ok tt, position s') /\
  credited actor 0 (move_bonus (position s) sr sc er ec)
    (scores s) (scores s').
Proof.
  intros He H. unfold relocate_scored in H.
  apply sbind_done_inv in H as (wtm & s0 & H0 & H).
  apply on_game_done_inv in H0 as [H0 T0].
  apply reading_inv in H0 as [H0 P0]. apply Ok_inj in H0. subst wtm.
  apply sbind_done_inv in H as (castling & s1 & H1 & H).
  apply on_game_done_inv in H1 as [H1 T1].
  apply reading_inv in H1 as [H1 P1].
  rewrite P0 in H1, P1. symmetry in H1.
  unfold relocate, bind, reading, move_bonus.
  rewrite H1.
  destruct castling.
  - apply sbind_done_inv in H as ([] & s2 & H2 & H).
    apply on_game_done_inv in H2 as [H2 T2].
    apply add_points_done_inv in H as (P3 & _ & C3).
    rewrite P1 in H2. rewrite H2, P3.
    split; [reflexivity|]. now rewrite <- T0, <- T1, <- T2.
  - apply sbind_done_inv in H as (en_passant & s2 & H2 & H).
    apply on_game_done_inv in H2 as [H2 T2].
    apply reading_inv in H2 as [H2 P2].
    rewrite P1 in H2, P2. symmetry in H2.
    rewrite H2.
    destruct en_passant.
    + apply sbind_done_inv in H as ([] & s3 & H3 & H).
      apply on_game_done_inv in H3 as [H3 T3].
      apply add_points_done_inv in H as (P4 & _ & C4).
      rewrite P2 in H3. rewrite H3, P4.
      split; [reflexivity|].
      now rewrite <- T0, <- T1, <- T2, <- T3.
    + apply on_game_done_inv in H as [H3 T3].
      rewrite P2 in H3. rewrite H3.
      split; [reflexivity|].
      rewrite T3, T2, T1, T0. apply credited_refl.
Qed.

Lemma finish_scored_done_inv (white_id black_id : pystr)
  (s s' : session) (o : outcome) :
  finish_scored white_id black_id s = (Done o, s') ->
  finish (position s) = (Ok o, position s') /\
  accepted o = true /\
  credited (mover white_id black_id (position s))
    (if won o then 1 else 0) (if won o then 10 else 0)
    (scores s) (scores s').
Proof.
  intros H. unfold finish_scored in H.
  apply sbind_done_inv in H as (wtm & s0 & H0 & H).
  apply on_game_done_inv in H0 as [H0 T0].
  apply reading_inv in H0 as [H0 P0]. apply Ok_inj in H0. subst wtm.
  apply sbind_done_inv in H as (alive & s1 & H1 & H).
  apply on_game_done_inv in H1 as [H1 T1].
  apply reading_inv in H1 as [H1 P1].
  rewrite P0 in H1, P1. symmetry in H1.
  unfold finish, bind, reading, mover. rewrite H1.
  destruct alive; cbn [negb] in *.
  - apply sbind_done_inv in H as ([] & s2 & H2 & H).
    apply on_game_done_inv in H2 as [H2 T2].
    unfold sret in H. injection H as <- <-.
    rewrite P1 in H2. rewrite H2. unfold ret.
    split; [reflexivity|]. split; [reflexivity|].
    cbn [won]. rewrite T2, T1, T0. apply credited_refl.
  - apply sbind_done_inv in H as ([] & s2 & H2 & H).
    apply add_wins_done_inv in H2 as (P2 & He & C2).
    apply sbind_done_inv in H as ([] & s3 & H3 & H).
    apply add_points_done_inv in H3 as (P3 & _ & C3).
    unfold sret in H. injection H as <- <-.
    unfold ret. rewrite P3, P2, P1.
    split; [reflexivity|]. split; [reflexivity|].
    cbn [won]. rewrite T1, T0 in C2, He.
    apply (credited_as _ (1 + 0) (0 + 10)); [|lia|lia].
    eapply credited_trans; eassumption.
Qed.


Lemma credit_or_skip_inv (id : pystr) (c : bool) (n : Z)
  (s s' : session) (x : unit) :
  (if c then add_points id n else sret tt) s = (Done x, s') ->
  position s' = position s /\
  credited id 0 (if c then n else 0) (scores s) (scores s').
Proof.
  destruct c; intros H.
  - apply add_points_done_inv in H as (P & _ & C). auto.
  - unfold sret in H. injection H as _ <-.
    split; [reflexivity|apply credited_refl].
Qed.

Lemma piece_value_empty (t : Z) :
  (if negb (t =? 0) then piece_value t else 0) = piece_value t.
Proof.
  destruct (Z.eqb_spec t 0) as [->|]; reflexivity.
Qed.

(** X23. When both players have an entry in the score table, an accepted
    turn on a board of shape 8x8 credits the player who moved, and nobody
    else, with the value of what stood on the destination (pawn 1, rook
    3, knight 3, bishop 5, queen 9, king 0, empty 0), plus 3 for castling
    or 2 for en passant, plus 5 when a pawn is promoted, plus 10 points
    and one win when the move leaves the other side without a king. *)
Theorem accepted_turn_credits_the_mover
  (white_id black_id : pystr) (p : proposal) (g : game) (t : scoreboard)
  (o : outcome) (s' : session) :
  wf_board (board g) = true ->
  enrolled white_id black_id t ->
  turn_scored white_id black_id p {| position := g; scores := t |}
    = (Done o, s') ->
  accepted o = true ->
  exists sr sc scode er ec target g1 before,
    select p g = (Ok (inr ((sr, sc), scode, (er, ec))), g) /\
    get_piece (board g) er ec = Ok target /\
    relocate sr sc scode er ec g = (Ok tt, g1) /\
    get_piece (board g1) er ec = Ok before /\
    credited (mover white_id black_id g)
      (if won o then 1 else 0)
      (piece_value target + move_bonus g sr sc er ec
       + (if promotes before er then 5 else 0)
       + (if won o then 10 else 0))
      t (scores s').
Proof.
  intros Hwf Henr H Hacc.
  set (actor := mover white_id black_id g).
  assert (He : dict_get pystr_eqb t actor <> None).
  { subst actor. unfold mover. destruct Henr.
    now destruct (white_to_move g). }
  unfold turn_scored, try_except_s in H.
  destruct (attempt_scored white_id black_id p
              {| position := g; scores := t |}) as [[o1|e|] s1] eqn:Ha.
  2: { destruct e as [[| |]|id]; try discriminate;
       unfold sret in H; injection H as <- _; discriminate. }
  2: discriminate.
  injection H as -> ->.
  unfold attempt_scored in Ha.
  apply sbind_done_inv in Ha as (x & [g0 t0] & Hsel & Ha).
  apply on_game_done_inv in Hsel as [Hsel T0].
  cbn [position scores] in Hsel, T0. subst t0.
  pose proof (select_reads _ _ _ _ Hsel) as ->.
  destruct x as [o'|[[[sr sc] scode] [er ec]]].
  { unfold sret in Ha. injection Ha as -> _.
    apply select_rejects in Hsel. congruence. }
  exists sr, sc, scode, er, ec.
  unfold apply_move_scored in Ha.
  apply sbind_done_inv in Ha as (wtm & [g1 t1] & H1 & Ha).
  apply on_game_done_inv in H1 as [H1 T1].
  cbn [position scores] in H1, T1. subst t1.
  apply reading_inv in H1 as [H1 ->]. apply Ok_inj in H1. subst wtm.
  cbv zeta in Ha. fold (mover white_id black_id g) in Ha. fold actor in Ha.
  apply sbind_done_inv in Ha as (target & [g2 t2] & H2 & Ha).
  apply on_game_done_inv in H2 as [H2 T2].
  cbn [position scores] in H2, T2. subst t2.
  apply piece_at_inv in H2 as [H2 ->]. symmetry in H2.
  apply sbind_done_inv in Ha as ([] & [g3 t3] & H3 & Ha).
  apply credit_or_skip_inv in H3 as [P3 C3].
  cbn [position scores] in P3, C3. subst g3.
  rewrite piece_value_empty in C3.
  pose proof (credited_enrolled _ _ _ _ _ C3 actor He) as He3.
  apply sbind_done_inv in Ha as ([] & [g4 t4] & H4 & Ha).
  apply relocate_scored_done_inv in H4 as [H4 C4]; [|exact He3].
  cbn [position scores] in H4, C4.
  pose proof (credited_enrolled _ _ _ _ _ C4 actor He3) as He4.
  apply sbind_done_inv in Ha as (before & [g5 t5] & H5 & Ha).
  apply on_game_done_inv in H5 as [H5 T5].
  cbn [position scores] in H5, T5. subst t5.
  apply piece_at_inv in H5 as [H5 ->]. symmetry in H5.
  exists target, g4, before.
  split; [exact Hsel|]. split; [exact H2|]. split; [exact H4|].
  split; [exact H5|].
  apply sbind_done_inv in Ha as ([] & [g6 t6] & H6 & Ha).
  apply on_game_done_inv in H6 as [H6 T6].
  cbn [position scores] in H6, T6. subst t6.
  apply sbind_done_inv in Ha as (after & [g7 t7] & H7 & Ha).
  apply on_game_done_inv in H7 as [H7 T7].
  cbn [position scores] in H7, T7. subst t7.
  apply piece_at_inv in H7 as [H7 ->]. symmetry in H7.
  apply sbind_done_inv in Ha as ([] & [g8 t8] & H8 & Ha).
  apply credit_or_skip_inv in H8 as [P8 C8].
  cbn [position scores] in P8, C8. subst g8.
  assert (Hwf4 : wf_board (board g4) = true)
    by exact (shaped_relocate sr sc scode er ec g _ g4 Hwf H4).
  rewrite (promotion_changes er ec before after g4 g6 Hwf4 H5 H6 H7) in C8.
  pose proof (credited_enrolled _ _ _ _ _ C8 actor He4) as He8.
  apply sbind_done_inv in Ha as ([] & [g9 t9] & H9 & Ha).
  apply on_game_done_inv in H9 as [H9 T9].
  cbn [position scores] in H9, T9. subst t9.
  unfold update_en_passant_target in H9.
  apply modify_inv in H9 as [_ ->].
  apply finish_scored_done_inv in Ha as (_ & _ & C9).
  cbn [position scores] in C9.
  assert (Hm : mover white_id black_id
                 (with_en_passant_target
                    (if ((scode =? 1) || (scode =? 7))
                        && (Z.abs (er - sr) =? 2)
                     then Some ((sr + er) / 2, sc) else None) g6) = actor).
  { subst actor. unfold mover.
    cbn [white_to_move with_en_passant_target].
    apply relocate_turn_fields in H4 as [W4 _].
    apply handle_promotion_turn_fields in H6 as [W6 _].
    now rewrite W6, W4. }
  rewrite Hm in C9.
  pose proof (credited_trans _ _ _ _ _ _ _ _ He C3 C4) as C34.
  pose proof (credited_trans _ _ _ _ _ _ _ _ He C34 C8) as C348.
  pose proof (credited_trans _ _ _ _ _ _ _ _ He C348 C9) as Call.
  apply (credited_as _ _ _ _ _ _ _ Call); lia.
Qed.

Lemma accepted_turn_credits_the_mover_witness :
  exists sr sc scode er ec target g1 before,
    select en_passant_proposal en_passant_game =
      (Ok (inr ((sr, sc), scode, (er, ec))), en_passant_game) /\
    get_piece (board en_passant_game) er ec = Ok target /\
    relocate sr sc scode er ec en_passant_game = (Ok tt, g1) /\
    get_piece (board g1) er ec = Ok before /\
    credited (mover (text "ann") (text "bob") en_passant_game)
      (if won Moved then 1 else 0)
      (piece_value target + move_bonus en_passant_game sr sc er ec
       + (if promotes before er then 5 else 0)
       + (if won Moved then 10 else 0))
      (fresh_scores (text "ann") (text "bob"))
      (scores
         (snd (turn_scored (text "ann") (text "bob") en_passant_proposal
                 {| position := en_passant_game;
                    scores := fresh_scores (text "ann") (text "bob") |}))).
Proof.
  apply (accepted_turn_credits_the_mover (text "ann") (text "bob")
           en_passant_proposal en_passant_game
           (fresh_scores (text "ann") (text "bob")) Moved).
  - reflexivity.
  - split; discriminate.
  - reflexivity.
  - reflexivity.
Defined.
